(** * gateway-go: a shallow embedding of the gateway core

    The development follows the Go sources package by package:
    - [Go]: the pieces of the Go language and standard library the code
      relies on (fixed-width integers, [strings], [strconv], [sort]);
    - [gin]: the per-request context of the web framework, as far as the
      gateway uses it;
    - [config]: configuration structures, [ValidateConfig] and the
      [ConfigManager] reload path;
    - [ratelimit], [circuitbreaker], [cors], [interface_auth],
      [consistency]: the policy plug-ins;
    - [chain], [plugin]: plug-in chains and the plug-in manager;
    - [router]: the trie, the path cache and [Manager.MatchRoute];
    - [main]: the dispatcher installed by [registerRoutes].

    Wall-clock time is an explicit input: every function that calls
    [time.Now()] takes the instant as an argument, in nanoseconds since the
    epoch ([UnixNano]).  One request is served at one instant.  Mutexes and
    atomics protect single assignments in the sources; the model is the
    sequential semantics of one call at a time. *)

From Stdlib Require Import ZArith QArith Qround Lia Ascii String DecimalString.
From stdpp Require Import base option gmap strings list sorting.

Local Open Scope Z_scope.
#[local] Set Warnings "-register-all".

(* ================================================================== *)
(** * Go: language and standard-library primitives                      *)
(* ================================================================== *)

Module Go.

(** Two's-complement wrap-around of a [bits]-bit signed integer. *)
Definition wrap (bits : Z) (z : Z) : Z :=
  (z + 2 ^ (bits - 1)) mod 2 ^ bits - 2 ^ (bits - 1).

Definition int32 (z : Z) : Z := wrap 32 z.
Definition int64 (z : Z) : Z := wrap 64 z.

Definition MinInt64 : Z := - 2 ^ 63.
Definition MaxInt64 : Z := 2 ^ 63 - 1.

Definition in_int64 (z : Z) : Prop := MinInt64 <= z <= MaxInt64.

(** [time.Second], in nanoseconds. *)
Definition Second : Z := 1000000000.
Definition Minute : Z := 60 * Second.

(** [Time.Sub] saturates instead of wrapping. *)
Definition time_Sub (t u : Z) : Z :=
  Z.max MinInt64 (Z.min MaxInt64 (t - u)).

(** [float64(x)] for an [int64] [x] is the nearest integer with a 53-bit
    significand, ties to even.  It is again an integer, so conversions,
    [math.Abs] and comparisons of converted integers are computed on [Z]
    without loss. *)
Definition float64_of_int (z : Z) : Z :=
  let a := Z.abs z in
  if a <? 2 ^ 53 then z
  else
    let e := Z.log2 a - 52 in
    let q := a / 2 ^ e in
    let r := a mod 2 ^ e in
    let half := 2 ^ (e - 1) in
    let q' := if (half <? r) || ((r =? half) && Z.odd q) then q + 1 else q in
    Z.sgn z * (q' * 2 ^ e).

(** [int64(f)] for a float in range: truncation towards zero. *)
Definition int64_of_float (q : Q) : Z := Z.quot (Qnum q) (Zpos (Qden q)).

(** ** package strings *)

Fixpoint HasPrefix (s p : string) : bool :=
  match p, s with
  | EmptyString, _ => true
  | String a p', String b s' => if Ascii.eqb a b then HasPrefix s' p' else false
  | String _ _, EmptyString => false
  end.

Fixpoint drop_bytes (n : nat) (s : string) : string :=
  match n, s with
  | O, _ => s
  | S n', String _ s' => drop_bytes n' s'
  | S _, EmptyString => EmptyString
  end.

Definition TrimPrefix (s p : string) : string :=
  if HasPrefix s p then drop_bytes (String.length p) s else s.

Fixpoint Join (elems : list string) (sep : string) : string :=
  match elems with
  | [] => ""
  | [x] => x
  | x :: rest => x ++ sep ++ Join rest sep
  end.

(** [strings.Contains(s, old)] and [strings.ReplaceAll(s, old, new)] for
    a one-byte [old], the only use in the sources. *)
Fixpoint ContainsByte (s : string) (old : ascii) : bool :=
  match s with
  | EmptyString => false
  | String c s' => Ascii.eqb c old || ContainsByte s' old
  end.

Fixpoint ReplaceAllByte (s : string) (old : ascii) (new : string) : string :=
  match s with
  | EmptyString => EmptyString
  | String c s' =>
      if Ascii.eqb c old then new ++ ReplaceAllByte s' old new
      else String c (ReplaceAllByte s' old new)
  end.

(** [strings.Split(s, sep)] and [strings.Trim(s, cutset)] for a
    one-byte separator and cut set. *)
Fixpoint SplitByte (s : string) (sep : ascii) : list string :=
  match s with
  | EmptyString => [EmptyString]
  | String c s' =>
      if Ascii.eqb c sep then EmptyString :: SplitByte s' sep
      else match SplitByte s' sep with
           | x :: r => String c x :: r
           | [] => [String c EmptyString]
           end
  end.

Fixpoint dropWhileByte (cut : ascii) (l : list ascii) : list ascii :=
  match l with
  | c :: l' => if Ascii.eqb c cut then dropWhileByte cut l' else l
  | [] => []
  end.

Definition TrimByte (s : string) (cut : ascii) : string :=
  string_of_list_ascii
    (rev (dropWhileByte cut (rev (dropWhileByte cut (list_ascii_of_string s))))).

(** [s[:n]]: the first [n] bytes, all of [s] when it is shorter. *)
Fixpoint take_bytes (n : nat) (s : string) : string :=
  match n, s with
  | O, _ => EmptyString
  | S n', String c s' => String c (take_bytes n' s')
  | S _, EmptyString => EmptyString
  end.

Definition byte (c : ascii) : N := N_of_ascii c.

(** The six ASCII white-space bytes of [strings.TrimSpace]'s fast path. *)
Definition asciiSpace (c : ascii) : bool :=
  let n := byte c in
  ((9 <=? n) && (n <=? 13) || (n =? 32))%N.

(** UTF-8 encodings of the other code points with [unicode.IsSpace]:
    U+0085, U+00A0 (two bytes) and U+1680, U+2000..U+200A, U+2028,
    U+2029, U+202F, U+205F, U+3000 (three bytes). *)
Definition space2 (a b : ascii) : bool :=
  ((byte a =? 194) && ((byte b =? 133) || (byte b =? 160)))%N.

Definition space3 (a b c : ascii) : bool :=
  let '(x, y, z) := (byte a, byte b, byte c) in
  ((x =? 225) && (y =? 154) && (z =? 128)
   || (x =? 226) && (y =? 128)
      && ((128 <=? z) && (z <=? 138) || (z =? 168) || (z =? 169) || (z =? 175))
   || (x =? 226) && (y =? 129) && (z =? 159)
   || (x =? 227) && (y =? 128) && (z =? 128))%N.

(** [TrimLeftFunc(s, unicode.IsSpace)] on the bytes of [s]. *)
Fixpoint trimLeft (l : list ascii) : list ascii :=
  match l with
  | a :: t1 =>
      if asciiSpace a then trimLeft t1
      else match t1 with
           | b :: t2 =>
               if space2 a b then trimLeft t2
               else match t2 with
                    | c :: t3 => if space3 a b c then trimLeft t3 else l
                    | [] => l
                    end
           | [] => l
           end
  | [] => []
  end.

(** The same scan from the end, on the reversed bytes: the last rune is
    a space exactly when the string ends with one of the encodings. *)
Fixpoint trimRightRev (l : list ascii) : list ascii :=
  match l with
  | a :: t1 =>
      if asciiSpace a then trimRightRev t1
      else match t1 with
           | b :: t2 =>
               if space2 b a then trimRightRev t2
               else match t2 with
                    | c :: t3 => if space3 c b a then trimRightRev t3 else l
                    | [] => l
                    end
           | [] => l
           end
  | [] => []
  end.

Definition TrimSpace (s : string) : string :=
  string_of_list_ascii
    (rev (trimRightRev (rev (trimLeft (list_ascii_of_string s))))).

(** ** package strconv *)

Definition digit (c : ascii) : option Z :=
  let n := byte c in
  if ((48 <=? n) && (n <=? 57))%N then Some (Z.of_N n - 48) else None.

Fixpoint parseDigits (acc : Z) (s : string) : option Z :=
  match s with
  | EmptyString => Some acc
  | String c s' =>
      match digit c with
      | Some d => parseDigits (10 * acc + d) s'
      | None => None
      end
  end.

Definition parseUnsigned (s : string) : option Z :=
  match s with
  | EmptyString => None
  | String _ _ => parseDigits 0 s
  end.

(** [strconv.ParseInt(s, 10, 64)]; [None] is a non-nil error (syntax or
    range). *)
Definition ParseInt (s : string) : option Z :=
  match s with
  | EmptyString => None
  | String c s' =>
      let '(neg, body) :=
        if Ascii.eqb c "+" then (false, s')
        else if Ascii.eqb c "-" then (true, s')
        else (false, s) in
      match parseUnsigned body with
      | Some un =>
          let v := if neg then - un else un in
          if (MinInt64 <=? v) && (v <=? MaxInt64) then Some v else None
      | None => None
      end
  end.

(** ** package sort

    [sort.Slice] promises a permutation ordered by [less] and nothing
    about equal elements.  The executable model is insertion sort, which
    is what the library runs on slices of at most twelve elements; the
    properties below that depend on sorting are stated for every result
    allowed by the contract [sorted_by]. *)
Section Sort.
Context {A : Type} (less : A -> A -> bool).

Fixpoint insert (x : A) (l : list A) : list A :=
  match l with
  | [] => [x]
  | y :: l' => if less y x then y :: insert x l' else x :: y :: l'
  end.

Definition Slice (l : list A) : list A := foldr insert [] l.

(** No element is strictly [less] than one placed before it. *)
Fixpoint ordered (l : list A) : Prop :=
  match l with
  | [] => True
  | x :: l' => Forall (fun y => less y x = false) l' /\ ordered l'
  end.

Definition sorted_by (l l' : list A) : Prop := l ≡ₚ l' /\ ordered l'.
End Sort.

End Go.

(* ================================================================== *)
(** * gin: the request context                                          *)
(* ================================================================== *)

Module gin.

(** The request, as the gateway reads it.  [Header] holds canonical
    header names; [Query] is the first value of each parameter of
    [RawQuery].  A missing entry reads as the empty string, as
    [GetHeader] and [Query] do. *)
Record Request := {
  Method : string;
  Path : string;
  Host : string;
  RawQuery : string;
  Header : gmap string string;
  Query : gmap string string;
  ClientIP : string
}.

(** Errors returned by plug-ins ([error] values), one constructor per
    [fmt.Errorf] site.  [Panic] is not an error value: it marks a
    run-time panic (a failed type assertion), which unwinds through the
    chain to the recovery middleware. *)
Inductive error :=
| ErrTokenMissing
| ErrAuthNewRequest
| ErrAuthCall
| ErrAuthStatus (code : Z)
| ErrAuthEmptyBody
| ErrAuthDenied
| ErrAuthUnknown (body : string)
| ErrMissingSignature
| ErrMissingTimestamp
| ErrTimestampFormat
| ErrTimestampExpired
| ErrMissingNonce
| ErrNonceUsed
| ErrMissingField (field : string)
| ErrSignature (reason : string)
| ErrInvalidSignature
| ErrRoutesNotLoaded
| ErrNoRoute
| Panic.

(** Payloads handed to [c.JSON]. *)
Inductive payload :=
| H_error_rate_limited
| H_error_unavailable
| H_error (e : error)
| H_error_not_found
| H_error_bad_target
| H_error_proxy
| ErrorResponse (code : Z) (message : string).

(** What a handler does to the outside: the calls on the response writer
    and the outbound HTTP requests, in program order. *)
Inductive call :=
| SetHeader (key value : string)
| Status (code : Z)
| JSON (code : Z) (body : payload)
| String_ (code : Z) (text : string)
| WrapWriter (plugin_name : string)
| AuthRequest (url : string)
| Proxy (target path : string).

Record Context := {
  Req : Request;
  Keys : gmap string string;
  aborted : bool;
  calls : list call
}.

Definition New (r : Request) : Context :=
  {| Req := r; Keys := ∅; aborted := false; calls := [] |}.

Definition GetHeader (c : Context) (key : string) : string :=
  default "" (Header (Req c) !! key).

Definition GetQuery (c : Context) (key : string) : string :=
  default "" (Query (Req c) !! key).

Definition Set_ (key value : string) (c : Context) : Context :=
  {| Req := Req c; Keys := <[key := value]> (Keys c);
     aborted := aborted c; calls := calls c |}.

Definition Get (c : Context) (key : string) : option string := Keys c !! key.

Definition GetString (c : Context) (key : string) : string :=
  default "" (Keys c !! key).

Definition Abort (c : Context) : Context :=
  {| Req := Req c; Keys := Keys c; aborted := true; calls := calls c |}.

Definition IsAborted (c : Context) : bool := aborted c.

Definition emit (k : call) (c : Context) : Context :=
  {| Req := Req c; Keys := Keys c; aborted := aborted c;
     calls := calls c ++ [k] |}.

(** ** What reaches the client

    The framework sends the status line with the first body write; a
    later [WriteHeader] cannot change it.  [Status] alone only records
    the pending code. *)
Fixpoint wire_status (pending : Z) (l : list call) : Z :=
  match l with
  | [] => pending
  | Status code :: l' => wire_status (if 0 <? code then code else pending) l'
  | JSON code _ :: _ | String_ code _ :: _ => if 0 <? code then code else pending
  | _ :: l' => wire_status pending l'
  end.

Definition status_sent (c : Context) : Z := wire_status 200 (calls c).

Definition emits (ks : list call) (c : Context) : Context :=
  foldl (fun c k => emit k c) c ks.

Definition is_proxy (k : call) : bool :=
  match k with Proxy _ _ => true | _ => false end.

Definition is_auth_request (k : call) : bool :=
  match k with AuthRequest _ => true | _ => false end.

End gin.

(* ================================================================== *)
(** * config: structures, validation and reload                         *)
(* ================================================================== *)

Module config.

(** Values of a plug-in's [map[string]interface{}] configuration bag,
    tagged with their dynamic Go type. *)
Inductive value :=
| VBool (b : bool)
| VInt (n : Z)
| VInt64 (n : Z)
| VFloat64 (q : Q)
| VString (s : string)
| VList (l : list value).

(** [x.(string)] on every element; [None] is the panic of a failed
    assertion. *)
Fixpoint strings_of (l : list value) : option (list string) :=
  match l with
  | [] => Some []
  | VString s :: l' =>
      match strings_of l' with
      | Some r => Some (s :: r)
      | None => None
      end
  | _ :: _ => None
  end.

Record ServerConfig := {
  Port : Z;
  Mode : string;
  ReadTimeout : Z;
  WriteTimeout : Z;
  MaxHeaderBytes : Z;
  GracefulShutdownTimeout : Z
}.

Record LogConfig := {
  Level : string;
  Format : string;
  Output : string;
  MaxSize : Z;
  MaxAge : Z;
  MaxBackups : Z;
  Compress : bool
}.

Record PluginConfig := {
  PluginConfig_Name : string;
  Enabled : bool;
  Order : Z;
  PluginConfig_Config : gmap string value
}.

Record PluginsConfig := {
  Available : list PluginConfig;
  PluginsConfig_Routes : gmap string (list PluginConfig)
}.

Record RouteMatch := {
  Type_ : string;
  RouteMatch_Path : string;
  Priority : Z;
  RouteMatch_Host : string;
  RouteMatch_Method : string;
  Headers : gmap string string;
  QueryParams : gmap string string
}.

Record ResponseConfig := {
  ResponseConfig_Status : Z;
  Content : string;
  ContentType : string
}.

Record TargetConfig := {
  URL : string;
  Timeout : Z;
  Retries : Z
}.

Record RouteConfig := {
  RouteConfig_Name : string;
  Match : RouteMatch;
  Target : TargetConfig;
  Plugins : list string;
  Response : option ResponseConfig
}.

Record Config := {
  Server : ServerConfig;
  Log : LogConfig;
  Config_Plugins : PluginsConfig;
  Routes : list RouteConfig
}.

(** The errors of validator.go; the wrappers of [ValidateConfig] keep
    the component that failed. *)
Inductive field_error :=
| InvalidPort (port : Z)
| InvalidMode (mode : string)
| InvalidReadTimeout
| InvalidWriteTimeout
| InvalidMaxHeaderBytes
| InvalidGracefulShutdownTimeout
| EmptyLogLevel
| InvalidLogLevel (level : string)
| EmptyLogFormat
| InvalidLogFormat (format : string)
| EmptyLogOutput
| InvalidMaxSize
| InvalidMaxAge
| InvalidMaxBackups
| EmptyPluginName
| InvalidPluginOrder (order : Z)
| NoRoutes
| EmptyRouteName
| InvalidPriority (priority : Z)
| EmptyRoutePath
| EmptyTargetURL
| InvalidTargetURL (url : string).

Inductive error :=
| ServerInvalid (e : field_error)
| LogInvalid (e : field_error)
| PluginsInvalid (e : field_error)
| RoutesInvalid (index : nat) (e : field_error)
| RoutesEmpty
| ReadFailed
| DecodeFailed
| TestFailed (e : error)
| LoadFailed (e : error)
| HookFailed (hook : nat).

Definition validateServerConfig (c : ServerConfig) : option field_error :=
  if (Port c <=? 0) || (65535 <? Port c) then Some (InvalidPort (Port c))
  else if negb (String.eqb (Mode c) "debug") && negb (String.eqb (Mode c) "release")
  then Some (InvalidMode (Mode c))
  else if ReadTimeout c <=? 0 then Some InvalidReadTimeout
  else if WriteTimeout c <=? 0 then Some InvalidWriteTimeout
  else if MaxHeaderBytes c <=? 0 then Some InvalidMaxHeaderBytes
  else if GracefulShutdownTimeout c <=? 0 then Some InvalidGracefulShutdownTimeout
  else None.

Definition validLevels : list string := ["debug"; "info"; "warn"; "error"].
Definition validFormats : list string := ["json"; "text"].

Definition validateLogConfig (c : LogConfig) : option field_error :=
  if String.eqb (Level c) "" then Some EmptyLogLevel
  else if negb (bool_decide (Level c ∈ validLevels)) then Some (InvalidLogLevel (Level c))
  else if String.eqb (Format c) "" then Some EmptyLogFormat
  else if negb (bool_decide (Format c ∈ validFormats)) then Some (InvalidLogFormat (Format c))
  else if String.eqb (Output c) "" then Some EmptyLogOutput
  else if MaxSize c <=? 0 then Some InvalidMaxSize
  else if MaxAge c <=? 0 then Some InvalidMaxAge
  else if MaxBackups c <=? 0 then Some InvalidMaxBackups
  else None.

Definition validatePluginConfig (c : PluginConfig) : option field_error :=
  if String.eqb (PluginConfig_Name c) "" then Some EmptyPluginName
  else if Order c <? 0 then Some (InvalidPluginOrder (Order c))
  else None.

(** First error of a validator over a list, in order. *)
Fixpoint first_error {A E : Type} (f : A -> option E) (l : list A) : option E :=
  match l with
  | [] => None
  | x :: l' => match f x with Some e => Some e | None => first_error f l' end
  end.

(** The per-route lists are visited in map order; only whether some
    entry fails matters to the callers. *)
Definition validatePluginsConfig (c : PluginsConfig) : option field_error :=
  match first_error validatePluginConfig (Available c) with
  | Some e => Some e
  | None =>
      first_error (fun kv => first_error validatePluginConfig kv.2)
                  (map_to_list (PluginsConfig_Routes c))
  end.

Section Validate.
(** [url.Parse] of the standard library: does the string parse? *)
Variable url_Parse_ok : string -> bool.

Definition validateRouteConfig (c : RouteConfig) : option field_error :=
  if String.eqb (RouteConfig_Name c) "" then Some EmptyRouteName
  else if Priority (Match c) <? 0 then Some (InvalidPriority (Priority (Match c)))
  else if String.eqb (RouteMatch_Path (Match c)) "" then Some EmptyRoutePath
  else if String.eqb (URL (Target c)) "" then Some EmptyTargetURL
  else if negb (url_Parse_ok (URL (Target c))) then Some (InvalidTargetURL (URL (Target c)))
  else None.

Fixpoint validateRoutesFrom (i : nat) (routes : list RouteConfig) : option error :=
  match routes with
  | [] => None
  | r :: rest =>
      match validateRouteConfig r with
      | Some e => Some (RoutesInvalid i e)
      | None => validateRoutesFrom (S i) rest
      end
  end.

Definition validateRoutesConfig (routes : list RouteConfig) : option error :=
  match routes with
  | [] => Some RoutesEmpty
  | _ => validateRoutesFrom 0 routes
  end.

Definition ValidateConfig (c : Config) : option error :=
  match validateServerConfig (Server c) with
  | Some e => Some (ServerInvalid e)
  | None =>
  match validateLogConfig (Log c) with
  | Some e => Some (LogInvalid e)
  | None =>
  match validatePluginsConfig (Config_Plugins c) with
  | Some e => Some (PluginsInvalid e)
  | None => validateRoutesConfig (Routes c)
  end end end.

(** ** ConfigManager

    [decode] stands for reading the YAML text with viper and decoding
    it with mapstructure; [None] is a read or decode error.  A file
    read is an input: [None] when the file cannot be read.  The
    reload hooks act on the rest of the process, of type [S]. *)
Variable decode : string -> option Config.

Section Manager.
Context {S : Type}.

Record ConfigManager := {
  currentConfig : option Config;
  viper : option string;
  reloadHooks : list (Config -> S -> S * bool)
}.

Definition parse (file : option string) : (Config + error)%type :=
  match file with
  | None => inr ReadFailed
  | Some text =>
      match decode text with
      | None => inr DecodeFailed
      | Some c =>
          match ValidateConfig c with
          | Some e => inr e
          | None => inl c
          end
      end
  end.

Definition TestConfig (file : option string) : option error :=
  match parse file with
  | inl _ => None
  | inr e => Some e
  end.

Definition LoadConfig (cm : ConfigManager) (file : option string)
  : ConfigManager * option error :=
  match file with
  | None => (cm, Some ReadFailed)
  | Some text =>
      let cm1 := {| currentConfig := currentConfig cm; viper := Some text;
                    reloadHooks := reloadHooks cm |} in
      match decode text with
      | None => (cm1, Some DecodeFailed)
      | Some c =>
          match ValidateConfig c with
          | Some e => (cm1, Some e)
          | None =>
              ({| currentConfig := Some c; viper := Some text;
                  reloadHooks := reloadHooks cm |}, None)
          end
      end
  end.

(** Hooks run in order; a hook returns [false] for a non-nil error
    and the loop stops there. *)
Fixpoint runHooks (i : nat) (hooks : list (Config -> S -> S * bool))
                  (c : Config) (s : S) : S * option error :=
  match hooks with
  | [] => (s, None)
  | h :: rest =>
      let '(s', ok) := h c s in
      if ok then runHooks (Datatypes.S i) rest c s' else (s', Some (HookFailed i))
  end.

(** [ReloadConfig] reads the file twice: once in [TestConfig] and
    once in [LoadConfig]. *)
Definition ReloadConfig (cm : ConfigManager) (s : S)
           (read1 read2 : option string)
  : ConfigManager * S * option error :=
  match TestConfig read1 with
  | Some e => (cm, s, Some (TestFailed e))
  | None =>
      match LoadConfig cm read2 with
      | (cm', Some e) => (cm', s, Some (LoadFailed e))
      | (cm', None) =>
          match currentConfig cm' with
          | Some c => let '(s', r) := runHooks 0 (reloadHooks cm') c s in (cm', s', r)
          | None => (cm', s, None)
          end
      end
  end.

Definition GetConfig (cm : ConfigManager) : option Config := currentConfig cm.
End Manager.
End Validate.

(** What the claim calls an invalid configuration file. *)
Definition invalid (url_Parse_ok : string -> bool) (decode : string -> option Config)
           (file : option string) : Prop :=
  match file with
  | None => True
  | Some text =>
      match decode text with
      | None => True
      | Some c => ValidateConfig url_Parse_ok c <> None
      end
  end.

End config.

(* ================================================================== *)
(** * ext: what the gateway calls but does not implement                *)
(* ================================================================== *)

Module ext.

(** Answer of the external auth service to one GET: a transport error,
    or a status code and the chunks that successive [Body.Read] calls
    deliver. *)
Inductive AuthReply :=
| Unreachable
| Reply (status : Z) (reads : list string).

Record Env := {
  now : Z;
  url_Parse_ok : string -> bool;
  regexp_Compile_ok : string -> bool;
  regexp_MatchString : string -> string -> bool;
  authService : string -> AuthReply;
  digest : string -> string -> string -> string -> option string;
  upstream_ok : string -> string -> bool
}.

(** The same environment with another answer of the auth service. *)
Definition with_auth (reply : AuthReply) (e : Env) : Env :=
  {| now := now e;
     url_Parse_ok := url_Parse_ok e;
     regexp_Compile_ok := regexp_Compile_ok e;
     regexp_MatchString := regexp_MatchString e;
     authService := fun _ => reply;
     digest := digest e;
     upstream_ok := upstream_ok e |}.

(** The same environment at another instant. *)
Definition at_time (t : Z) (e : Env) : Env :=
  {| now := t;
     url_Parse_ok := url_Parse_ok e;
     regexp_Compile_ok := regexp_Compile_ok e;
     regexp_MatchString := regexp_MatchString e;
     authService := authService e;
     digest := digest e;
     upstream_ok := upstream_ok e |}.

End ext.

(* ================================================================== *)
(** * ratelimit: per-key token buckets                                  *)
(* ================================================================== *)

Module ratelimit.

(** [rate] is a [float64] in the source.  The floating-point steps of
    [allow] (the conversion of the elapsed nanoseconds, a division by
    [1e9] and one product) are taken exactly, over the rationals. *)
Record TokenBucket := {
  rate : Q;
  capacity : Z;
  tokens : Z;
  lastRefill : Z
}.

Record RateLimitPlugin := {
  config : gmap string config.value;
  buckets : gmap string TokenBucket
}.

Definition New : RateLimitPlugin := {| config := ∅; buckets := ∅ |}.

Definition Init (cfg : gmap string config.value) (p : RateLimitPlugin)
  : RateLimitPlugin :=
  {| config := cfg; buckets := buckets p |}.

Definition min (a b : Z) : Z := if a <? b then a else b.

Definition tokensToAdd (now : Z) (b : TokenBucket) : Z :=
  let elapsed := (inject_Z (Go.int64 (now - lastRefill b)) / inject_Z Go.Second)%Q in
  Go.int64_of_float (elapsed * rate b)%Q.

Definition refill (now : Z) (b : TokenBucket) : TokenBucket :=
  let n := tokensToAdd now b in
  if 0 <? n
  then {| rate := rate b; capacity := capacity b;
          tokens := min (capacity b) (Go.int64 (tokens b + n));
          lastRefill := now |}
  else b.

Definition allow (now : Z) (b : TokenBucket) : bool * TokenBucket :=
  let b1 := refill now b in
  if 0 <? tokens b1
  then (true, {| rate := rate b1; capacity := capacity b1;
                 tokens := Go.int64 (tokens b1 - 1);
                 lastRefill := lastRefill b1 |})
  else (false, b1).

Definition getLimitKey (p : RateLimitPlugin) (c : gin.Context) : string :=
  match config p !! "ip_based" with
  | Some (config.VBool true) => gin.ClientIP (gin.Req c)
  | _ => gin.Path (gin.Req c)
  end.

Definition newBucket (now : Z) (p : RateLimitPlugin) : TokenBucket :=
  let requestsPerSecond :=
    match config p !! "requests_per_second" with
    | Some (config.VFloat64 rps) => rps
    | _ => 10%Q
    end in
  let burst :=
    match config p !! "burst" with
    | Some (config.VInt b) => b
    | _ => 20
    end in
  {| rate := requestsPerSecond; capacity := burst; tokens := burst;
     lastRefill := now |}.

Definition getBucket (now : Z) (key : string) (p : RateLimitPlugin)
  : TokenBucket * RateLimitPlugin :=
  match buckets p !! key with
  | Some b => (b, p)
  | None =>
      let b := newBucket now p in
      (b, {| config := config p; buckets := <[key := b]> (buckets p) |})
  end.

Definition Execute (now : Z) (p : RateLimitPlugin) (c : gin.Context)
  : RateLimitPlugin * gin.Context * option gin.error :=
  let key := getLimitKey p c in
  let '(b, p1) := getBucket now key p in
  let '(ok, b') := allow now b in
  let p2 := {| config := config p1; buckets := <[key := b']> (buckets p1) |} in
  if ok then (p2, c, None)
  else (p2, gin.Abort (gin.emit (gin.JSON 429 gin.H_error_rate_limited) c), None).

(** The janitor: drop every bucket whose [lastRefill] is more than five
    minutes old. *)
Definition cleanupBuckets (now : Z) (p : RateLimitPlugin) : RateLimitPlugin :=
  {| config := config p;
     buckets :=
       filter (fun kb => ¬ (5 * Go.Minute < Go.int64 (now - lastRefill kb.2)))
              (buckets p) |}.

(** ** Traffic on one plug-in instance *)
Inductive event :=
| Request (now : Z) (r : gin.Request)
| Janitor (now : Z).

Definition time_of (e : event) : Z :=
  match e with Request t _ => t | Janitor t => t end.

Definition admitted (c : gin.Context) : bool := negb (gin.IsAborted c).

(** Runs the events in order and returns the instants of the admitted
    requests for [key]. *)
Fixpoint run (key : string) (p : RateLimitPlugin) (evs : list event) : list Z :=
  match evs with
  | [] => []
  | Janitor t :: rest => run key (cleanupBuckets t p) rest
  | Request t r :: rest =>
      let c := gin.New r in
      let '(p', c', _) := Execute t p c in
      if String.eqb (getLimitKey p c) key && admitted c'
      then t :: run key p' rest
      else run key p' rest
  end.

(** The admitted instants among successive calls of [allow] on one
    bucket. *)
Fixpoint bucket_run (b : TokenBucket) (times : list Z) : list Z :=
  match times with
  | [] => []
  | t :: rest =>
      let '(ok, b') := allow t b in
      if ok then t :: bucket_run b' rest else bucket_run b' rest
  end.

(** A full bucket and the tokens of the whole period up to [horizon]
    fit in an [int64]. *)
Definition no_overflow (b : TokenBucket) (horizon : Z) : Prop :=
  horizon <= Go.MaxInt64
  /\ capacity b + horizon * Qnum (rate b) / (Go.Second * Zpos (Qden (rate b)))
     <= Go.MaxInt64.

Definition count_in_window (start : Z) (times : list Z) : Z :=
  Z.of_nat (length (filter (fun t => start <= t < start + Go.Second) times)).

(** ** One key's share of the traffic *)
Definition is_request (e : event) : Prop :=
  match e with Request _ _ => True | Janitor _ => False end.

(** The instants of the requests that [getLimitKey] maps to [key]. *)
Fixpoint times_for (key : string) (p : RateLimitPlugin)
                   (evs : list event) : list Z :=
  match evs with
  | [] => []
  | Request t r :: rest =>
      if String.eqb (getLimitKey p (gin.New r)) key
      then t :: times_for key p rest else times_for key p rest
  | Janitor _ :: rest => times_for key p rest
  end.

(** The bucket a run for [key] starts from: the stored one, or the one
    [getBucket] creates at the first request. *)
Definition bucket_for (key : string) (p : RateLimitPlugin) (ts : list Z)
  : TokenBucket :=
  match buckets p !! key with
  | Some bk => bk
  | None => newBucket (default 0 (head ts)) p
  end.

(** ** Invariant of a bucket *)
Section Invariant.
Variables (a : Z) (b : positive) (cap : Z) (T : Z).

(** The bucket belongs to the limiter of rate [a/b] and burst [cap] and
    is in a state [allow] can leave it in, seen at instant [t] of a
    period that ends at [T]. *)
Definition wf (t : Z) (bk : TokenBucket) : Prop :=
  rate bk = (a # b)%Q
  /\ capacity bk = cap
  /\ 0 <= tokens bk <= cap
  /\ 0 <= lastRefill bk <= t
  /\ t <= T.

(** The state before the next call: well formed at that instant, and
    either below capacity or created at that very instant. *)
Definition ready (bk : TokenBucket) (ts : list Z) : Prop :=
  match ts with
  | [] => True
  | t :: _ => wf t bk /\ (tokens bk <= cap - 1 \/ lastRefill bk = t)
  end.

End Invariant.

(** Tokens in the bucket plus the fraction accrued since the last
    refill, scaled by [D], the denominator of the rate in nanoseconds. *)
Definition potential (D a : Z) (t : Z) (bk : TokenBucket) : Z :=
  D * tokens bk + a * (t - lastRefill bk).

(** What one window can admit, on the same scale. *)
Definition budget (D a cap : Z) : Z := D * cap + a * (Go.Second - 1).

Definition one (ok : bool) : Z := if ok then 1 else 0.

End ratelimit.

(* ================================================================== *)
(** * circuitbreaker: sliding window and three-state breaker            *)
(* ================================================================== *)

Module circuitbreaker.

Record Bucket := {
  failures : Z;
  successes : Z;
  timestamp : Z
}.

Record Window := {
  Window_buckets : list Bucket;
  size : Z;
  windowSize : Z;
  current : Z
}.

Definition emptyBucket (now : Z) : Bucket :=
  {| failures := 0; successes := 0; timestamp := now |}.

Definition NewWindow (now : Z) (n : Z) (ws : Z) : Window :=
  {| Window_buckets := replicate (Z.to_nat n) (emptyBucket now);
     size := n; windowSize := ws; current := 0 |}.

(** [w.buckets[i]]; the index is in range in every window built by
    [NewWindow] and updated by [getCurrentBucket]. *)
Definition bucketAt (w : Window) (i : Z) : Bucket :=
  default (emptyBucket 0) (Window_buckets w !! Z.to_nat i).

(** Returns the slot of the current bucket, rotating to a fresh one
    when the current one is older than a tenth of the window. *)
Definition getCurrentBucket (now : Z) (w : Window) : Window * Z :=
  let cur := current w in
  let bucket := bucketAt w cur in
  if Z.quot (windowSize w) (size w) <=? Go.int64 (now - timestamp bucket)
  then
    let next := Go.int32 (Z.rem (Go.int32 (cur + 1)) (Go.int32 (size w))) in
    ({| Window_buckets := <[Z.to_nat next := emptyBucket now]> (Window_buckets w);
        size := size w; windowSize := windowSize w; current := next |}, next)
  else (w, cur).

Definition RecordFailure (now : Z) (w : Window) : Window :=
  let '(w1, i) := getCurrentBucket now w in
  let b := bucketAt w1 i in
  {| Window_buckets :=
       <[Z.to_nat i := {| failures := Go.int32 (failures b + 1);
                          successes := successes b;
                          timestamp := timestamp b |}]> (Window_buckets w1);
     size := size w1; windowSize := windowSize w1; current := current w1 |}.

Definition RecordSuccess (now : Z) (w : Window) : Window :=
  let '(w1, i) := getCurrentBucket now w in
  let b := bucketAt w1 i in
  {| Window_buckets :=
       <[Z.to_nat i := {| failures := failures b;
                          successes := Go.int32 (successes b + 1);
                          timestamp := timestamp b |}]> (Window_buckets w1);
     size := size w1; windowSize := windowSize w1; current := current w1 |}.

(** Totals over the buckets younger than the window. *)
Definition totals (now : Z) (w : Window) : Z * Z :=
  let windowStart := Go.int64 (now - windowSize w) in
  foldl (fun acc b =>
           if timestamp b <? windowStart then acc
           else (Go.int32 (acc.1 + failures b),
                 Go.int32 (acc.2 + Go.int32 (failures b + successes b))))
        (0, 0) (Window_buckets w).

(** The quotient of two converted [int32] counters, taken exactly. *)
Definition GetFailureRate (now : Z) (w : Window) : Q :=
  let '(totalFailures, totalRequests) := totals now w in
  if totalRequests =? 0 then 0%Q
  else (inject_Z totalFailures / inject_Z totalRequests)%Q.

Definition StateClosed : Z := 0.
Definition StateOpen : Z := 1.
Definition StateHalfOpen : Z := 2.

(** [cb.config] always holds these five [int] entries. *)
Record Settings := {
  failure_threshold : Z;
  recovery_timeout : Z;
  half_open_quota : Z;
  success_threshold : Z;
  window_size : Z
}.

Record CircuitBreaker := {
  state : Z;
  halfOpenQuota : Z;
  window : Window;
  settings : Settings;
  lastUsed : Z
}.

Definition with_state (st : Z) (cb : CircuitBreaker) : CircuitBreaker :=
  {| state := st; halfOpenQuota := halfOpenQuota cb; window := window cb;
     settings := settings cb; lastUsed := lastUsed cb |}.

Definition with_window (w : Window) (cb : CircuitBreaker) : CircuitBreaker :=
  {| state := state cb; halfOpenQuota := halfOpenQuota cb; window := w;
     settings := settings cb; lastUsed := lastUsed cb |}.

Definition with_quota (q : Z) (cb : CircuitBreaker) : CircuitBreaker :=
  {| state := state cb; halfOpenQuota := q; window := window cb;
     settings := settings cb; lastUsed := lastUsed cb |}.

(** [float64(threshold) / 100.0], exactly. *)
Definition percent (threshold : Z) : Q := (inject_Z threshold / 100)%Q.

(** Closed: has the failure rate reached the threshold? *)
Definition tripped (now : Z) (cb : CircuitBreaker) : bool :=
  Qle_bool (percent (failure_threshold (settings cb)))
           (GetFailureRate now (window cb)).

(** Open: age of the current bucket, after [getCurrentBucket] possibly
    rotated the window, against the recovery timeout. *)
Definition recovered (now : Z) (cb : CircuitBreaker) : bool :=
  let '(w1, i) := getCurrentBucket now (window cb) in
  Go.int64 (recovery_timeout (settings cb) * Go.Second)
  <=? Go.time_Sub now (timestamp (bucketAt w1 i)).

Definition allowRequest (now : Z) (cb : CircuitBreaker) : bool * CircuitBreaker :=
  if state cb =? StateClosed then
    if tripped now cb then (false, with_state StateOpen cb) else (true, cb)
  else if state cb =? StateOpen then
    let cb1 := with_window (getCurrentBucket now (window cb)).1 cb in
    if recovered now cb
    then (true, with_quota (Go.int32 (half_open_quota (settings cb)))
                           (with_state StateHalfOpen cb1))
    else (false, cb1)
  else if state cb =? StateHalfOpen then
    let quota := Go.int32 (halfOpenQuota cb - 1) in
    (0 <=? quota, with_quota quota cb)
  else (true, cb).

Definition recordFailure (now : Z) (cb : CircuitBreaker) : CircuitBreaker :=
  with_window (RecordFailure now (window cb)) cb.

Definition recordSuccess (now : Z) (cb : CircuitBreaker) : CircuitBreaker :=
  let cb1 := with_window (RecordSuccess now (window cb)) cb in
  if state cb1 =? StateHalfOpen then
    if Qle_bool (percent (success_threshold (settings cb1)))
                (GetFailureRate now (window cb1))
    then cb1
    else with_state StateClosed cb1
  else cb1.

(** The wrapper installed on the response writer: the first
    [WriteHeader] reports the outcome to the breaker. *)
Definition WriteHeader (now : Z) (statusWritten : bool) (code : Z)
           (cb : CircuitBreaker) : bool * CircuitBreaker :=
  if statusWritten then (true, cb)
  else (true, if 500 <=? code then recordFailure now cb else recordSuccess now cb).

Record CircuitBreakerPlugin := {
  config : gmap string config.value;
  circuitBreakers : gmap string CircuitBreaker
}.

Definition New : CircuitBreakerPlugin := {| config := ∅; circuitBreakers := ∅ |}.

Definition Init (cfg : gmap string config.value) (p : CircuitBreakerPlugin)
  : CircuitBreakerPlugin :=
  {| config := cfg; circuitBreakers := circuitBreakers p |}.

Definition int_or (p : CircuitBreakerPlugin) (key : string) (dflt : Z) : Z :=
  match config p !! key with
  | Some (config.VInt n) => n
  | _ => dflt
  end.

Definition newCircuitBreaker (now : Z) (p : CircuitBreakerPlugin) : CircuitBreaker :=
  let s := {| failure_threshold := int_or p "failure_threshold" 5;
              recovery_timeout := int_or p "recovery_timeout" 30;
              half_open_quota := int_or p "half_open_quota" 2;
              success_threshold := int_or p "success_threshold" 3;
              window_size := int_or p "window_size" 10 |} in
  {| state := StateClosed;
     halfOpenQuota := Go.int32 (half_open_quota s);
     window := NewWindow now 10 (Go.int64 (window_size s * Go.Second));
     settings := s;
     lastUsed := now |}.

Definition getCircuitBreaker (now : Z) (target : string) (p : CircuitBreakerPlugin)
  : CircuitBreaker :=
  match circuitBreakers p !! target with
  | Some cb =>
      {| state := state cb; halfOpenQuota := halfOpenQuota cb; window := window cb;
         settings := settings cb; lastUsed := now |}
  | None => newCircuitBreaker now p
  end.

Definition targetOf (c : gin.Context) : string :=
  let target := gin.GetString c "target" in
  if String.eqb target "" then gin.Path (gin.Req c) else target.

Definition Execute (now : Z) (p : CircuitBreakerPlugin) (c : gin.Context)
  : CircuitBreakerPlugin * gin.Context * option gin.error :=
  let target := targetOf c in
  let cb := getCircuitBreaker now target p in
  let '(ok, cb') := allowRequest now cb in
  let p' := {| config := config p;
               circuitBreakers := <[target := cb']> (circuitBreakers p) |} in
  if ok then (p', gin.emit (gin.WrapWriter "circuit_breaker") c, None)
  else (p', gin.Abort (gin.emit (gin.JSON 503 gin.H_error_unavailable) c), None).

Definition cleanupInactiveCircuitBreakers (now : Z) (p : CircuitBreakerPlugin)
  : CircuitBreakerPlugin :=
  {| config := config p;
     circuitBreakers :=
       filter (fun kb => ¬ (30 * Go.Minute < Go.time_Sub now (lastUsed kb.2)))
              (circuitBreakers p) |}.

End circuitbreaker.

(* ================================================================== *)
(** * cors                                                               *)
(* ================================================================== *)

Module cors.

Record CorsPlugin := { config : gmap string config.value }.

Definition New : CorsPlugin := {| config := ∅ |}.

Definition Init (cfg : gmap string config.value) (p : CorsPlugin) : CorsPlugin :=
  {| config := cfg |}.

Definition getAllowedOrigins (p : CorsPlugin) : option (list string) :=
  match config p !! "allowed_origins" with
  | Some (config.VList origins) => config.strings_of origins
  | _ => Some ["*"]
  end.

Definition joined (p : CorsPlugin) (key dflt : string) : option string :=
  match config p !! key with
  | Some (config.VList l) =>
      match config.strings_of l with
      | Some r => Some (Go.Join r ", ")
      | None => None
      end
  | _ => Some dflt
  end.

Definition getAllowedMethods (p : CorsPlugin) : option string :=
  joined p "allowed_methods" "GET, POST, PUT, DELETE, OPTIONS".

Definition getAllowedHeaders (p : CorsPlugin) : option string :=
  joined p "allowed_headers" "*".

Definition getExposedHeaders (p : CorsPlugin) : option string :=
  joined p "exposed_headers" "Content-Length".

Definition getMaxAge (p : CorsPlugin) : string :=
  match config p !! "max_age" with
  | Some (config.VString s) => s
  | _ => "43200"
  end.

Definition isOriginAllowed (p : CorsPlugin) (origin : string) : option bool :=
  if String.eqb origin "" then Some false
  else
    match getAllowedOrigins p with
    | None => None
    | Some allowedOrigins =>
        if (length allowedOrigins =? 0)%nat then Some false
        else if (length allowedOrigins =? 1)%nat
                && String.eqb (default "" (head allowedOrigins)) "*"
        then Some true
        else Some (existsb (fun allowedOrigin => String.eqb allowedOrigin origin)
                           allowedOrigins)
    end.

(** A handler step that may panic: the context reached so far, and
    whether the step completed. *)
Definition step := (gin.Context * bool)%type.

Definition header_from (key : string) (v : option string) (s : step) : step :=
  match s with
  | (c, false) => (c, false)
  | (c, true) =>
      match v with
      | Some value => (gin.emit (gin.SetHeader key value) c, true)
      | None => (c, false)
      end
  end.

Definition handlePreflight (p : CorsPlugin) (c : gin.Context) : step :=
  let origin := gin.GetHeader c "Origin" in
  match isOriginAllowed p origin with
  | None => (c, false)
  | Some false => (gin.emit (gin.Status 403) c, true)
  | Some true =>
      let s := (gin.emit (gin.SetHeader "Access-Control-Allow-Origin" origin) c, true) in
      let s := header_from "Access-Control-Allow-Methods" (getAllowedMethods p) s in
      let s := header_from "Access-Control-Allow-Headers" (getAllowedHeaders p) s in
      let s := header_from "Access-Control-Expose-Headers" (getExposedHeaders p) s in
      let s := header_from "Access-Control-Max-Age" (Some (getMaxAge p)) s in
      match s with
      | (c', true) => (gin.emit (gin.Status 200) c', true)
      | (c', false) => (c', false)
      end
  end.

Definition handleActualRequest (p : CorsPlugin) (c : gin.Context) : step :=
  let origin := gin.GetHeader c "Origin" in
  if String.eqb origin "" then (c, true)
  else
    match isOriginAllowed p origin with
    | None => (c, false)
    | Some false => (c, true)
    | Some true =>
        header_from "Access-Control-Expose-Headers" (getExposedHeaders p)
          (gin.emit (gin.SetHeader "Access-Control-Allow-Origin" origin) c, true)
    end.

Definition Execute (p : CorsPlugin) (c : gin.Context)
  : gin.Context * option gin.error :=
  if String.eqb (gin.Method (gin.Req c)) "OPTIONS" then
    match handlePreflight p c with
    | (c', true) => (gin.Abort c', None)
    | (c', false) => (c', Some gin.Panic)
    end
  else
    match handleActualRequest p c with
    | (c', true) => (c', None)
    | (c', false) => (c', Some gin.Panic)
    end.

End cors.

(* ================================================================== *)
(** * interface_auth: white list and external validator                 *)
(* ================================================================== *)

Module interface_auth.

Definition ErrTokenMissingOrInvalid : gin.payload :=
  gin.ErrorResponse 401 "Token missing or invalid".
Definition ErrForbiddenAccessDenied : gin.payload :=
  gin.ErrorResponse 403 "Forbidden: Access denied".
Definition ErrAuthServiceCallFailed : gin.payload :=
  gin.ErrorResponse 500 "Auth service call failed".
Definition ErrNoResponseBody : gin.payload :=
  gin.ErrorResponse 500 "Internal error: no response body".
Definition ErrUnknownResponseType : gin.payload :=
  gin.ErrorResponse 401 "response Unknown Type".

Definition code_of (p : gin.payload) : Z :=
  match p with gin.ErrorResponse code _ => code | _ => 0 end.

Record Config := {
  WhiteInterfaces : list string;
  Consumers_Host : string;
  Consumers_AuthAPI : string
}.

Record Plugin := {
  config : Config;
  whiteListRegex : list string;
  whiteListExact : gset string
}.

Definition New : Plugin :=
  {| config := {| WhiteInterfaces := []; Consumers_Host := ""; Consumers_AuthAPI := "" |};
     whiteListRegex := []; whiteListExact := ∅ |}.

Definition regexPattern (pattern : string) : string :=
  "^" ++ Go.ReplaceAllByte pattern "*" ".*" ++ "$".

(** [None]: some pattern does not compile. *)
Fixpoint compile (env : ext.Env) (patterns : list string)
                 (regex : list string) (exact : gset string)
  : option (list string * gset string) :=
  match patterns with
  | [] => Some (regex, exact)
  | pattern :: rest =>
      if Go.ContainsByte pattern "*" then
        if ext.regexp_Compile_ok env (regexPattern pattern)
        then compile env rest (regex ++ [regexPattern pattern]) exact
        else None
      else compile env rest regex ({[pattern]} ∪ exact)
  end.

Definition compileWhiteList (env : ext.Env) (cfg : Config) : option Plugin :=
  match compile env (WhiteInterfaces cfg) [] ∅ with
  | Some (regex, exact) =>
      Some {| config := cfg; whiteListRegex := regex; whiteListExact := exact |}
  | None => None
  end.

(** [Init], after the configuration bag has been decoded into
    [Config]. *)
Definition Init (env : ext.Env) (cfg : Config) : option Plugin :=
  compileWhiteList env cfg.

Definition isWhiteListed (env : ext.Env) (p : Plugin) (path : string) : bool :=
  bool_decide (path ∈ whiteListExact p)
  || existsb (fun re => ext.regexp_MatchString env re path) (whiteListRegex p).

Definition getTokenFromAuthorizationHeader (c : gin.Context) : string :=
  let authHeader := gin.GetHeader c "Authorization" in
  if String.eqb authHeader "" then ""
  else if Go.HasPrefix authHeader "Bearer " then Go.TrimPrefix authHeader "Bearer "
  else "".

(** One [Read] into a buffer of 1024 bytes: at most 1024 bytes of the
    first chunk the transport delivers. *)
Definition readOnce (reads : list string) : string :=
  match reads with
  | [] => ""
  | chunk :: _ => Go.take_bytes 1024 chunk
  end.

Definition fail (p : gin.payload) (e : gin.error) (c : gin.Context)
  : gin.Context * option gin.error :=
  (gin.Abort (gin.emit (gin.JSON (code_of p) p) c), Some e).

Definition authURL (p : Plugin) (token : string) : string :=
  "http://" ++ Consumers_Host (config p) ++ Consumers_AuthAPI (config p)
            ++ "/" ++ token.

Definition callAuthService (env : ext.Env) (p : Plugin) (c : gin.Context)
           (token : string) : gin.Context * option gin.error :=
  let url := authURL p token in
  if negb (ext.url_Parse_ok env url)
  then fail ErrAuthServiceCallFailed gin.ErrAuthNewRequest c
  else
    let c := gin.emit (gin.AuthRequest url) c in
    match ext.authService env url with
    | ext.Unreachable => fail ErrAuthServiceCallFailed gin.ErrAuthCall c
    | ext.Reply status reads =>
        if negb (status =? 200)
        then fail (gin.ErrorResponse status "Unauthorized: Invalid response")
                  (gin.ErrAuthStatus status) c
        else
          let body := readOnce reads in
          if (String.length body =? 0)%nat
          then fail ErrNoResponseBody gin.ErrAuthEmptyBody c
          else
            let responseBody := Go.TrimSpace body in
            if String.eqb responseBody "true"
            then fail ErrForbiddenAccessDenied gin.ErrAuthDenied c
            else if String.eqb responseBody "false"
            then (c, None)
            else fail ErrUnknownResponseType (gin.ErrAuthUnknown responseBody) c
    end.

Definition Execute (env : ext.Env) (p : Plugin) (c : gin.Context)
  : gin.Context * option gin.error :=
  let path := gin.Path (gin.Req c) in
  if isWhiteListed env p path
  then (gin.Set_ "plugin_result_interface_auth" "whitelist" c, None)
  else
    let token := getTokenFromAuthorizationHeader c in
    if String.eqb token ""
    then fail ErrTokenMissingOrInvalid gin.ErrTokenMissing c
    else
      match callAuthService env p c token with
      | (c', Some e) => (c', Some e)
      | (c', None) => (gin.Set_ "plugin_result_interface_auth" "success" c', None)
      end.

End interface_auth.

(* ================================================================== *)
(** * consistency: signature, timestamp and nonce checks                *)
(* ================================================================== *)

Module consistency.

Record Config := {
  Enabled : bool;
  Algorithm : string;
  Secret : string;
  PublicKey : string;
  Fields : list string;
  SignatureField : string;
  CheckResponse : bool;
  TimestampValidity : Z
}.

Record ConsistencyPlugin := {
  config : Config;
  usedNonces : gmap string Z
}.

Definition New : ConsistencyPlugin :=
  {| config := {| Enabled := true; Algorithm := "hmac-sha256"; Secret := "";
                  PublicKey := ""; Fields := ["timestamp"; "nonce"];
                  SignatureField := "X-Signature"; CheckResponse := false;
                  TimestampValidity := 300 |};
     usedNonces := ∅ |}.

(** [Init]: each key overrides the default only when its value has the
    asserted dynamic type.  [None] is the panic of [field.(string)]. *)
Definition Init (cfg : option (gmap string config.value)) (p : ConsistencyPlugin)
  : option ConsistencyPlugin :=
  match cfg with
  | None => Some p
  | Some m =>
      let c := config p in
      let fields :=
        match m !! "fields" with
        | Some (config.VList l) => config.strings_of l
        | _ => Some (Fields c)
        end in
      match fields with
      | None => None
      | Some fs =>
          Some {| config :=
                    {| Enabled := match m !! "enabled" with
                                  | Some (config.VBool b) => b | _ => Enabled c end;
                       Algorithm := match m !! "algorithm" with
                                    | Some (config.VString s) => s | _ => Algorithm c end;
                       Secret := match m !! "secret" with
                                 | Some (config.VString s) => s | _ => Secret c end;
                       PublicKey := match m !! "public_key" with
                                    | Some (config.VString s) => s | _ => PublicKey c end;
                       Fields := fs;
                       SignatureField := match m !! "signature_field" with
                                         | Some (config.VString s) => s
                                         | _ => SignatureField c end;
                       CheckResponse := match m !! "check_response" with
                                        | Some (config.VBool b) => b
                                        | _ => CheckResponse c end;
                       TimestampValidity := match m !! "timestamp_validity" with
                                            | Some (config.VInt64 n) => n
                                            | _ => TimestampValidity c end |};
                  usedNonces := usedNonces p |}
      end
  end.

(** [time.Now().Unix()] *)
Definition Unix (now : Z) : Z := now / Go.Second.

Definition validateTimestamp (now : Z) (p : ConsistencyPlugin) (timestampStr : string)
  : option gin.error :=
  match Go.ParseInt timestampStr with
  | None => Some gin.ErrTimestampFormat
  | Some timestamp =>
      if Go.float64_of_int (TimestampValidity (config p))
         <? Z.abs (Go.float64_of_int (Go.int64 (Unix now - timestamp)))
      then Some gin.ErrTimestampExpired
      else None
  end.

Definition cleanupExpiredNonces (now : Z) (p : ConsistencyPlugin) : ConsistencyPlugin :=
  {| config := config p;
     usedNonces :=
       filter (fun kt => ¬ (Go.int64 (TimestampValidity (config p) * Go.Second)
                            < Go.time_Sub now kt.2))
              (usedNonces p) |}.

Definition validateNonce (now : Z) (p : ConsistencyPlugin) (nonce : string)
  : bool * ConsistencyPlugin :=
  match usedNonces p !! nonce with
  | Some _ => (false, p)
  | None => (true, cleanupExpiredNonces now p)
  end.

(** The header values of the configured fields, in order; the first
    missing one is the error. *)
Fixpoint collect (c : gin.Context) (fields : list string) : list string + gin.error :=
  match fields with
  | [] => inl []
  | field :: rest =>
      let value := gin.GetHeader c field in
      if String.eqb value "" then inr (gin.ErrMissingField field)
      else match collect c rest with
           | inl values => inl (value :: values)
           | inr e => inr e
           end
  end.

Definition supported : list string :=
  ["hmac-sha256"; "md5"; "rsa"; "ecdsa"; "ed25519"].

(** The digests themselves come from the crypto packages ([ext.digest]). *)
Definition calculateSignature (env : ext.Env) (p : ConsistencyPlugin)
           (values : list string) : string + gin.error :=
  let content := Go.Join values "&" in
  let cfg := config p in
  if bool_decide (Algorithm cfg ∈ supported) then
    match ext.digest env (Algorithm cfg) (Secret cfg) (PublicKey cfg) content with
    | Some sig => inl sig
    | None => inr (gin.ErrSignature (Algorithm cfg))
    end
  else inr (gin.ErrSignature "unsupported algorithm").

Definition checkRequest (env : ext.Env) (p : ConsistencyPlugin) (c : gin.Context)
  : ConsistencyPlugin * option gin.error :=
  let now := ext.now env in
  let signature := gin.GetHeader c (SignatureField (config p)) in
  if String.eqb signature "" then (p, Some gin.ErrMissingSignature) else
  let timestamp := gin.GetHeader c "timestamp" in
  if String.eqb timestamp "" then (p, Some gin.ErrMissingTimestamp) else
  match validateTimestamp now p timestamp with
  | Some e => (p, Some e)
  | None =>
  let nonce := gin.GetHeader c "nonce" in
  if String.eqb nonce "" then (p, Some gin.ErrMissingNonce) else
  let '(fresh, p1) := validateNonce now p nonce in
  if negb fresh then (p1, Some gin.ErrNonceUsed) else
  match collect c (Fields (config p1)) with
  | inr e => (p1, Some e)
  | inl values =>
  match calculateSignature env p1 values with
  | inr e => (p1, Some e)
  | inl calculatedSignature =>
  if negb (String.eqb calculatedSignature signature)
  then (p1, Some gin.ErrInvalidSignature)
  else ({| config := config p1; usedNonces := <[nonce := now]> (usedNonces p1) |}, None)
  end end end.

Definition Execute (env : ext.Env) (p : ConsistencyPlugin) (c : gin.Context)
  : ConsistencyPlugin * gin.Context * option gin.error :=
  if negb (Enabled (config p)) then (p, c, None)
  else
    match checkRequest env p c with
    | (p', Some e) =>
        (p', gin.Abort (gin.emit (gin.JSON 400 (gin.H_error e)) c), Some e)
    | (p', None) =>
        if CheckResponse (config p')
        then (p', gin.emit (gin.WrapWriter "consistency") c, None)
        else (p', c, None)
    end.

End consistency.

(* ================================================================== *)
(** * plugin: instances, chains and the plug-in manager                 *)
(* ================================================================== *)

Module plugin.

(** The fingerprint of [GenerateCacheKey]: the MD5 digest of the JSON
    rendering of these eight strings, modelled by the strings
    themselves.  An absent header and an empty one give the same key. *)
Definition CacheKey : Type :=
  (string * string * string * string * string * string * string * string)%type.

Record PluginResult := {
  Data : gmap string string;
  Expire : Z
}.

Record PluginCache := {
  cache : gmap CacheKey PluginResult;
  ttl : Z
}.

Definition NewPluginCache (ttl : Z) : PluginCache := {| cache := ∅; ttl := ttl |}.

Definition PluginCache_Get (now : Z) (pc : PluginCache) (key : CacheKey)
  : option (gmap string string) :=
  match cache pc !! key with
  | None => None
  | Some result => if Expire result <? now then None else Some (Data result)
  end.

Definition PluginCache_Set (now : Z) (key : CacheKey) (data : gmap string string)
           (pc : PluginCache) : PluginCache :=
  {| cache := <[key := {| Data := data; Expire := now + ttl pc |}]> (cache pc);
     ttl := ttl pc |}.

Definition GenerateCacheKey (c : gin.Context) (pluginName : string) : CacheKey :=
  let r := gin.Req c in
  (pluginName, gin.Path r, gin.Method r, gin.Host r, gin.RawQuery r,
   gin.GetHeader c "Authorization", gin.GetHeader c "Content-Type",
   gin.GetHeader c "User-Agent").

(** The plug-in instances created by [registerPlugins], with their
    private state, and the result cache of the manager. *)
Record World := {
  rate_limit : ratelimit.RateLimitPlugin;
  circuit_breaker : circuitbreaker.CircuitBreakerPlugin;
  cors_ : cors.CorsPlugin;
  consistency_ : consistency.ConsistencyPlugin;
  interface_auth_ : interface_auth.Plugin;
  pluginCache : PluginCache
}.

Definition initial : World :=
  {| rate_limit := ratelimit.New;
     circuit_breaker := circuitbreaker.New;
     cors_ := cors.New;
     consistency_ := consistency.New;
     interface_auth_ := interface_auth.New;
     pluginCache := NewPluginCache (10 * Go.Second) |}.

(** [core.Plugin], the part of the interface the request path calls. *)
Record Plugin := {
  Name : string;
  Order : Z;
  Execute : ext.Env -> World -> gin.Context -> World * gin.Context * option gin.error
}.

Definition RateLimit : Plugin :=
  {| Name := "rate_limit"; Order := 10;
     Execute env w c :=
       let '(p, c', r) := ratelimit.Execute (ext.now env) (rate_limit w) c in
       ({| rate_limit := p; circuit_breaker := circuit_breaker w; cors_ := cors_ w;
           consistency_ := consistency_ w; interface_auth_ := interface_auth_ w;
           pluginCache := pluginCache w |}, c', r) |}.

Definition CircuitBreaker : Plugin :=
  {| Name := "circuit_breaker"; Order := 5;
     Execute env w c :=
       let '(p, c', r) := circuitbreaker.Execute (ext.now env) (circuit_breaker w) c in
       ({| rate_limit := rate_limit w; circuit_breaker := p; cors_ := cors_ w;
           consistency_ := consistency_ w; interface_auth_ := interface_auth_ w;
           pluginCache := pluginCache w |}, c', r) |}.

Definition Cors : Plugin :=
  {| Name := "cors"; Order := 20;
     Execute env w c :=
       let '(c', r) := cors.Execute (cors_ w) c in (w, c', r) |}.

Definition Consistency : Plugin :=
  {| Name := "consistency"; Order := 15;
     Execute env w c :=
       let '(p, c', r) := consistency.Execute env (consistency_ w) c in
       ({| rate_limit := rate_limit w; circuit_breaker := circuit_breaker w;
           cors_ := cors_ w; consistency_ := p;
           interface_auth_ := interface_auth_ w;
           pluginCache := pluginCache w |}, c', r) |}.

Definition InterfaceAuth : Plugin :=
  {| Name := "interface_auth"; Order := 900;
     Execute env w c :=
       let '(c', r) := interface_auth.Execute env (interface_auth_ w) c in (w, c', r) |}.

Definition with_cache (pc : PluginCache) (w : World) : World :=
  {| rate_limit := rate_limit w; circuit_breaker := circuit_breaker w;
     cors_ := cors_ w; consistency_ := consistency_ w;
     interface_auth_ := interface_auth_ w; pluginCache := pc |}.

(** ** package chain *)

Record Chain := {
  plugins : list Plugin;
  cached : bool
}.

Definition NewChain : Chain := {| plugins := []; cached := false |}.
Definition NewChainWithCache : Chain := {| plugins := []; cached := true |}.

Definition AddPlugin (p : Plugin) (ch : Chain) : Chain :=
  {| plugins := Go.Slice (fun a b => Order a <? Order b) (plugins ch ++ [p]);
     cached := cached ch |}.

Definition restore (data : gmap string string) (c : gin.Context) : gin.Context :=
  {| gin.Req := gin.Req c; gin.Keys := data ∪ gin.Keys c;
     gin.aborted := gin.aborted c; gin.calls := gin.calls c |}.

(** The loop of [Chain.Execute] over the remaining plug-ins: the only
    exit before the end is a non-nil error. *)
Fixpoint run (cached : bool) (env : ext.Env) (ps : list Plugin)
             (w : World) (c : gin.Context)
  : World * gin.Context * option gin.error :=
  match ps with
  | [] => (w, c, None)
  | p :: rest =>
      let cacheKey := GenerateCacheKey c (Name p) in
      match (if cached then PluginCache_Get (ext.now env) (pluginCache w) cacheKey
             else None) with
      | Some data => run cached env rest w (restore data c)
      | None =>
          match Execute p env w c with
          | (w1, c1, Some e) => (w1, c1, Some e)
          | (w1, c1, None) =>
              let resultKey := ("plugin_result_" ++ Name p)%string in
              let w2 :=
                match (if cached then gin.Get c1 resultKey else None) with
                | Some val =>
                    with_cache (PluginCache_Set (ext.now env) cacheKey
                                  {[resultKey := val]} (pluginCache w1)) w1
                | None => w1
                end in
              run cached env rest w2 c1
          end
      end
  end.

Definition Chain_Execute (env : ext.Env) (ch : Chain) (w : World) (c : gin.Context)
  : World * gin.Context * option gin.error :=
  run (cached ch) env (plugins ch) w c.

(** ** Manager *)

Record Manager := {
  availablePlugins : gmap string Plugin;
  routeChains : gmap string Chain;
  registry : gmap string Plugin
}.

Definition NewManager : Manager :=
  {| availablePlugins := ∅; routeChains := ∅; registry := ∅ |}.

Definition Register (p : Plugin) (m : Manager) : option Manager :=
  match registry m !! Name p with
  | Some _ => None
  | None => Some {| availablePlugins := availablePlugins m;
                    routeChains := routeChains m;
                    registry := <[Name p := p]> (registry m) |}
  end.

(** The chain of the named plug-ins; [None] when one is not available. *)
Fixpoint build (m : Manager) (pluginNames : list string) (ch : Chain) : option Chain :=
  match pluginNames with
  | [] => Some ch
  | pluginName :: rest =>
      match availablePlugins m !! pluginName with
      | Some p => build m rest (AddPlugin p ch)
      | None => None
      end
  end.

Definition LoadRoutePlugins (routeName : string) (pluginNames : list string)
           (m : Manager) : option Manager :=
  match build m pluginNames NewChainWithCache with
  | Some ch => Some {| availablePlugins := availablePlugins m;
                       routeChains := <[routeName := ch]> (routeChains m);
                       registry := registry m |}
  | None => None
  end.

Definition builtin : list Plugin :=
  [RateLimit; CircuitBreaker; Cors; Consistency; InterfaceAuth].

(** Every chain of the manager is made of the five plug-ins above. *)
Definition only_builtin (m : Manager) : Prop :=
  forall routeName ch, routeChains m !! routeName = Some ch ->
                       Forall (fun p => p ∈ builtin) (plugins ch).

Definition Manager_Execute (env : ext.Env) (m : Manager) (w : World)
           (c : gin.Context) (routeName : string)
  : World * gin.Context * option gin.error :=
  match routeChains m !! routeName with
  | Some ch => Chain_Execute env ch w c
  | None => (w, c, None)
  end.

End plugin.

(* ================================================================== *)
(** * router: trie, path cache and route manager                        *)
(* ================================================================== *)

Module router.

Record ABTestConfig := {
  ABTest_Enabled : bool;
  GroupA : Q;
  GroupB : Q;
  GroupATarget : string;
  GroupBTarget : string
}.

Record RouteMatch := {
  Type_ : string;
  Path : string;
  Regex : string;
  Host : string;
  Method : string;
  Headers : gmap string string;
  QueryParams : gmap string string;
  Priority : Z;
  ABTest : option ABTestConfig
}.

Record TargetService := {
  URL : string;
  Timeout : Z;
  Retries : Z
}.

Record RouteDefinition := {
  Name : string;
  Match : RouteMatch;
  Target : TargetService;
  Plugins : list string
}.

(** ** trie.go *)

Inductive TrieNode :=
| Node (children : gmap string TrieNode) (route : option RouteDefinition)
       (isEnd : bool).

Definition emptyNode : TrieNode := Node ∅ None false.
Definition NewTrieRouter : TrieNode := emptyNode.

Definition parts_of (path : string) : list string :=
  Go.SplitByte (Go.TrimByte path "/") "/".

Fixpoint insertParts (parts : list string) (route : RouteDefinition)
                     (node : TrieNode) : TrieNode :=
  match node with
  | Node children r e =>
      match parts with
      | [] => Node children (Some route) true
      | part :: rest =>
          let child := default emptyNode (children !! part) in
          Node (<[part := insertParts rest route child]> children) r e
      end
  end.

Definition Insert (path : string) (route : RouteDefinition) (tr : TrieNode)
  : TrieNode :=
  insertParts (parts_of path) route tr.

Fixpoint matchParts (parts : list string) (node : TrieNode)
  : option RouteDefinition :=
  match node with
  | Node children r e =>
      match parts with
      | [] => if e then r else None
      | part :: rest =>
          match children !! part with
          | Some child => matchParts rest child
          | None => None
          end
      end
  end.

Definition TrieRouter_Match (tr : TrieNode) (path : string)
  : option RouteDefinition :=
  matchParts (parts_of path) tr.

(** ** cache.go

    When the cache is full one entry is deleted, whichever the map
    iteration yields first; the model deletes the first key of the
    map's listing. *)
Record RouteCache := {
  cache : gmap string RouteDefinition;
  cache_size : Z
}.

Definition NewRouteCache (n : Z) : RouteCache := {| cache := ∅; cache_size := n |}.

Definition RouteCache_Get (rc : RouteCache) (key : string) : option RouteDefinition :=
  cache rc !! key.

Definition RouteCache_Set (key : string) (route : RouteDefinition) (rc : RouteCache)
  : RouteCache :=
  let evicted :=
    if cache_size rc <=? Z.of_nat (size (cache rc))
    then match map_to_list (cache rc) with
         | (k, _) :: _ => delete k (cache rc)
         | [] => cache rc
         end
    else cache rc in
  {| cache := <[key := route]> evicted; cache_size := cache_size rc |}.

(** ** manager.go *)

Record Manager := {
  config : option (list RouteDefinition);
  trieRouter : option TrieNode;
  routeCache : option RouteCache
}.

Definition convert (r : config.RouteConfig) : RouteDefinition :=
  let m := config.Match r in
  {| Name := config.RouteConfig_Name r;
     Match := {| Type_ := config.Type_ m; Path := config.RouteMatch_Path m;
                 Regex := ""; Host := config.RouteMatch_Host m;
                 Method := config.RouteMatch_Method m;
                 Headers := config.Headers m;
                 QueryParams := config.QueryParams m;
                 Priority := config.Priority m; ABTest := None |};
     Target := {| URL := config.URL (config.Target r);
                  Timeout := config.Timeout (config.Target r);
                  Retries := config.Retries (config.Target r) |};
     Plugins := config.Plugins r |}.

(** [loadConfigFromManager]: the routes of the configuration manager,
    converted; it builds neither trie nor cache. *)
Definition loadConfigFromManager (cfg : config.Config) (m : Manager) : Manager :=
  {| config := Some (map convert (config.Routes cfg));
     trieRouter := trieRouter m; routeCache := routeCache m |}.

Definition NewManagerFromConfig (cfg : config.Config) : Manager :=
  loadConfigFromManager cfg {| config := None; trieRouter := None; routeCache := None |}.

(** [loadConfig]: the routes decoded from the router's own file, the
    trie over every route's path, and an empty cache. *)
Definition loadConfig (routes : list RouteDefinition) : Manager :=
  {| config := Some routes;
     trieRouter := Some (foldl (fun tr r => Insert (Path (Match r)) r tr)
                               NewTrieRouter routes);
     routeCache := Some (NewRouteCache 1024) |}.

Definition getRegex (env : ext.Env) (pattern : string) : option string :=
  if ext.regexp_Compile_ok env pattern then Some pattern else None.

Definition matchWildcard (env : ext.Env) (path pattern : string) : bool :=
  let regexPattern := ("^" ++ Go.ReplaceAllByte pattern "*" ".*" ++ "$")%string in
  match getRegex env regexPattern with
  | Some regex => ext.regexp_MatchString env regex path
  | None => false
  end.

Definition matchPath (env : ext.Env) (path : string) (rule : RouteMatch) : bool :=
  if String.eqb (Type_ rule) "exact" then String.eqb path (Path rule)
  else if String.eqb (Type_ rule) "prefix" then Go.HasPrefix path (Path rule)
  else if String.eqb (Type_ rule) "regex" then
    match getRegex env (Regex rule) with
    | Some regex => ext.regexp_MatchString env regex path
    | None => false
    end
  else if String.eqb (Type_ rule) "wildcard" then matchWildcard env path (Path rule)
  else false.

Definition all_equal (get : string -> string) (want : gmap string string) : bool :=
  forallb (fun kv => String.eqb (get kv.1) kv.2) (map_to_list want).

Definition matchRule (env : ext.Env) (c : gin.Context) (rule : RouteMatch) : bool :=
  if negb (matchPath env (gin.Path (gin.Req c)) rule) then false
  else if negb (String.eqb (Host rule) "")
          && negb (String.eqb (gin.Host (gin.Req c)) (Host rule)) then false
  else if negb (String.eqb (Method rule) "")
          && negb (String.eqb (gin.Method (gin.Req c)) (Method rule)) then false
  else if negb (all_equal (gin.GetHeader c) (Headers rule)) then false
  else if negb (all_equal (gin.GetQuery c) (QueryParams rule)) then false
  else true.

Definition hashString (s : string) : Z :=
  foldl (fun h ch => (h * 31 + Z.of_N (Go.byte ch)) mod 2 ^ 32) 0
        (list_ascii_of_string s).

Definition handleABTest (c : gin.Context) (route : RouteDefinition) (ab : ABTestConfig)
  : TargetService :=
  let bucketKey := gin.GetHeader c "X-Request-ID" in
  let bucketKey := if String.eqb bucketKey "" then gin.GetHeader c "X-User-ID"
                   else bucketKey in
  let bucketKey := if String.eqb bucketKey "" then gin.ClientIP (gin.Req c)
                   else bucketKey in
  let percentage := (inject_Z (hashString bucketKey mod 100) / 100)%Q in
  if Qle_bool (GroupA ab) percentage then
    if Qle_bool (GroupA ab + GroupB ab)%Q percentage then Target route
    else {| URL := GroupBTarget ab; Timeout := 0; Retries := 0 |}
  else {| URL := GroupATarget ab; Timeout := 0; Retries := 0 |}.

(** The fall-back scan: the first route of strictly greatest priority
    above [-1] among those whose rule matches. *)
Fixpoint scan (env : ext.Env) (c : gin.Context) (routes : list RouteDefinition)
              (bestMatch : option RouteDefinition) (highestPriority : Z)
  : option RouteDefinition :=
  match routes with
  | [] => bestMatch
  | route :: rest =>
      if negb (matchRule env c (Match route)) then scan env c rest bestMatch highestPriority
      else if highestPriority <? Priority (Match route)
      then scan env c rest (Some route) (Priority (Match route))
      else scan env c rest bestMatch highestPriority
  end.

(** [bestMatch = &route] takes the address of the loop variable.  With
    one variable per iteration (language version 1.22 and later in
    go.mod) the pointer keeps the route it was taken at; with one
    variable per loop it reads, after the loop, the last route of the
    list.  go.mod is not part of the sources, hence the switch. *)
Definition linear (per_iteration : bool) (env : ext.Env) (c : gin.Context)
           (routes : list RouteDefinition) : option RouteDefinition :=
  match scan env c routes None (-1) with
  | None => None
  | Some best => if per_iteration then Some best else last routes
  end.

Definition fromCache (env : ext.Env) (m : Manager) (c : gin.Context)
  : option RouteDefinition :=
  match routeCache m with
  | Some rc =>
      match RouteCache_Get rc (gin.Path (gin.Req c)) with
      | Some route => if matchRule env c (Match route) then Some route else None
      | None => None
      end
  | None => None
  end.

Definition fromTrie (env : ext.Env) (m : Manager) (c : gin.Context)
  : option RouteDefinition :=
  match trieRouter m with
  | Some tr =>
      match TrieRouter_Match tr (gin.Path (gin.Req c)) with
      | Some route => if matchRule env c (Match route) then Some route else None
      | None => None
      end
  | None => None
  end.

Definition remember (path : string) (route : RouteDefinition) (m : Manager) : Manager :=
  match routeCache m with
  | Some rc => {| config := config m; trieRouter := trieRouter m;
                  routeCache := Some (RouteCache_Set path route rc) |}
  | None => m
  end.

(** The route [MatchRoute] settles on, and the manager with its cache
    updated: cache, then trie, then the scan. *)
Definition selectRoute (per_iteration : bool) (env : ext.Env) (m : Manager)
           (c : gin.Context) : Manager * option RouteDefinition :=
  match config m with
  | None => (m, None)
  | Some routes =>
      let path := gin.Path (gin.Req c) in
      match fromCache env m c with
      | Some route => (m, Some route)
      | None =>
          match fromTrie env m c with
          | Some route => (remember path route m, Some route)
          | None =>
              match linear per_iteration env c routes with
              | Some route => (remember path route m, Some route)
              | None => (m, None)
              end
          end
      end
  end.

Definition MatchRoute (per_iteration : bool) (env : ext.Env) (pm : plugin.Manager)
           (m : Manager) (w : plugin.World) (c : gin.Context)
  : Manager * plugin.World * gin.Context * (TargetService + gin.error) :=
  match config m with
  | None => (m, w, c, inr gin.ErrRoutesNotLoaded)
  | Some _ =>
      match selectRoute per_iteration env m c with
      | (m', None) => (m', w, c, inr gin.ErrNoRoute)
      | (m', Some route) =>
          match plugin.Manager_Execute env pm w c (Name route) with
          | (w', c', Some e) => (m', w', c', inr e)
          | (w', c', None) =>
              match ABTest (Match route) with
              | Some ab =>
                  if ABTest_Enabled ab then (m', w', c', inl (handleABTest c' route ab))
                  else (m', w', c', inl (Target route))
              | None => (m', w', c', inl (Target route))
              end
          end
      end
  end.

End router.

(* ================================================================== *)
(** * main: the dispatcher                                              *)
(* ================================================================== *)

Module main.

(** [routes] of [registerRoutes]: a copy of the configured routes,
    sorted by descending priority. *)
Definition by_priority (a b : config.RouteConfig) : bool :=
  config.Priority (config.Match b) <? config.Priority (config.Match a).

Definition sortedRoutes (cfg : config.Config) : list config.RouteConfig :=
  Go.Slice by_priority (config.Routes cfg).

Definition matchRoute (path : string) (m : config.RouteMatch) : bool :=
  if String.eqb (config.Type_ m) "exact" then String.eqb path (config.RouteMatch_Path m)
  else if String.eqb (config.Type_ m) "prefix"
  then Go.HasPrefix path (config.RouteMatch_Path m)
  else String.eqb path (config.RouteMatch_Path m).

(** The first route of the sorted list whose path rule matches. *)
Definition findRoute (routes : list config.RouteConfig) (path : string)
  : option config.RouteConfig :=
  List.find (fun route => matchRoute path (config.Match route)) routes.

Definition proxyPath (route : config.RouteConfig) (path : string) : string :=
  if String.eqb (config.Type_ (config.Match route)) "prefix"
     && negb (String.eqb (config.RouteMatch_Path (config.Match route)) "/")
  then
    let p := Go.TrimPrefix path (config.RouteMatch_Path (config.Match route)) in
    if Go.HasPrefix p "/" then p else ("/" ++ p)%string
  else path.

(** The internal response of a route whose target starts with
    [internal://]. *)
Definition internalResponse (route : config.RouteConfig) (c : gin.Context)
  : gin.Context :=
  match config.Response route with
  | Some resp =>
      let contentType :=
        if negb (String.eqb (config.ContentType resp) "")
        then config.ContentType resp else "text/plain" in
      gin.emit (gin.String_ (config.ResponseConfig_Status resp) (config.Content resp))
               (gin.emit (gin.SetHeader "Content-Type" contentType) c)
  | None => gin.emit (gin.String_ 200 "gateway-go running") c
  end.

Definition forward (env : ext.Env) (route : config.RouteConfig) (c : gin.Context)
  : gin.Context :=
  let url := config.URL (config.Target route) in
  if negb (ext.url_Parse_ok env url)
  then gin.Abort (gin.emit (gin.JSON 500 gin.H_error_bad_target) c)
  else
    let path := proxyPath route (gin.Path (gin.Req c)) in
    let c1 := gin.emit (gin.Proxy url path) c in
    let c2 := if ext.upstream_ok env url path then c1
              else gin.emit (gin.JSON 502 gin.H_error_proxy) c1 in
    gin.Abort c2.

(** What the middleware does once the chain has returned. *)
Definition afterChain (env : ext.Env) (route : config.RouteConfig)
           (c : gin.Context) (r : option gin.error) : gin.Context :=
  match r with
  | Some gin.Panic => gin.Abort (gin.emit (gin.Status 500) c)
  | Some e => gin.Abort (gin.emit (gin.JSON 500 (gin.H_error e)) c)
  | None =>
      if gin.IsAborted c then c
      else if Go.HasPrefix (config.URL (config.Target route)) "internal://"
      then gin.Abort (internalResponse route c)
      else forward env route c
  end.

(** The middleware installed by [registerRoutes], followed by the
    [NoRoute] handler when no route matches. *)
Definition handler (env : ext.Env) (routes : list config.RouteConfig)
           (pm : plugin.Manager) (w : plugin.World) (req : gin.Request)
  : plugin.World * gin.Context :=
  let c := gin.New req in
  match findRoute routes (gin.Path req) with
  | None => (w, gin.emit (gin.JSON 404 gin.H_error_not_found) c)
  | Some matchedRoute =>
      let c := gin.Set_ "target" (config.URL (config.Target matchedRoute)) c in
      let '(w', c', r) :=
        plugin.Manager_Execute env pm w c (config.RouteConfig_Name matchedRoute) in
      (w', afterChain env matchedRoute c' r)
  end.

Definition proxied (c : gin.Context) : bool := existsb gin.is_proxy (gin.calls c).

(** A plug-in that never calls the upstream. *)
Definition quiet (p : plugin.Plugin) : Prop :=
  forall env w c, proxied (plugin.Execute p env w c).1.2 = proxied c.

End main.

(* ================================================================== *)
(** * Sample configurations and requests                                *)
(* ================================================================== *)

Module sample.

Definition env : ext.Env :=
  {| ext.now := 1700000000 * Go.Second;
     ext.url_Parse_ok := fun url => negb (Go.ContainsByte url " ");
     ext.regexp_Compile_ok := fun _ => true;
     ext.regexp_MatchString := fun _ _ => false;
     ext.authService := fun _ => ext.Reply 200 ["false"];
     ext.digest := fun _ _ _ content => Some content;
     ext.upstream_ok := fun _ _ => true |}.

Definition request (method path host : string) (headers : list (string * string))
  : gin.Request :=
  {| gin.Method := method; gin.Path := path; gin.Host := host; gin.RawQuery := "";
     gin.Header := list_to_map headers; gin.Query := ∅;
     gin.ClientIP := "10.0.0.1" |}.

Definition route (name type path host : string) (priority : Z) (url : string)
           (plugins : list string) (response : option config.ResponseConfig)
  : config.RouteConfig :=
  {| config.RouteConfig_Name := name;
     config.Match := {| config.Type_ := type; config.RouteMatch_Path := path;
                        config.Priority := priority; config.RouteMatch_Host := host;
                        config.RouteMatch_Method := ""; config.Headers := ∅;
                        config.QueryParams := ∅ |};
     config.Target := {| config.URL := url; config.Timeout := 30000;
                         config.Retries := 3 |};
     config.Plugins := plugins;
     config.Response := response |}.

(** Two routes of the shipped config.yaml. *)
Definition v1_api : config.RouteConfig :=
  route "v1-api" "prefix" "/api" "v1.api.example.com" 80
        "http://v1-api-service:8080" [] None.

Definition us_api : config.RouteConfig :=
  route "us-api" "prefix" "/api" "us-api.example.com" 85
        "http://us-api-service:8080" [] None.

Definition default_service : config.RouteConfig :=
  route "default-service" "exact" "/" "" 0 "internal://default" []
        (Some {| config.ResponseConfig_Status := 200;
                 config.Content := "gateway-go is running";
                 config.ContentType := "text/plain" |}).

Definition bare_internal : config.RouteConfig :=
  route "bare" "exact" "/" "" 0 "internal://default" [] None.

Definition server : config.ServerConfig :=
  {| config.Port := 8080; config.Mode := "release";
     config.ReadTimeout := 30 * Go.Second; config.WriteTimeout := 30 * Go.Second;
     config.MaxHeaderBytes := 1048576;
     config.GracefulShutdownTimeout := 30 * Go.Second |}.

Definition log : config.LogConfig :=
  {| config.Level := "info"; config.Format := "json"; config.Output := "stdout";
     config.MaxSize := 100; config.MaxAge := 7; config.MaxBackups := 10;
     config.Compress := true |}.

Definition cfg (port : Z) (routes : list config.RouteConfig) : config.Config :=
  {| config.Server :=
       {| config.Port := port; config.Mode := config.Mode server;
          config.ReadTimeout := config.ReadTimeout server;
          config.WriteTimeout := config.WriteTimeout server;
          config.MaxHeaderBytes := config.MaxHeaderBytes server;
          config.GracefulShutdownTimeout := config.GracefulShutdownTimeout server |};
     config.Log := log;
     config.Config_Plugins := {| config.Available := []; config.PluginsConfig_Routes := ∅ |};
     config.Routes := routes |}.

(** A stand-in decoder for two file contents. *)
Definition decode (text : string) : option config.Config :=
  if String.eqb text "good" then Some (cfg 8080 [default_service])
  else if String.eqb text "port0" then Some (cfg 0 [default_service])
  else None.

(** A reload hook that counts its runs. *)
Definition counting_hook (c : config.Config) (n : nat) : nat * bool := (S n, true).

Definition manager : config.ConfigManager (S := nat) :=
  {| config.currentConfig := Some (cfg 8080 [default_service]);
     config.viper := Some "good";
     config.reloadHooks := [counting_hook] |}.

(** A route guarded by the rate limiter and the external validator. *)
Definition api : config.RouteConfig :=
  route "api" "prefix" "/api" "" 90 "http://backend:80"
        ["interface_auth"; "rate_limit"] None.

Definition auth_config : interface_auth.Config :=
  {| interface_auth.WhiteInterfaces := ["/info"];
     interface_auth.Consumers_Host := "auth:8080";
     interface_auth.Consumers_AuthAPI := "/check" |}.

Definition auth_plugin : interface_auth.Plugin :=
  default interface_auth.New (interface_auth.Init env auth_config).

Definition world (limiter : gmap string config.value) : plugin.World :=
  {| plugin.rate_limit := ratelimit.Init limiter ratelimit.New;
     plugin.circuit_breaker := circuitbreaker.New;
     plugin.cors_ := cors.New;
     plugin.consistency_ := consistency.New;
     plugin.interface_auth_ := auth_plugin;
     plugin.pluginCache := plugin.NewPluginCache (10 * Go.Second) |}.

Definition available : plugin.Manager :=
  {| plugin.availablePlugins :=
       list_to_map [("rate_limit", plugin.RateLimit);
                    ("circuit_breaker", plugin.CircuitBreaker);
                    ("cors", plugin.Cors);
                    ("consistency", plugin.Consistency);
                    ("interface_auth", plugin.InterfaceAuth)];
     plugin.routeChains := ∅;
     plugin.registry := ∅ |}.

Definition manager_for (r : config.RouteConfig) : plugin.Manager :=
  default available
    (plugin.LoadRoutePlugins (config.RouteConfig_Name r) (config.Plugins r) available).

Definition bearer : gin.Request :=
  request "GET" "/api/x" "gw.example.com" [("Authorization", "Bearer T")].

(** A breaker plug-in after one admitted request to [target] whose
    response was a 500, and after the next request, which trips it. *)
Definition t0 : Z := 1700000000 * Go.Second.

Definition breaker_request (now : Z) (target : string)
           (p : circuitbreaker.CircuitBreakerPlugin) : circuitbreaker.CircuitBreakerPlugin :=
  (circuitbreaker.Execute now p
     (gin.Set_ "target" target (gin.New (request "GET" "/api/x" "gw.example.com" [])))).1.1.

Definition breaker_response (now : Z) (target : string) (code : Z)
           (p : circuitbreaker.CircuitBreakerPlugin) : circuitbreaker.CircuitBreakerPlugin :=
  {| circuitbreaker.config := circuitbreaker.config p;
     circuitbreaker.circuitBreakers :=
       (fun cb => (circuitbreaker.WriteHeader now false code cb).2)
         <$> circuitbreaker.circuitBreakers p |}.

Definition breaker_failed : circuitbreaker.CircuitBreakerPlugin :=
  breaker_response t0 "http://backend:80" 500
    (breaker_request t0 "http://backend:80" circuitbreaker.New).

Definition breaker_open : circuitbreaker.CircuitBreakerPlugin :=
  breaker_request (t0 + 1) "http://backend:80" breaker_failed.

Definition breaker_context : gin.Context :=
  gin.Set_ "target" "http://backend:80"
           (gin.New (request "GET" "/api/x" "gw.example.com" [])).

(** A route guarded by the external validator alone. *)
Definition guarded : config.RouteConfig :=
  route "guarded" "prefix" "/api" "" 90 "http://backend:80" ["interface_auth"] None.

(** Traffic on one limiter key, with the janitor ticking every five
    minutes: a request, a tick, a request five minutes later, the next
    tick, two more requests. *)
Definition limiter (rps : Q) (burst : Z) : ratelimit.RateLimitPlugin :=
  ratelimit.Init {["requests_per_second" := config.VFloat64 rps;
                   "burst" := config.VInt burst]} ratelimit.New.

Definition ms : Z := 1000000.

Definition hit (now : Z) : ratelimit.event :=
  ratelimit.Request now (request "GET" "/api/x" "gw.example.com" []).

Definition traffic : list ratelimit.event :=
  [hit t0;
   ratelimit.Janitor (t0 + Go.Second + 100 * ms);
   hit (t0 + 301 * Go.Second);
   ratelimit.Janitor (t0 + 301 * Go.Second + 100 * ms);
   hit (t0 + 301 * Go.Second + 200 * ms);
   hit (t0 + 301 * Go.Second + 300 * ms)].

End sample.

(* ================================================================== *)
(** * Predicates on routes                                              *)
(* ================================================================== *)

Module routes.

(** A route that constrains the path only, by an exact or a prefix
    rule: the kind of rule the dispatcher of [registerRoutes] and the
    router manager read alike. *)
Definition path_only (r : config.RouteConfig) : Prop :=
  let m := config.Match r in
  (config.Type_ m = "exact" \/ config.Type_ m = "prefix")
  /\ config.RouteMatch_Host m = ""
  /\ config.RouteMatch_Method m = ""
  /\ config.Headers m = ∅
  /\ config.QueryParams m = ∅.

Definition priority_of (r : config.RouteConfig) : Z := config.Priority (config.Match r).

Definition priority_of_definition (r : router.RouteDefinition) : Z :=
  router.Priority (router.Match r).

(** [RouteCache.Set] with the entry named that the iteration over the
    full map yields first, for any order of iteration. *)
Definition Set_evicting (victim : option string) (key : string)
           (route : router.RouteDefinition) (rc : router.RouteCache)
  : router.RouteCache :=
  let evicted :=
    if router.cache_size rc <=? Z.of_nat (size (router.cache rc))
    then match victim with
         | Some k => delete k (router.cache rc)
         | None => router.cache rc
         end
    else router.cache rc in
  {| router.cache := <[key := route]> evicted;
     router.cache_size := router.cache_size rc |}.

(** What an iteration over the map can yield first: a key of the map,
    or nothing when the map is empty. *)
Definition first_of (rc : router.RouteCache) (victim : option string) : Prop :=
  match victim with
  | Some k => is_Some (router.cache rc !! k)
  | None => router.cache rc = ∅
  end.

End routes.

(* ================================================================== *)
(** * One key's view of the rate limiter                                *)
(* ================================================================== *)

Module limiter.

(** What one key's bucket sees of the traffic: the key's own requests
    and the ticks of the janitor. *)
Inductive tick :=
| Req (now : Z)
| Jan (now : Z).

Definition tick_time (k : tick) : Z := match k with Req t => t | Jan t => t end.

Fixpoint ticks_for (key : string) (p : ratelimit.RateLimitPlugin)
                   (evs : list ratelimit.event) : list tick :=
  match evs with
  | [] => []
  | ratelimit.Request t r :: rest =>
      if String.eqb (ratelimit.getLimitKey p (gin.New r)) key
      then Req t :: ticks_for key p rest else ticks_for key p rest
  | ratelimit.Janitor t :: rest => Jan t :: ticks_for key p rest
  end.

(** [cleanupBuckets] on one entry of the map. *)
Definition sweep (now : Z) (ob : option ratelimit.TokenBucket)
  : option ratelimit.TokenBucket :=
  match ob with
  | Some b =>
      if 5 * Go.Minute <? Go.int64 (now - ratelimit.lastRefill b) then None else Some b
  | None => None
  end.

(** The admitted instants of one key, from the state of its map entry:
    [getBucket] creates the bucket when the entry is missing, [allow]
    runs on it, the janitor may drop it. *)
Fixpoint key_run (fresh : Z -> ratelimit.TokenBucket)
                 (ob : option ratelimit.TokenBucket) (ticks : list tick) : list Z :=
  match ticks with
  | [] => []
  | Jan t :: rest => key_run fresh (sweep t ob) rest
  | Req t :: rest =>
      let '(ok, b') := ratelimit.allow t (default (fresh t) ob) in
      if ok then t :: key_run fresh (Some b') rest else key_run fresh (Some b') rest
  end.

(** The state of the entry between two events, the last of them at
    [t]: missing, or a bucket of the limiter of rate [a/b] and burst
    [cap] that a call of [allow] has left. *)
Definition settled (a : Z) (b : positive) (cap T : Z) (t : Z)
           (ob : option ratelimit.TokenBucket) : Prop :=
  match ob with
  | None => True
  | Some bk => ratelimit.wf a b cap T t bk
               /\ (1 <= cap -> ratelimit.tokens bk <= cap - 1)
  end.

End limiter.

(* ================================================================== *)
(** * One breaker over time                                             *)
(* ================================================================== *)

Module breaker.

(** The ring of buckets is as [NewWindow] builds it: [size] buckets, the
    current slot among them. *)
Definition ring (w : circuitbreaker.Window) : Prop :=
  0 < circuitbreaker.size w < 2 ^ 31
  /\ Z.of_nat (length (circuitbreaker.Window_buckets w)) = circuitbreaker.size w
  /\ 0 <= circuitbreaker.current w < circuitbreaker.size w.

Definition currentBucket (w : circuitbreaker.Window) : circuitbreaker.Bucket :=
  circuitbreaker.bucketAt w (circuitbreaker.current w).

(** What happens to one breaker: a request asks for admission, or the
    response to an admitted request writes its status. *)
Inductive event :=
| Ask (now : Z)
| Answer (now : Z) (code : Z).

Definition time_of (e : event) : Z :=
  match e with Ask t => t | Answer t _ => t end.

(** The verdicts of [allowRequest] on the requests, in order. *)
Fixpoint drive (cb : circuitbreaker.CircuitBreaker) (evs : list event) : list bool :=
  match evs with
  | [] => []
  | Ask t :: rest =>
      let '(ok, cb') := circuitbreaker.allowRequest t cb in ok :: drive cb' rest
  | Answer t code :: rest =>
      drive (circuitbreaker.WriteHeader t false code cb).2 rest
  end.

(** [time.Duration(recoveryTimeout) * time.Second] *)
Definition recoveryTimeout (cb : circuitbreaker.CircuitBreaker) : Z :=
  Go.int64 (circuitbreaker.recovery_timeout (circuitbreaker.settings cb) * Go.Second).

(** The age at which [getCurrentBucket] moves to the next bucket. *)
Definition bucketSpan (w : circuitbreaker.Window) : Z :=
  Z.quot (circuitbreaker.windowSize w) (circuitbreaker.size w).

(** The condition under which an open breaker cannot recover, and what
    every event keeps of it up to instant [t]. *)
Definition stuck (t : Z) (cb : circuitbreaker.CircuitBreaker) : Prop :=
  circuitbreaker.state cb = circuitbreaker.StateOpen
  /\ ring (circuitbreaker.window cb)
  /\ bucketSpan (circuitbreaker.window cb) <= recoveryTimeout cb
  /\ 0 < recoveryTimeout cb
  /\ 0 <= circuitbreaker.timestamp (currentBucket (circuitbreaker.window cb)) <= t.

End breaker.

(* ================================================================== *)
(** * What the external validator sends out                             *)
(* ================================================================== *)

Module authcalls.

(** The requests to the auth service among the calls of a context. *)
Definition sent (c : gin.Context) : list gin.call :=
  List.filter gin.is_auth_request (gin.calls c).

(** A white-list pattern is a wild-card pattern when it holds a star. *)
Definition wild (pattern : string) : bool := Go.ContainsByte pattern "*".

(** What a white-list entry lets through. *)
Definition admits (env : ext.Env) (pattern path : string) : Prop :=
  if wild pattern
  then ext.regexp_MatchString env (interface_auth.regexPattern pattern) path = true
  else path = pattern.

End authcalls.

(* ================================================================== *)
(** * Validated configurations                                          *)
(* ================================================================== *)

Module valid.

Definition server (c : config.ServerConfig) : Prop :=
  1 <= config.Port c <= 65535
  /\ (config.Mode c = "debug" \/ config.Mode c = "release")
  /\ 0 < config.ReadTimeout c
  /\ 0 < config.WriteTimeout c
  /\ 0 < config.MaxHeaderBytes c
  /\ 0 < config.GracefulShutdownTimeout c.

Definition log (c : config.LogConfig) : Prop :=
  config.Level c ∈ config.validLevels
  /\ config.Format c ∈ config.validFormats
  /\ config.Output c <> ""
  /\ 0 < config.MaxSize c
  /\ 0 < config.MaxAge c
  /\ 0 < config.MaxBackups c.

Definition plugin (c : config.PluginConfig) : Prop :=
  config.PluginConfig_Name c <> "" /\ 0 <= config.Order c.

Definition plugins (c : config.PluginsConfig) : Prop :=
  Forall plugin (config.Available c)
  /\ forall route l, config.PluginsConfig_Routes c !! route = Some l -> Forall plugin l.

Definition route (url_Parse_ok : string -> bool) (c : config.RouteConfig) : Prop :=
  config.RouteConfig_Name c <> ""
  /\ 0 <= config.Priority (config.Match c)
  /\ config.RouteMatch_Path (config.Match c) <> ""
  /\ config.URL (config.Target c) <> ""
  /\ url_Parse_ok (config.URL (config.Target c)) = true.

Definition configuration (url_Parse_ok : string -> bool) (c : config.Config) : Prop :=
  server (config.Server c)
  /\ log (config.Log c)
  /\ plugins (config.Config_Plugins c)
  /\ config.Routes c <> []
  /\ Forall (route url_Parse_ok) (config.Routes c).

End valid.

(* ================================================================== *)
(** * ConfigCenter: versions, partial updates and roll-back             *)
(* ================================================================== *)

Module configcenter.

(** [fmt.Sprintf("%d", n)] *)
Definition itoa (n : Z) : string := NilZero.string_of_int (Z.to_int n).

Record ConfigVersion := {
  Version : string;
  Timestamp : Z;
  Config : config.Config;
  Comment : string
}.

(** [notified] is what has been sent on [notifyChan], a channel with
    room for 100 versions that nothing in the sources reads; a send on
    the full channel is dropped. *)
Record ConfigCenter := {
  currentConfig : option config.Config;
  versions : list ConfigVersion;
  maxVersions : Z;
  notified : list ConfigVersion
}.

Inductive error :=
| NotInitialised
| Invalid (e : config.error)
| VersionNotFound (version : string)
| NilDereference.

Definition NewConfigCenter (maxVersions : Z) : ConfigCenter :=
  {| currentConfig := None; versions := []; maxVersions := maxVersions; notified := [] |}.

Definition GetCurrentConfig (cc : ConfigCenter) : option config.Config :=
  currentConfig cc.

(** [addVersion] copies [*cc.currentConfig] into the new version, and so
    panics ([None]) without a current configuration.  [now] is the
    clock, in nanoseconds, which names the version. *)
Definition addVersion (now : Z) (source comment : string) (cc : ConfigCenter)
  : option (ConfigVersion * ConfigCenter) :=
  match currentConfig cc with
  | None => None
  | Some c =>
      let version := {| Version := itoa now; Timestamp := now; Config := c;
                        Comment := "[" ++ source ++ "] " ++ comment |} in
      let appended := versions cc ++ [version] in
      let kept := if maxVersions cc <? Z.of_nat (length appended)
                  then drop 1 appended else appended in
      Some (version, {| currentConfig := currentConfig cc; versions := kept;
                        maxVersions := maxVersions cc; notified := notified cc |})
  end.

Definition notify (v : ConfigVersion) (cc : ConfigCenter) : ConfigCenter :=
  {| currentConfig := currentConfig cc; versions := versions cc;
     maxVersions := maxVersions cc;
     notified := if (length (notified cc) <? 100)%nat then notified cc ++ [v]
                 else notified cc |}.

(** The merge of [UpdateConfig]: a field of the update replaces the
    current one when it is not the zero value; port, mode and the log's
    compress flag are never taken from the update. *)
Definition merge (current new : config.Config) : config.Config :=
  let pick_string (n o : string) := if negb (String.eqb n "") then n else o in
  let pick_positive (n o : Z) := if 0 <? n then n else o in
  let pick_nonzero (n o : Z) := if negb (n =? 0) then n else o in
  {| config.Server :=
       {| config.Port := config.Port (config.Server current);
          config.Mode := config.Mode (config.Server current);
          config.ReadTimeout :=
            pick_nonzero (config.ReadTimeout (config.Server new))
                         (config.ReadTimeout (config.Server current));
          config.WriteTimeout :=
            pick_nonzero (config.WriteTimeout (config.Server new))
                         (config.WriteTimeout (config.Server current));
          config.MaxHeaderBytes :=
            pick_positive (config.MaxHeaderBytes (config.Server new))
                          (config.MaxHeaderBytes (config.Server current));
          config.GracefulShutdownTimeout :=
            pick_positive (config.GracefulShutdownTimeout (config.Server new))
                          (config.GracefulShutdownTimeout (config.Server current)) |};
     config.Log :=
       {| config.Level := pick_string (config.Level (config.Log new))
                                      (config.Level (config.Log current));
          config.Format := pick_string (config.Format (config.Log new))
                                       (config.Format (config.Log current));
          config.Output := pick_string (config.Output (config.Log new))
                                       (config.Output (config.Log current));
          config.MaxSize := pick_positive (config.MaxSize (config.Log new))
                                          (config.MaxSize (config.Log current));
          config.MaxAge := pick_positive (config.MaxAge (config.Log new))
                                         (config.MaxAge (config.Log current));
          config.MaxBackups := pick_positive (config.MaxBackups (config.Log new))
                                             (config.MaxBackups (config.Log current));
          config.Compress := config.Compress (config.Log current) |};
     config.Config_Plugins :=
       {| config.Available :=
            match config.Available (config.Config_Plugins new) with
            | [] => config.Available (config.Config_Plugins current)
            | l => l
            end;
          config.PluginsConfig_Routes :=
            config.PluginsConfig_Routes (config.Config_Plugins current) |};
     config.Routes :=
       match config.Routes new with
       | [] => config.Routes current
       | l => l
       end |}.

Section Center.
Variable url_Parse_ok : string -> bool.

Definition UpdateConfig (now : Z) (newConfig : config.Config) (comment : string)
           (cc : ConfigCenter) : ConfigCenter * option error :=
  match currentConfig cc with
  | None => (cc, Some NotInitialised)
  | Some currentConfig =>
      let mergedConfig := merge currentConfig newConfig in
      match config.ValidateConfig url_Parse_ok mergedConfig with
      | Some e => (cc, Some (Invalid e))
      | None =>
          let cc1 := {| currentConfig := Some mergedConfig; versions := versions cc;
                        maxVersions := maxVersions cc; notified := notified cc |} in
          match addVersion now "manual" comment cc1 with
          | Some (version, cc2) => (notify version cc2, None)
          | None => (cc1, Some NilDereference)
          end
      end
  end.

End Center.

(** The first version of the history with the given identifier. *)
Definition findVersion (version : string) (cc : ConfigCenter) : option ConfigVersion :=
  List.find (fun v => String.eqb (Version v) version) (versions cc).

Definition RollbackConfig (now : Z) (version : string) (cc : ConfigCenter)
  : ConfigCenter * option error :=
  match findVersion version cc with
  | None => (cc, Some (VersionNotFound version))
  | Some targetVersion =>
      let cc1 := {| currentConfig := Some (Config targetVersion);
                    versions := versions cc; maxVersions := maxVersions cc;
                    notified := notified cc |} in
      match addVersion now "rollback" ("回滚到版本 " ++ version) cc1 with
      | Some (_, cc2) => (cc2, None)
      | None => (cc1, Some NilDereference)
      end
  end.

Definition GetVersions (cc : ConfigCenter) : list ConfigVersion := versions cc.

Definition GetVersion (version : string) (cc : ConfigCenter)
  : ConfigVersion + error :=
  match findVersion version cc with
  | Some v => inl v
  | None => inr (VersionNotFound version)
  end.

(** The history is within its bound and ends with the configuration in
    force. *)
Definition consistent (cc : ConfigCenter) : Prop :=
  Z.of_nat (length (versions cc)) <= maxVersions cc
  /\ Config <$> last (versions cc) = currentConfig cc.

End configcenter.

Module sample_center.

Definition initial : configcenter.ConfigVersion :=
  {| configcenter.Version := "100"; configcenter.Timestamp := 100;
     configcenter.Config := sample.cfg 8080 [sample.default_service];
     configcenter.Comment := "[initial] first" |}.

(** A centre that holds its first version and keeps two. *)
Definition centre : configcenter.ConfigCenter :=
  {| configcenter.currentConfig := Some (sample.cfg 8080 [sample.default_service]);
     configcenter.versions := [initial];
     configcenter.maxVersions := 2;
     configcenter.notified := [] |}.

(** An update that asks for another port and other routes. *)
Definition update : config.Config := sample.cfg 9090 [sample.v1_api].

End sample_center.

(* ================================================================== *)
(** * Configuration reload                                              *)
(* ================================================================== *)

Section Reload.
Variable url_Parse_ok : string -> bool.
Variable decode : string -> option config.Config.
Context {S : Type}.

Lemma TestConfig_invalid (file : option string) :
  config.invalid url_Parse_ok decode file ->
  config.TestConfig url_Parse_ok decode file <> None.
Proof.
  unfold config.invalid, config.TestConfig, config.parse.
  destruct file as [text|]; [|discriminate].
  destruct (decode text) as [c|]; [|discriminate].
  destruct (config.ValidateConfig url_Parse_ok c); [discriminate|tauto].
Qed.

Lemma TestConfig_valid (file : option string) :
  config.TestConfig url_Parse_ok decode file = None ->
  ~ config.invalid url_Parse_ok decode file.
Proof.
  intros Hok Hinv. now apply TestConfig_invalid in Hinv.
Qed.

Lemma LoadConfig_invalid (cm : config.ConfigManager (S := S)) (file : option string) :
  config.invalid url_Parse_ok decode file ->
  exists cm' e,
    config.LoadConfig url_Parse_ok decode cm file = (cm', Some e)
    /\ config.currentConfig cm' = config.currentConfig cm
    /\ config.reloadHooks cm' = config.reloadHooks cm.
Proof.
  unfold config.invalid, config.LoadConfig.
  destruct file as [text|]; [|intros _; eauto].
  destruct (decode text) as [c|]; [|intros _; eauto].
  destruct (config.ValidateConfig url_Parse_ok c) as [e|]; [intros _; eauto|tauto].
Qed.

(** The three kinds of invalid configuration the specification names. *)
Lemma ValidateConfig_port (c : config.Config) :
  config.Port (config.Server c) <= 0 \/ 65535 < config.Port (config.Server c) ->
  config.ValidateConfig url_Parse_ok c <> None.
Proof.
  intros H. unfold config.ValidateConfig, config.validateServerConfig.
  replace ((config.Port (config.Server c) <=? 0)
           || (65535 <? config.Port (config.Server c))) with true; [discriminate|].
  symmetry. apply orb_true_iff. destruct H; [left; lia|right; lia].
Qed.

Lemma ValidateConfig_mode (c : config.Config) :
  config.Mode (config.Server c) <> "debug" ->
  config.Mode (config.Server c) <> "release" ->
  config.ValidateConfig url_Parse_ok c <> None.
Proof.
  intros Hd Hr. unfold config.ValidateConfig, config.validateServerConfig.
  destruct (_ || _); [discriminate|].
  apply String.eqb_neq in Hd, Hr. rewrite Hd, Hr. discriminate.
Qed.

Lemma validateRoutesFrom_url (routes : list config.RouteConfig) (i : nat) :
  Exists (fun r => url_Parse_ok (config.URL (config.Target r)) = false) routes ->
  config.validateRoutesFrom url_Parse_ok i routes <> None.
Proof.
  intros H. revert i. induction H as [r rest Hr | r rest _ IH]; intros i; cbn.
  - unfold config.validateRouteConfig. rewrite Hr. cbn.
    repeat match goal with
           | |- context [if ?b then _ else _] => destruct b
           end; discriminate.
  - destruct (config.validateRouteConfig url_Parse_ok r); [discriminate|apply IH].
Qed.

Lemma ValidateConfig_url (c : config.Config) :
  Exists (fun r => url_Parse_ok (config.URL (config.Target r)) = false)
         (config.Routes c) ->
  config.ValidateConfig url_Parse_ok c <> None.
Proof.
  intros H. unfold config.ValidateConfig.
  destruct (config.validateServerConfig _); [discriminate|].
  destruct (config.validateLogConfig _); [discriminate|].
  destruct (config.validatePluginsConfig _); [discriminate|].
  unfold config.validateRoutesConfig.
  destruct (config.Routes c) as [|r rest] eqn:E; [discriminate|].
  now apply validateRoutesFrom_url.
Qed.

(** C7.  If a reload is attempted while the configuration file is
    invalid at either of its two reads (unreadable, not decodable, or
    rejected by [ValidateConfig]), [ReloadConfig] returns an error, the
    current configuration is the one held before, and no reload hook has
    run, so the rest of the process is untouched. *)
Theorem reload_invalid_keeps_snapshot
        (cm : config.ConfigManager (S := S)) (s : S) (read1 read2 : option string) :
  config.invalid url_Parse_ok decode read1
  \/ config.invalid url_Parse_ok decode read2 ->
  exists cm' e,
    config.ReloadConfig url_Parse_ok decode cm s read1 read2 = (cm', s, Some e)
    /\ config.GetConfig cm' = config.GetConfig cm.
Proof.
  intros H. unfold config.ReloadConfig.
  destruct (config.TestConfig url_Parse_ok decode read1) as [e|] eqn:Htest.
  - exists cm, (config.TestFailed e). split; reflexivity.
  - destruct H as [H|H]; [now apply TestConfig_valid in Htest|].
    destruct (LoadConfig_invalid cm read2 H) as (cm' & e & -> & Hcur & _).
    exists cm', (config.LoadFailed e). split; [reflexivity|exact Hcur].
Qed.
End Reload.

Lemma reload_invalid_keeps_snapshot_witness :
  config.invalid (ext.url_Parse_ok sample.env) sample.decode (Some "port0")
  /\ exists cm' e,
       config.ReloadConfig (ext.url_Parse_ok sample.env) sample.decode
                           sample.manager 0%nat (Some "port0") (Some "port0")
       = (cm', 0%nat, Some e)
       /\ config.GetConfig cm' = config.GetConfig sample.manager.
Proof.
  assert (H : config.invalid (ext.url_Parse_ok sample.env) sample.decode (Some "port0"))
    by (vm_compute; discriminate).
  split; [exact H|].
  apply (reload_invalid_keeps_snapshot (ext.url_Parse_ok sample.env) sample.decode
           sample.manager 0%nat (Some "port0") (Some "port0")).
  left. exact H.
Defined.


(* ================================================================== *)
(** * Route selection                                                   *)
(* ================================================================== *)

Lemma insert_perm {A} (less : A -> A -> bool) (x : A) (l : list A) :
  Go.insert less x l ≡ₚ x :: l.
Proof.
  induction l as [|y l IH]; cbn; [reflexivity|].
  destruct (less y x); [|reflexivity].
  rewrite IH. apply Permutation_swap.
Qed.

Lemma Slice_perm {A} (less : A -> A -> bool) (l : list A) :
  l ≡ₚ Go.Slice less l.
Proof.
  induction l as [|x l IH]; cbn; [reflexivity|].
  fold (Go.Slice less l). rewrite insert_perm. now constructor.
Qed.

(** Insertion sort meets the contract of [sort.Slice] for the comparison
    of [registerRoutes]. *)
Lemma insert_ordered (x : config.RouteConfig) (l : list config.RouteConfig) :
  Go.ordered main.by_priority l -> Go.ordered main.by_priority (Go.insert main.by_priority x l).
Proof.
  induction l as [|y l IH]; cbn; intros H; [split; [constructor|exact I]|].
  destruct H as [Hy Hl].
  destruct (main.by_priority y x) eqn:E; cbn.
  - split; [|now apply IH].
    rewrite insert_perm. constructor; [|exact Hy].
    unfold main.by_priority in *. lia.
  - split; [|split; assumption].
    constructor; [exact E|].
    eapply Forall_impl; [exact Hy|]. cbn. intros z Hz.
    unfold main.by_priority in *. lia.
Qed.

Lemma sortedRoutes_sorted (cfg : config.Config) :
  Go.sorted_by main.by_priority (config.Routes cfg) (main.sortedRoutes cfg).
Proof.
  split; [apply Slice_perm|].
  unfold main.sortedRoutes. induction (config.Routes cfg) as [|x l IH]; cbn; [exact I|].
  now apply insert_ordered.
Qed.

(** What the dispatcher does select: a route whose path rule matches
    and whose priority no other path-matching route exceeds, for every
    ordering [sort.Slice] may produce. *)
Lemma findRoute_highest_priority
      (routes sorted : list config.RouteConfig) (path : string) :
  Go.sorted_by main.by_priority routes sorted ->
  match main.findRoute sorted path with
  | Some r =>
      r ∈ routes
      /\ main.matchRoute path (config.Match r) = true
      /\ forall r', r' ∈ routes ->
                    main.matchRoute path (config.Match r') = true ->
                    config.Priority (config.Match r') <= config.Priority (config.Match r)
  | None =>
      forall r', r' ∈ routes -> main.matchRoute path (config.Match r') = false
  end.
Proof.
  intros [Hperm Hord]. unfold main.findRoute.
  assert (Hgoal :
    match List.find (fun route => main.matchRoute path (config.Match route)) sorted with
    | Some r => r ∈ sorted /\ main.matchRoute path (config.Match r) = true
                /\ forall r', r' ∈ sorted ->
                     main.matchRoute path (config.Match r') = true ->
                     config.Priority (config.Match r') <= config.Priority (config.Match r)
    | None => forall r', r' ∈ sorted -> main.matchRoute path (config.Match r') = false
    end).
  { clear Hperm. induction sorted as [|x l IH]; cbn.
    - intros r' Hr'. inversion Hr'.
    - destruct Hord as [Hx Hl].
      destruct (main.matchRoute path (config.Match x)) eqn:E.
      + split; [left|split; [exact E|]].
        intros r' Hr' _. apply elem_of_cons in Hr' as [->|Hr']; [lia|].
        rewrite Forall_forall in Hx. specialize (Hx r' Hr').
        unfold main.by_priority in Hx. lia.
      + specialize (IH Hl). destruct (List.find _ l) as [r|].
        * destruct IH as (Hin & Hm & Hmax). split; [now right|split; [exact Hm|]].
          intros r' Hr' Hr'm. apply elem_of_cons in Hr' as [->|Hr']; [congruence|].
          now apply Hmax.
        * intros r' Hr'. apply elem_of_cons in Hr' as [->|Hr']; [exact E|now apply IH]. }
  destruct (List.find _ sorted) as [r|].
  - destruct Hgoal as (Hin & Hm & Hmax). split; [now rewrite Hperm|split; [exact Hm|]].
    intros r' Hr'. apply Hmax. now rewrite <- Hperm.
  - intros r' Hr'. apply Hgoal. now rewrite <- Hperm.
Qed.

(** The scan of [Manager.MatchRoute] does honour every predicate: the
    route it keeps satisfies the whole rule and no satisfied route has a
    greater priority. *)
Lemma scan_highest_priority (env : ext.Env) (c : gin.Context)
      (routes : list router.RouteDefinition) (best : option router.RouteDefinition)
      (highest : Z) :
  match best with
  | Some b => router.Priority (router.Match b) = highest
              /\ router.matchRule env c (router.Match b) = true
  | None => highest = -1
  end ->
  match router.scan env c routes best highest with
  | Some r =>
      router.matchRule env c (router.Match r) = true
      /\ highest <= router.Priority (router.Match r)
      /\ forall r', r' ∈ routes ->
                    router.matchRule env c (router.Match r') = true ->
                    router.Priority (router.Match r') <= router.Priority (router.Match r)
  | None =>
      best = None
      /\ forall r', r' ∈ routes ->
                    router.matchRule env c (router.Match r') = true ->
                    router.Priority (router.Match r') <= -1
  end.
Proof.
  revert best highest. induction routes as [|x l IH]; intros best highest Hb; cbn.
  - destruct best as [b|].
    + destruct Hb as [Hp Hm]. split; [exact Hm|split; [lia|]].
      intros r' Hr'. inversion Hr'.
    + split; [reflexivity|]. intros r' Hr'. inversion Hr'.
  - destruct (router.matchRule env c (router.Match x)) eqn:E; cbn.
    + destruct (highest <? router.Priority (router.Match x)) eqn:Hlt.
      * specialize (IH (Some x) (router.Priority (router.Match x)) (conj eq_refl E)).
        destruct (router.scan env c l (Some x) _) as [r|].
        -- destruct IH as (Hm & Hge & Hmax). split; [exact Hm|split; [lia|]].
           intros r' Hr' Hr'm. apply elem_of_cons in Hr' as [->|Hr']; [lia|now apply Hmax].
        -- destruct IH as [Hn _]. discriminate.
      * specialize (IH best highest Hb).
        destruct (router.scan env c l best highest) as [r|].
        -- destruct IH as (Hm & Hge & Hmax). split; [exact Hm|split; [lia|]].
           intros r' Hr' Hr'm. apply elem_of_cons in Hr' as [->|Hr']; [lia|now apply Hmax].
        -- destruct IH as [-> Hmax]. split; [reflexivity|].
           intros r' Hr' Hr'm. apply elem_of_cons in Hr' as [->|Hr']; [lia|now apply Hmax].
    + specialize (IH best highest Hb).
      destruct (router.scan env c l best highest) as [r|].
      * destruct IH as (Hm & Hge & Hmax). split; [exact Hm|split; [lia|]].
        intros r' Hr' Hr'm. apply elem_of_cons in Hr' as [->|Hr']; [congruence|now apply Hmax].
      * destruct IH as [-> Hmax]. split; [reflexivity|].
        intros r' Hr' Hr'm. apply elem_of_cons in Hr' as [->|Hr']; [congruence|now apply Hmax].
Qed.

(** C1.  Evaluation of the dispatcher on two routes of the shipped
    configuration and a request for the host of the second: it selects
    the route of greater priority although that route's host predicate is
    not satisfied, and passes over the route whose predicates are all
    satisfied; the scan of [Manager.MatchRoute] picks the latter. *)
Theorem dispatcher_ignores_host_predicate :
  let routes := [sample.v1_api; sample.us_api] in
  let req := sample.request "GET" "/api/x" "v1.api.example.com" [] in
  let c := gin.New req in
  main.findRoute (main.sortedRoutes (sample.cfg 8080 routes)) (gin.Path req)
  = Some sample.us_api
  /\ router.matchRule sample.env c (router.Match (router.convert sample.us_api)) = false
  /\ router.matchRule sample.env c (router.Match (router.convert sample.v1_api)) = true
  /\ router.linear true sample.env c (map router.convert routes)
     = Some (router.convert sample.v1_api).
Proof. vm_compute. repeat split; reflexivity. Qed.

(** The trie of [Manager.MatchRoute] is consulted before priorities
    are: an exact route found in the trie wins over a prefix route of
    greater priority that matches the same request. *)
Lemma trie_before_priority :
  let low := router.convert (sample.route "low" "exact" "/a" "" 1 "http://low:80" [] None) in
  let high := router.convert (sample.route "high" "prefix" "/" "" 100 "http://high:80" [] None) in
  let c := gin.New (sample.request "GET" "/a" "gw.example.com" []) in
  (router.selectRoute true sample.env (router.loadConfig [high; low]) c).2 = Some low
  /\ router.matchRule sample.env c (router.Match high) = true.
Proof. vm_compute. split; reflexivity. Qed.

(* ================================================================== *)
(** * Chains and the dispatcher                                         *)
(* ================================================================== *)

(** A plug-in that returns an error ends the chain: nothing after it
    runs. *)
Lemma chain_stops_on_error (env : ext.Env) (p : plugin.Plugin) (rest : list plugin.Plugin)
      (w w1 : plugin.World) (c c1 : gin.Context) (e : gin.error) :
  plugin.Execute p env w c = (w1, c1, Some e) ->
  plugin.run false env (p :: rest) w c = (w1, c1, Some e).
Proof. intros H. cbn. now rewrite H. Qed.

(** A plug-in that aborts and returns nil does not: the loop goes on
    with the next plug-in, whatever [IsAborted] says. *)
Lemma chain_continues_after_abort (env : ext.Env) (p : plugin.Plugin)
      (rest : list plugin.Plugin) (w w1 : plugin.World) (c c1 : gin.Context) :
  plugin.Execute p env w c = (w1, c1, None) ->
  plugin.run false env (p :: rest) w c = plugin.run false env rest w1 c1.
Proof. intros H. cbn. now rewrite H. Qed.

Lemma proxied_emit (k : gin.call) (c : gin.Context) :
  main.proxied (gin.emit k c) = main.proxied c || gin.is_proxy k.
Proof.
  unfold main.proxied, gin.emit; cbn. rewrite existsb_app. cbn. now rewrite orb_false_r.
Qed.

Lemma proxied_Abort (c : gin.Context) : main.proxied (gin.Abort c) = main.proxied c.
Proof. reflexivity. Qed.

(** Once the chain has aborted the request or failed, the dispatcher
    does not call the upstream. *)
Lemma afterChain_no_proxy (env : ext.Env) (route : config.RouteConfig)
      (c : gin.Context) (r : option gin.error) :
  gin.IsAborted c = true \/ r <> None ->
  main.proxied (main.afterChain env route c r) = main.proxied c.
Proof.
  intros H. unfold main.afterChain. destruct r as [e|].
  - destruct e; rewrite proxied_Abort, proxied_emit; cbn; apply orb_false_r.
  - destruct H as [H|H]; [now rewrite H|congruence].
Qed.

(** C2.  Evaluation of the dispatcher on a route whose chain is the
    rate limiter followed by the external validator, with an exhausted
    bucket: the limiter answers 429 and aborts, the validator still runs
    and calls the auth service; the upstream is not called. *)
Theorem chain_runs_past_short_circuit :
  let pm := sample.manager_for sample.api in
  let w := sample.world {["burst" := config.VInt 0]} in
  let c := (main.handler sample.env [sample.api] pm w sample.bearer).2 in
  (map plugin.Name <$> (plugin.plugins <$> plugin.routeChains pm !! "api"))
  = Some ["rate_limit"; "interface_auth"]
  /\ gin.calls c = [gin.JSON 429 gin.H_error_rate_limited;
                    gin.AuthRequest "http://auth:8080/check/T"]
  /\ gin.Get c "plugin_result_interface_auth" = Some "success"
  /\ main.proxied c = false.
Proof. cbv zeta. repeat split; vm_compute; reflexivity. Qed.


#[local] Arguments gin.emit : simpl never.
#[local] Arguments gin.Abort : simpl never.
#[local] Arguments gin.Set_ : simpl never.
#[local] Arguments main.proxied : simpl never.

Lemma proxied_Set (key value : string) (c : gin.Context) :
  main.proxied (gin.Set_ key value c) = main.proxied c.
Proof. reflexivity. Qed.

(** None of the plug-ins calls the upstream. *)
Lemma ratelimit_quiet (now : Z) (p : ratelimit.RateLimitPlugin) (c : gin.Context) :
  main.proxied (ratelimit.Execute now p c).1.2 = main.proxied c.
Proof.
  unfold ratelimit.Execute.
  destruct (ratelimit.getBucket _ _ _) as [b p1].
  destruct (ratelimit.allow _ _) as [[|] b']; cbn; [reflexivity|].
  rewrite proxied_Abort, proxied_emit. apply orb_false_r.
Qed.

Lemma circuitbreaker_quiet (now : Z) (p : circuitbreaker.CircuitBreakerPlugin)
      (c : gin.Context) :
  main.proxied (circuitbreaker.Execute now p c).1.2 = main.proxied c.
Proof.
  unfold circuitbreaker.Execute.
  destruct (circuitbreaker.allowRequest _ _) as [[|] cb']; cbn;
    rewrite ?proxied_Abort, proxied_emit; apply orb_false_r.
Qed.

Lemma consistency_quiet (env : ext.Env) (p : consistency.ConsistencyPlugin)
      (c : gin.Context) :
  main.proxied (consistency.Execute env p c).1.2 = main.proxied c.
Proof.
  unfold consistency.Execute.
  destruct (negb _); [reflexivity|].
  destruct (consistency.checkRequest _ _ _) as [p' [e|]]; cbn.
  - rewrite proxied_Abort, proxied_emit. apply orb_false_r.
  - destruct (consistency.CheckResponse _); cbn; [|reflexivity].
    rewrite proxied_emit. apply orb_false_r.
Qed.

Lemma fail_quiet (payload : gin.payload) (e : gin.error) (c : gin.Context) :
  main.proxied (interface_auth.fail payload e c).1 = main.proxied c.
Proof.
  unfold interface_auth.fail; cbn. rewrite proxied_Abort, proxied_emit. apply orb_false_r.
Qed.

Lemma callAuthService_quiet (env : ext.Env) (p : interface_auth.Plugin)
      (c : gin.Context) (token : string) :
  main.proxied (interface_auth.callAuthService env p c token).1 = main.proxied c.
Proof.
  unfold interface_auth.callAuthService.
  destruct (negb _); [apply fail_quiet|].
  destruct (ext.authService _ _) as [|status reads];
    [rewrite fail_quiet, proxied_emit; apply orb_false_r|].
  repeat match goal with
         | |- context [if ?b then _ else _] => destruct b
         end;
    rewrite ?fail_quiet; cbn; rewrite proxied_emit; apply orb_false_r.
Qed.

Lemma interface_auth_quiet (env : ext.Env) (p : interface_auth.Plugin)
      (c : gin.Context) :
  main.proxied (interface_auth.Execute env p c).1 = main.proxied c.
Proof.
  unfold interface_auth.Execute.
  destruct (interface_auth.isWhiteListed _ _ _); [reflexivity|].
  destruct (String.eqb _ ""); [apply fail_quiet|].
  pose proof (callAuthService_quiet env p c
                (interface_auth.getTokenFromAuthorizationHeader c)) as H.
  destruct (interface_auth.callAuthService _ _ _ _) as [c' [e|]]; cbn in *; exact H.
Qed.

Lemma header_from_proxied (key : string) (v : option string) (s : cors.step) :
  main.proxied (cors.header_from key v s).1 = main.proxied s.1.
Proof.
  destruct s as [c [|]]; cbn; [|reflexivity].
  destruct v; cbn; [|reflexivity]. rewrite proxied_emit. apply orb_false_r.
Qed.

Lemma handlePreflight_quiet (p : cors.CorsPlugin) (c : gin.Context) :
  main.proxied (cors.handlePreflight p c).1 = main.proxied c.
Proof.
  unfold cors.handlePreflight.
  destruct (cors.isOriginAllowed _ _) as [[|]|]; cbn [fst].
  - set (s := cors.header_from "Access-Control-Max-Age" _ _).
    assert (Hs : main.proxied s.1 = main.proxied c).
    { unfold s. rewrite !header_from_proxied. cbn [fst].
      rewrite proxied_emit. apply orb_false_r. }
    destruct s as [c' [|]]; cbn [fst] in *; [|exact Hs].
    rewrite proxied_emit, Hs. apply orb_false_r.
  - rewrite proxied_emit. apply orb_false_r.
  - reflexivity.
Qed.

Lemma handleActualRequest_quiet (p : cors.CorsPlugin) (c : gin.Context) :
  main.proxied (cors.handleActualRequest p c).1 = main.proxied c.
Proof.
  unfold cors.handleActualRequest.
  destruct (String.eqb _ ""); [reflexivity|].
  destruct (cors.isOriginAllowed _ _) as [[|]|]; cbn [fst]; try reflexivity.
  rewrite header_from_proxied. cbn [fst]. rewrite proxied_emit. apply orb_false_r.
Qed.

Lemma cors_quiet (p : cors.CorsPlugin) (c : gin.Context) :
  main.proxied (cors.Execute p c).1 = main.proxied c.
Proof.
  unfold cors.Execute. destruct (String.eqb _ "OPTIONS").
  - pose proof (handlePreflight_quiet p c) as H.
    destruct (cors.handlePreflight p c) as [c' [|]]; exact H.
  - pose proof (handleActualRequest_quiet p c) as H.
    destruct (cors.handleActualRequest p c) as [c' [|]]; exact H.
Qed.

Lemma builtin_quiet (p : plugin.Plugin) : p ∈ plugin.builtin -> main.quiet p.
Proof.
  unfold plugin.builtin. rewrite !elem_of_cons, elem_of_nil.
  intros [->|[->|[->|[->|[->|[]]]]]] env w c.
  - pose proof (ratelimit_quiet (ext.now env) (plugin.rate_limit w) c) as H.
    cbn. destruct (ratelimit.Execute _ _ _) as [[p' c'] r]. exact H.
  - pose proof (circuitbreaker_quiet (ext.now env) (plugin.circuit_breaker w) c) as H.
    cbn. destruct (circuitbreaker.Execute _ _ _) as [[p' c'] r]. exact H.
  - pose proof (cors_quiet (plugin.cors_ w) c) as H.
    cbn. destruct (cors.Execute _ _) as [c' r]. exact H.
  - pose proof (consistency_quiet env (plugin.consistency_ w) c) as H.
    cbn. destruct (consistency.Execute _ _ _) as [[p' c'] r]. exact H.
  - pose proof (interface_auth_quiet env (plugin.interface_auth_ w) c) as H.
    cbn. destruct (interface_auth.Execute _ _ _) as [c' r]. exact H.
Qed.

Lemma run_quiet (cached : bool) (env : ext.Env) (ps : list plugin.Plugin)
      (w : plugin.World) (c : gin.Context) :
  Forall main.quiet ps ->
  main.proxied (plugin.run cached env ps w c).1.2 = main.proxied c.
Proof.
  intros H. revert w c. induction H as [|p ps Hp _ IH]; intros w c; cbn; [reflexivity|].
  destruct (if cached then _ else _) as [data|].
  - rewrite IH. reflexivity.
  - specialize (Hp env w c).
    destruct (plugin.Execute p env w c) as [[w1 c1] [e|]]; cbn in *; [exact Hp|].
    rewrite IH. exact Hp.
Qed.

Lemma Manager_Execute_quiet (env : ext.Env) (pm : plugin.Manager) (w : plugin.World)
      (c : gin.Context) (routeName : string) :
  plugin.only_builtin pm ->
  main.proxied (plugin.Manager_Execute env pm w c routeName).1.2 = main.proxied c.
Proof.
  intros H. unfold plugin.Manager_Execute.
  destruct (plugin.routeChains pm !! routeName) as [ch|] eqn:E; [|reflexivity].
  apply run_quiet. eapply Forall_impl; [exact (H _ _ E)|]. apply builtin_quiet.
Qed.

(* ================================================================== *)
(** * Internal responses                                                *)
(* ================================================================== *)




(* ================================================================== *)
(** * CORS                                                              *)
(* ================================================================== *)





(* ================================================================== *)
(** * Circuit breaker                                                   *)
(* ================================================================== *)

(** C4, as the specification states it, at a closed breaker whose window
    holds one failure and no success: the request is denied with 503. *)
Lemma closed_breaker_denies :
  let p := sample.breaker_failed in
  let c := sample.breaker_context in
  (circuitbreaker.state <$> circuitbreaker.circuitBreakers p !! "http://backend:80")
  = Some circuitbreaker.StateClosed
  /\ (circuitbreaker.Execute (sample.t0 + 1) p c).1.2
     = gin.Abort (gin.emit (gin.JSON 503 gin.H_error_unavailable) c).
Proof. cbv zeta. split; vm_compute; reflexivity. Qed.

(** C4, amended.  Admission of a request by the breaker [cb] of its
    target follows the state: closed admits unless the failure rate of the
    window has reached the threshold, in which case the breaker opens and
    the request is denied; open denies while the recovery timeout has not
    elapsed since the timestamp of the window's current bucket; half-open decrements the quota and
    denies exactly when the result is negative.  A denied request is
    answered 503 and aborted, and the dispatcher then does not call the
    upstream; an admitted one continues. *)
Theorem breaker_admission
        (now : Z) (p : circuitbreaker.CircuitBreakerPlugin) (c : gin.Context) :
  let cb := circuitbreaker.getCircuitBreaker now (circuitbreaker.targetOf c) p in
  let result := circuitbreaker.allowRequest now cb in
  let executed := circuitbreaker.Execute now p c in
  (circuitbreaker.state cb = circuitbreaker.StateClosed ->
   result = if circuitbreaker.tripped now cb
            then (false, circuitbreaker.with_state circuitbreaker.StateOpen cb)
            else (true, cb))
  /\ (circuitbreaker.state cb = circuitbreaker.StateOpen ->
      circuitbreaker.recovered now cb = false ->
      result.1 = false
      /\ circuitbreaker.state result.2 = circuitbreaker.StateOpen)
  /\ (circuitbreaker.state cb = circuitbreaker.StateHalfOpen ->
      let quota := Go.int32 (circuitbreaker.halfOpenQuota cb - 1) in
      result = (0 <=? quota, circuitbreaker.with_quota quota cb))
  /\ (result.1 = false ->
      executed.1.2 = gin.Abort (gin.emit (gin.JSON 503 gin.H_error_unavailable) c)
      /\ executed.2 = None
      /\ forall env route r,
           main.proxied (main.afterChain env route executed.1.2 r) = main.proxied c)
  /\ (result.1 = true ->
      executed.1.2 = gin.emit (gin.WrapWriter "circuit_breaker") c
      /\ executed.2 = None).
Proof.
  intros cb result executed.
  assert (Hexec : executed
                  = ((circuitbreaker.Execute now p c).1.1,
                     if result.1
                     then gin.emit (gin.WrapWriter "circuit_breaker") c
                     else gin.Abort (gin.emit (gin.JSON 503 gin.H_error_unavailable) c),
                     None)).
  { unfold executed, circuitbreaker.Execute. fold cb. fold result.
    destruct result as [[|] cb']; reflexivity. }
  split; [|split; [|split; [|split]]].
  - intros Hclosed. unfold result, circuitbreaker.allowRequest.
    rewrite Hclosed. reflexivity.
  - intros Hopen Hyoung. unfold result, circuitbreaker.allowRequest.
    rewrite Hopen, Hyoung. split; [reflexivity|exact Hopen].
  - intros Hhalf. unfold result, circuitbreaker.allowRequest.
    rewrite Hhalf. reflexivity.
  - intros Hdenied. rewrite Hexec, Hdenied. cbn [fst snd].
    split; [reflexivity|]. split; [reflexivity|].
    intros env route r.
    rewrite afterChain_no_proxy by (left; reflexivity).
    rewrite proxied_Abort, proxied_emit. apply orb_false_r.
  - intros Hadmitted. rewrite Hexec, Hadmitted. cbn [fst snd].
    split; reflexivity.
Qed.

Lemma breaker_admission_witness :
  let p := sample.breaker_open in
  let c := sample.breaker_context in
  let cb := circuitbreaker.getCircuitBreaker (sample.t0 + 2) (circuitbreaker.targetOf c) p in
  circuitbreaker.state cb = circuitbreaker.StateOpen
  /\ (circuitbreaker.allowRequest (sample.t0 + 2) cb).1 = false
  /\ (circuitbreaker.Execute (sample.t0 + 2) p c).1.2
     = gin.Abort (gin.emit (gin.JSON 503 gin.H_error_unavailable) c).
Proof.
  cbv zeta.
  destruct (breaker_admission (sample.t0 + 2) sample.breaker_open sample.breaker_context)
    as (_ & Hopen & _ & Hdeny & _).
  assert (Hs : circuitbreaker.state
                 (circuitbreaker.getCircuitBreaker (sample.t0 + 2)
                    (circuitbreaker.targetOf sample.breaker_context) sample.breaker_open)
               = circuitbreaker.StateOpen) by (vm_compute; reflexivity).
  destruct (Hopen Hs) as [Hfalse _]; [vm_compute; reflexivity|].
  split; [exact Hs|]. split; [exact Hfalse|].
  apply Hdeny. exact Hfalse.
Defined.


(* ================================================================== *)
(** * External validator                                                *)
(* ================================================================== *)

Lemma take_bytes_length (n : nat) (s : string) :
  (String.length (Go.take_bytes n s) <= n)%nat.
Proof.
  revert s. induction n as [|n IH]; intros s; cbn; [lia|].
  destruct s as [|ch s]; cbn; [lia|]. specialize (IH s). lia.
Qed.

Lemma take_bytes_idem (n : nat) (s : string) :
  Go.take_bytes n (Go.take_bytes n s) = Go.take_bytes n s.
Proof.
  revert s. induction n as [|n IH]; intros s; cbn; [reflexivity|].
  destruct s as [|ch s]; cbn; [reflexivity|]. now rewrite IH.
Qed.

Lemma length_zero_empty (s : string) : (String.length s =? 0)%nat = true <-> s = "".
Proof.
  destruct s; cbn; split; intros H; try reflexivity; discriminate.
Qed.

(** C6, as the specification states it, at a body that is neither
    "true" nor "false" and at a 404 of the auth service: the client
    receives 401 and 404, not 500. *)
Lemma unknown_body_is_not_500 :
  let pm := sample.manager_for sample.guarded in
  let w := sample.world ∅ in
  let answer reply :=
    gin.status_sent
      (main.handler (ext.with_auth reply sample.env) [sample.guarded] pm w sample.bearer).2 in
  answer (ext.Reply 200 ["maybe"]) = 401
  /\ answer (ext.Reply 404 ["Not Found"]) = 404.
Proof. cbv zeta. split; vm_compute; reflexivity. Qed.

(** C6, amended.  For a request that is not white-listed and carries a
    bearer token, the answer of the auth service decides: with status 200,
    a first read that trims to "false" passes the request and publishes
    plugin_result_interface_auth=success, one that trims to "true" rejects
    with 403, an empty one gives 500, any other gives 401; a status other
    than 200 is handed on as the status of the rejection; a transport
    failure gives 500.  Every rejection aborts the request and returns an
    error. *)
Theorem auth_service_decides
        (env : ext.Env) (p : interface_auth.Plugin) (c : gin.Context) :
  let token := interface_auth.getTokenFromAuthorizationHeader c in
  let url := interface_auth.authURL p token in
  let c1 := gin.emit (gin.AuthRequest url) c in
  let reject code message e :=
    (gin.Abort (gin.emit (gin.JSON code (gin.ErrorResponse code message)) c1), Some e) in
  interface_auth.isWhiteListed env p (gin.Path (gin.Req c)) = false ->
  token <> "" ->
  ext.url_Parse_ok env url = true ->
  match ext.authService env url with
  | ext.Unreachable =>
      interface_auth.Execute env p c
      = reject 500 "Auth service call failed" gin.ErrAuthCall
  | ext.Reply status reads =>
      let body := interface_auth.readOnce reads in
      (status <> 200 ->
       interface_auth.Execute env p c
       = reject status "Unauthorized: Invalid response" (gin.ErrAuthStatus status))
      /\ (status = 200 -> Go.TrimSpace body = "false" ->
          interface_auth.Execute env p c
          = (gin.Set_ "plugin_result_interface_auth" "success" c1, None))
      /\ (status = 200 -> Go.TrimSpace body = "true" ->
          interface_auth.Execute env p c
          = reject 403 "Forbidden: Access denied" gin.ErrAuthDenied)
      /\ (status = 200 -> body = "" ->
          interface_auth.Execute env p c
          = reject 500 "Internal error: no response body" gin.ErrAuthEmptyBody)
      /\ (status = 200 -> body <> "" ->
          Go.TrimSpace body <> "true" -> Go.TrimSpace body <> "false" ->
          interface_auth.Execute env p c
          = reject 401 "response Unknown Type" (gin.ErrAuthUnknown (Go.TrimSpace body)))
  end.
Proof.
  intros token url c1 reject Hwl Htok Hurl.
  assert (Hexec : interface_auth.Execute env p c
                  = match interface_auth.callAuthService env p c token with
                    | (c', Some e) => (c', Some e)
                    | (c', None) => (gin.Set_ "plugin_result_interface_auth" "success" c', None)
                    end).
  { unfold interface_auth.Execute. rewrite Hwl. fold token.
    apply String.eqb_neq in Htok. now rewrite Htok. }
  rewrite Hexec. unfold interface_auth.callAuthService. fold url. rewrite Hurl. cbn [negb].
  fold c1. destruct (ext.authService env url) as [|status reads]; [reflexivity|].
  cbv zeta. repeat split.
  - intros Hs. apply Z.eqb_neq in Hs. rewrite Hs. reflexivity.
  - intros -> Hf. cbn [Z.eqb negb Pos.eqb].
    destruct (String.length (interface_auth.readOnce reads) =? 0)%nat eqn:E.
    + apply length_zero_empty in E. rewrite E in Hf. discriminate.
    + rewrite Hf. reflexivity.
  - intros -> Ht. cbn [Z.eqb negb Pos.eqb].
    destruct (String.length (interface_auth.readOnce reads) =? 0)%nat eqn:E.
    + apply length_zero_empty in E. rewrite E in Ht. discriminate.
    + rewrite Ht. reflexivity.
  - intros -> He. cbn [Z.eqb negb Pos.eqb]. rewrite He. reflexivity.
  - intros -> Hne Ht Hf. cbn [Z.eqb negb Pos.eqb].
    destruct (String.length (interface_auth.readOnce reads) =? 0)%nat eqn:E.
    + apply length_zero_empty in E. contradiction.
    + apply String.eqb_neq in Ht, Hf. rewrite Ht, Hf. reflexivity.
Qed.

Lemma auth_service_decides_witness :
  let env := ext.with_auth (ext.Reply 200 [" false
"]) sample.env in
  let c := gin.New sample.bearer in
  interface_auth.Execute env sample.auth_plugin c
  = (gin.Set_ "plugin_result_interface_auth" "success"
       (gin.emit (gin.AuthRequest "http://auth:8080/check/T") c), None).
Proof.
  cbv zeta.
  pose proof (auth_service_decides
                (ext.with_auth (ext.Reply 200 [" false
"]) sample.env)
                sample.auth_plugin (gin.New sample.bearer)) as H.
  cbv zeta in H.
  destruct H as (_ & Hpass & _).
  - vm_compute. reflexivity.
  - vm_compute. discriminate.
  - vm_compute. reflexivity.
  - apply Hpass; vm_compute; reflexivity.
Defined.

(** C10, as the specification states it, at an empty body: the first
    read yields nothing, which is neither "true" nor "false", and the
    answer is classified as a missing body (500), not as an unknown
    response (401). *)
Lemma empty_first_read_is_not_unknown :
  let env := ext.with_auth (ext.Reply 200 []) sample.env in
  let body := interface_auth.readOnce [] in
  Go.TrimSpace body <> "true" /\ Go.TrimSpace body <> "false"
  /\ interface_auth.callAuthService env sample.auth_plugin (gin.New sample.bearer) "T"
     = interface_auth.fail interface_auth.ErrNoResponseBody gin.ErrAuthEmptyBody
         (gin.emit (gin.AuthRequest "http://auth:8080/check/T") (gin.New sample.bearer)).
Proof. cbv zeta. repeat split; vm_compute; try discriminate; reflexivity. Qed.

(** C10, amended.  The decision is computed from one read of at most
    1024 bytes: it is the decision for a body that consists of those bytes
    alone.  When they are not empty and trim to neither "true" nor
    "false", the answer is classified as an unknown response; when the
    read yields nothing, as a missing body. *)
Theorem auth_decision_from_first_read
        (env : ext.Env) (p : interface_auth.Plugin) (c : gin.Context)
        (token chunk : string) (more : list string) :
  let url := interface_auth.authURL p token in
  let body := Go.take_bytes 1024 chunk in
  let c1 := gin.emit (gin.AuthRequest url) c in
  ext.url_Parse_ok env url = true ->
  ext.authService env url = ext.Reply 200 (chunk :: more) ->
  (String.length body <= 1024)%nat
  /\ interface_auth.callAuthService env p c token
     = interface_auth.callAuthService (ext.with_auth (ext.Reply 200 [body]) env) p c token
  /\ (body <> "" -> Go.TrimSpace body <> "true" -> Go.TrimSpace body <> "false" ->
      interface_auth.callAuthService env p c token
      = interface_auth.fail interface_auth.ErrUnknownResponseType
          (gin.ErrAuthUnknown (Go.TrimSpace body)) c1)
  /\ (body = "" ->
      interface_auth.callAuthService env p c token
      = interface_auth.fail interface_auth.ErrNoResponseBody gin.ErrAuthEmptyBody c1).
Proof.
  intros url body c1 Hurl Hreply.
  split; [apply take_bytes_length|].
  unfold interface_auth.callAuthService. fold url. cbn [ext.with_auth ext.url_Parse_ok
    ext.authService]. rewrite Hurl, Hreply. cbn [negb Z.eqb Pos.eqb interface_auth.readOnce].
  fold body. fold c1.
  replace (Go.take_bytes 1024 body) with body by (symmetry; apply take_bytes_idem).
  split; [reflexivity|]. split.
  - intros Hne Ht Hf.
    destruct (String.length body =? 0)%nat eqn:E.
    + apply length_zero_empty in E. contradiction.
    + apply String.eqb_neq in Ht, Hf. rewrite Ht, Hf. reflexivity.
  - intros ->. reflexivity.
Qed.

Lemma auth_decision_from_first_read_witness :
  let env := ext.with_auth (ext.Reply 200 ["FALSE"; "false"]) sample.env in
  let c := gin.New sample.bearer in
  interface_auth.callAuthService env sample.auth_plugin c "T"
  = interface_auth.fail interface_auth.ErrUnknownResponseType (gin.ErrAuthUnknown "FALSE")
      (gin.emit (gin.AuthRequest "http://auth:8080/check/T") c).
Proof.
  cbv zeta.
  pose proof (auth_decision_from_first_read
                (ext.with_auth (ext.Reply 200 ["FALSE"; "false"]) sample.env)
                sample.auth_plugin (gin.New sample.bearer) "T" "FALSE" ["false"]) as H.
  cbv zeta in H.
  destruct H as (_ & _ & Hunknown & _).
  - vm_compute. reflexivity.
  - reflexivity.
  - apply Hunknown; vm_compute; discriminate.
Defined.

(** A body of 1024 blanks followed by "false", delivered in one piece:
    the verdict lies beyond the buffer and the answer is unknown. *)
Example verdict_beyond_the_buffer :
  let blanks := string_of_list_ascii (replicate 1024 " "%char) in
  let env := ext.with_auth (ext.Reply 200 [(blanks ++ "false")%string]) sample.env in
  (interface_auth.callAuthService env sample.auth_plugin (gin.New sample.bearer) "T").2
  = Some (gin.ErrAuthUnknown "").
Proof. cbv zeta. vm_compute. reflexivity. Qed.

(* ================================================================== *)
(** * Timestamp freshness                                               *)
(* ================================================================== *)

Lemma int64_id (z : Z) : Go.in_int64 z -> Go.int64 z = z.
Proof.
  unfold Go.in_int64, Go.MinInt64, Go.MaxInt64, Go.int64, Go.wrap. intros H.
  rewrite Z.mod_small; lia.
Qed.

Lemma int64_range (z : Z) : Go.in_int64 (Go.int64 z).
Proof.
  unfold Go.in_int64, Go.MinInt64, Go.MaxInt64, Go.int64, Go.wrap.
  pose proof (Z.mod_pos_bound (z + 2 ^ (64 - 1)) (2 ^ 64) ltac:(lia)). lia.
Qed.

(** A difference that overflows by less than [2^62] wraps far away from
    zero. *)
Lemma int64_wrapped_large (z : Z) :
  Go.MaxInt64 < z < 2 ^ 63 + 2 ^ 62 -> Go.int64 z < - 2 ^ 62.
Proof.
  unfold Go.MaxInt64, Go.int64, Go.wrap. intros H.
  replace (z + 2 ^ (64 - 1)) with ((z - 2 ^ 63) + 1 * 2 ^ 64) by lia.
  rewrite Z.mod_add by lia. rewrite Z.mod_small; lia.
Qed.

Lemma float64_of_int_exact (z : Z) : Z.abs z < 2 ^ 53 -> Go.float64_of_int z = z.
Proof.
  intros H. unfold Go.float64_of_int.
  destruct (Z.abs z <? 2 ^ 53) eqn:E; [reflexivity|lia].
Qed.

Lemma float64_of_int_large (z : Z) :
  2 ^ 53 <= Z.abs z -> 2 ^ 53 <= Z.abs (Go.float64_of_int z).
Proof.
  intros H. unfold Go.float64_of_int.
  destruct (Z.abs z <? 2 ^ 53) eqn:E; [lia|]. clear E.
  set (a := Z.abs z) in *.
  assert (Hlog : 53 <= Z.log2 a).
  { change 53 with (Z.log2 (2 ^ 53)). apply Z.log2_le_mono. exact H. }
  set (e := Z.log2 a - 52).
  assert (He : 1 <= e) by (unfold e; lia).
  assert (Hpow : 0 < 2 ^ e) by (apply Z.pow_pos_nonneg; lia).
  assert (Hq : 2 ^ 52 <= a / 2 ^ e).
  { apply Z.div_le_lower_bound; [exact Hpow|].
    rewrite <- Z.pow_add_r by lia.
    replace (e + 52) with (Z.log2 a) by (unfold e; lia).
    apply Z.log2_spec. lia. }
  set (q := a / 2 ^ e) in *.
  assert (H2 : 2 <= 2 ^ e).
  { change 2 with (2 ^ 1) at 1. apply Z.pow_le_mono_r; lia. }
  assert (Hz : Z.abs (Z.sgn z) = 1) by lia.
  rewrite Z.abs_mul, Hz, Z.mul_1_l.
  assert (Hprod : forall q', q <= q' -> 2 ^ 53 <= Z.abs (q' * 2 ^ e)).
  { intros q' Hq'. rewrite Z.abs_eq by (apply Z.mul_nonneg_nonneg; lia).
    change (2 ^ 53) with (2 ^ 52 * 2). apply Z.mul_le_mono_nonneg; lia. }
  destruct (_ || _); apply Hprod; lia.
Qed.

Lemma ParseInt_range (s : string) (v : Z) : Go.ParseInt s = Some v -> Go.in_int64 v.
Proof.
  unfold Go.ParseInt. destruct s as [|ch s]; [discriminate|].
  destruct (if Ascii.eqb ch "+" then _ else _) as [neg body].
  destruct (Go.parseUnsigned body) as [un|]; [|discriminate].
  destruct (_ && _) eqn:E; [|discriminate].
  intros [= <-]. unfold Go.in_int64. lia.
Qed.

(** [Init] takes [timestamp_validity] only from an [int64] value; the
    [int] a YAML file decodes to leaves the default of 300 seconds. *)
Example Init_keeps_default_validity :
  (fun p => consistency.TimestampValidity (consistency.config p))
    <$> consistency.Init (Some {[ "timestamp_validity" := config.VInt 600 ]})
                         consistency.New
  = Some 300.
Proof. vm_compute. reflexivity. Qed.



(* ================================================================== *)
(** * Rate limiter                                                      *)
(* ================================================================== *)

(** C5.  Evaluation of the limiter with one token per thousand seconds
    and burst 2 on [sample.traffic]: no call of [allow] adds a token, so
    [lastRefill] stays at the creation of the bucket although the key is
    in use; the janitor drops the bucket, the next request gets a full
    one, and three requests are admitted within one second, more than
    rate + burst. *)
Theorem eviction_refills_the_bucket :
  let p := sample.limiter (1 # 1000) 2 in
  let fresh := ratelimit.newBucket sample.t0 p in
  let times := ratelimit.run "/api/x" p sample.traffic in
  times = [sample.t0;
           sample.t0 + 301 * Go.Second;
           sample.t0 + 301 * Go.Second + 200 * sample.ms;
           sample.t0 + 301 * Go.Second + 300 * sample.ms]
  /\ ratelimit.count_in_window (sample.t0 + 301 * Go.Second) times = 3
  /\ (ratelimit.rate fresh + inject_Z (ratelimit.capacity fresh) < inject_Z 3)%Q.
Proof. cbv zeta. repeat split; vm_compute; reflexivity. Qed.

(** Without the janitor the same requests stay within the bound. *)
Example no_eviction_no_excess :
  ratelimit.run "/api/x" (sample.limiter (1 # 1000) 2)
    [sample.hit sample.t0;
     sample.hit (sample.t0 + 301 * Go.Second);
     sample.hit (sample.t0 + 301 * Go.Second + 200 * sample.ms);
     sample.hit (sample.t0 + 301 * Go.Second + 300 * sample.ms)]
  = [sample.t0; sample.t0 + 301 * Go.Second].
Proof. vm_compute. reflexivity. Qed.

Section Bucket.
Variables (a : Z) (b : positive) (cap : Z).
Hypothesis Ha : 0 <= a.
Hypothesis Hcap : 0 <= cap.
Variable T : Z.
Hypothesis HT : T <= Go.MaxInt64.
Hypothesis Hovf : cap + T * a / (Go.Second * Zpos b) <= Go.MaxInt64.

Let D : Z := Go.Second * Zpos b.

Abbreviation wf := (ratelimit.wf a b cap T).
Abbreviation potential := (ratelimit.potential D a).
Abbreviation budget := (ratelimit.budget D a cap).
Abbreviation ready := (ratelimit.ready a b cap T).
Abbreviation one := ratelimit.one.

Lemma D_pos : 0 < D.
Proof. unfold D, Go.Second. lia. Qed.

Lemma tokensToAdd_eq (t : Z) (bk : ratelimit.TokenBucket) :
  wf t bk ->
  ratelimit.tokensToAdd t bk = (t - ratelimit.lastRefill bk) * a / D.
Proof.
  intros (Hr & _ & _ & HL & Ht).
  unfold ratelimit.tokensToAdd, Go.int64_of_float. rewrite Hr.
  rewrite int64_id by (unfold Go.in_int64, Go.MinInt64, Go.MaxInt64 in *; lia).
  cbn [Qnum Qden Qmult Qdiv Qinv inject_Z Go.Second].
  set (d := t - ratelimit.lastRefill bk).
  rewrite Z.quot_div_nonneg.
  - unfold D, Go.Second. f_equal; lia.
  - assert (0 <= d) by (unfold d; lia). nia.
  - lia.
Qed.

Lemma allow_step (t : Z) (bk : ratelimit.TokenBucket) :
  wf t bk ->
  let ok := (ratelimit.allow t bk).1 in
  let bk' := (ratelimit.allow t bk).2 in
  wf t bk'
  /\ potential t bk' + D * one ok <= potential t bk
  /\ one ok <= cap
  /\ (1 <= cap -> ratelimit.tokens bk' <= cap - 1)
  /\ (1 <= cap -> ratelimit.tokens bk <= cap - 1 \/ ratelimit.lastRefill bk = t ->
      potential t bk' + D * one ok <= D * cap).
Proof.
  intros Hwf. pose proof (tokensToAdd_eq t bk Hwf) as Hn.
  destruct Hwf as (Hr & Hc & Htok & HL & Ht).
  pose proof D_pos as HD.
  set (d := t - ratelimit.lastRefill bk) in *.
  assert (Hd : 0 <= d <= T) by (unfold d; lia).
  set (n := d * a / D) in *.
  assert (Hn1 : D * n <= d * a) by (apply Z.mul_div_le; exact HD).
  assert (Hn2 : d * a < D * n + D).
  { pose proof (Z.mul_succ_div_gt (d * a) D HD). unfold n. lia. }
  assert (Hn0 : 0 <= n) by (apply Z.div_pos; [nia|exact HD]).
  assert (HnT : n <= T * a / D).
  { apply Z.div_le_mono; [exact HD|nia]. }
  assert (HTa : 0 <= T * a / D) by (apply Z.div_pos; [nia|exact HD]).
  assert (Hfull : cap + T * a / D <= 2 ^ 63 - 1) by exact Hovf.
  unfold ratelimit.allow, ratelimit.refill. rewrite Hn.
  destruct (0 <? n) eqn:En; cbn [ratelimit.tokens ratelimit.rate ratelimit.capacity
                                  ratelimit.lastRefill].
  - assert (Hsum : Go.int64 (ratelimit.tokens bk + n) = ratelimit.tokens bk + n).
    { apply int64_id. unfold Go.in_int64, Go.MinInt64, Go.MaxInt64. lia. }
    rewrite Hsum, Hc. unfold ratelimit.min.
    set (tk := if cap <? ratelimit.tokens bk + n then cap else ratelimit.tokens bk + n).
    assert (Htk : 0 <= tk <= cap /\ tk <= ratelimit.tokens bk + n).
    { unfold tk. destruct (cap <? _) eqn:E; lia. }
    destruct (0 <? tk) eqn:Etk; cbn; unfold ratelimit.wf, ratelimit.potential, ratelimit.one; cbn.
    + rewrite int64_id by (unfold Go.in_int64, Go.MinInt64, Go.MaxInt64; lia).
      repeat split; try assumption; try lia; try nia.
    + repeat split; try assumption; try lia; try nia.
  - assert (n = 0) by lia.
    destruct (0 <? ratelimit.tokens bk) eqn:Etk; cbn; unfold ratelimit.wf, ratelimit.potential, ratelimit.one; cbn.
    + rewrite int64_id by (unfold Go.in_int64, Go.MinInt64, Go.MaxInt64; lia).
      fold d. repeat split; try assumption; try lia; try nia.
    + fold d. repeat split; try assumption; try lia; try nia.
Qed.

Lemma wf_later (t t' : Z) (bk : ratelimit.TokenBucket) :
  wf t bk -> t <= t' <= T -> wf t' bk.
Proof. unfold ratelimit.wf. intros (? & ? & ? & ? & ?) ?. repeat split; try assumption; lia. Qed.

Lemma potential_later (t t' : Z) (bk : ratelimit.TokenBucket) :
  potential t' bk = potential t bk + a * (t' - t).
Proof. unfold ratelimit.potential. lia. Qed.

Lemma potential_nonneg (t : Z) (bk : ratelimit.TokenBucket) :
  wf t bk -> 0 <= potential t bk.
Proof.
  intros (_ & _ & ? & ? & _). pose proof D_pos. unfold ratelimit.potential. nia.
Qed.

Lemma bucket_run_Forall (P : Z -> Prop) (bk : ratelimit.TokenBucket) (ts : list Z) :
  Forall P ts -> Forall P (ratelimit.bucket_run bk ts).
Proof.
  intros H. revert bk. induction H as [|t ts Ht _ IH]; intros bk; cbn; [constructor|].
  destruct (ratelimit.allow t bk) as [[|] bk']; [constructor; [exact Ht|]|]; apply IH.
Qed.

(** The window under consideration starts at [s]. *)
Variable s : Z.

Lemma count_cons (t : Z) (l : list Z) :
  ratelimit.count_in_window s (t :: l)
  = (if decide (s <= t < s + Go.Second) then 1 else 0) + ratelimit.count_in_window s l.
Proof.
  unfold ratelimit.count_in_window. rewrite filter_cons.
  destruct (decide _); cbn [length]; lia.
Qed.

Lemma count_outside (l : list Z) :
  Forall (fun t => ~ (s <= t < s + Go.Second)) l -> ratelimit.count_in_window s l = 0.
Proof.
  induction 1 as [|t l Ht _ IH]; [reflexivity|].
  rewrite count_cons, IH. destruct (decide _); [contradiction|reflexivity].
Qed.

Lemma count_nonneg (l : list Z) : 0 <= ratelimit.count_in_window s l.
Proof. unfold ratelimit.count_in_window. lia. Qed.

(** Past the first request of the window: admissions so far and the
    potential together stay below what the capacity and the elapsed part
    of the window allow. *)
Lemma inside_window (ts : list Z) :
  forall (bk : ratelimit.TokenBucket) (t W : Z),
    wf t bk ->
    StronglySorted Z.le (t :: ts) ->
    Forall (fun t' => t' <= T) ts ->
    s <= t < s + Go.Second ->
    0 <= W ->
    D * W + potential t bk <= D * cap + a * (t - s) ->
    D * (W + ratelimit.count_in_window s (ratelimit.bucket_run bk ts)) <= budget.
Proof.
  induction ts as [|t' ts IH]; intros bk t W Hwf Hsort HT' Hin HW Hinv.
  - pose proof (potential_nonneg t bk Hwf). unfold ratelimit.budget.
    cbn [ratelimit.bucket_run]. rewrite (count_outside []) by constructor.
    unfold Go.Second in *. nia.
  - apply StronglySorted_inv in Hsort as [Hsort Hle].
    pose proof (Forall_inv Hle) as Htt'. cbn beta in Htt'.
    pose proof (Forall_inv HT') as Ht'T. cbn beta in Ht'T.
    pose proof (Forall_inv_tail HT') as HT''.
    destruct (decide (t' < s + Go.Second)) as [Hw|Hw].
    + assert (Hwf' : wf t' bk) by (eapply wf_later; [exact Hwf|lia]).
      pose proof (allow_step t' bk Hwf') as (Hwf2 & Hpot & _).
      cbn [ratelimit.bucket_run].
      destruct (ratelimit.allow t' bk) as [ok bk'] eqn:E. cbn [fst snd] in *.
      rewrite (potential_later t t' bk) in Hpot.
      assert (Hcount :
        W + ratelimit.count_in_window s (if ok then t' :: ratelimit.bucket_run bk' ts
                                         else ratelimit.bucket_run bk' ts)
        = (W + one ok) + ratelimit.count_in_window s (ratelimit.bucket_run bk' ts)).
      { destruct ok; cbn [ratelimit.one]; [|lia]. rewrite count_cons.
        destruct (decide _); lia. }
      rewrite Hcount. apply (IH bk' t' (W + one ok)); try assumption.
      * lia.
      * unfold ratelimit.one. destruct ok; lia.
      * nia.
    + pose proof (potential_nonneg t bk Hwf). unfold ratelimit.budget.
      rewrite count_outside.
      * nia.
      * apply bucket_run_Forall. constructor; [lia|].
        apply StronglySorted_inv in Hsort as [_ Hle'].
        eapply Forall_impl; [exact Hle'|]. cbn. intros. lia.
Qed.

Lemma budget_nonneg : 0 <= budget.
Proof. pose proof D_pos. unfold ratelimit.budget, Go.Second. nia. Qed.

Lemma zero_capacity (ts : list Z) :
  forall bk : ratelimit.TokenBucket,
    cap = 0 -> match ts with [] => True | t :: _ => wf t bk end ->
    StronglySorted Z.le ts -> Forall (fun t => t <= T) ts ->
    ratelimit.bucket_run bk ts = [].
Proof.
  induction ts as [|t ts IH]; intros bk Hzero Hwf Hsort HT'; [reflexivity|].
  pose proof (allow_step t bk Hwf) as (Hwf2 & _ & Hone & _).
  cbn [ratelimit.bucket_run].
  destruct (ratelimit.allow t bk) as [ok bk'] eqn:E. cbn [fst snd] in *.
  destruct ok; [unfold ratelimit.one in Hone; lia|].
  apply StronglySorted_inv in Hsort as [Hsort Hle].
  apply IH; try assumption; [|now apply Forall_inv_tail in HT'].
  destruct ts as [|t' ts']; [exact I|].
  eapply wf_later; [exact Hwf2|].
  apply Forall_inv in Hle. apply Forall_inv_tail, Forall_inv in HT'. lia.
Qed.

Lemma before_window (ts : list Z) :
  forall bk : ratelimit.TokenBucket,
    1 <= cap -> ready bk ts ->
    StronglySorted Z.le ts -> Forall (fun t => t <= T) ts ->
    D * ratelimit.count_in_window s (ratelimit.bucket_run bk ts) <= budget.
Proof.
  induction ts as [|t ts IH]; intros bk Hcap1 Hready Hsort HT'.
  - cbn [ratelimit.bucket_run]. rewrite (count_outside []) by constructor.
    pose proof budget_nonneg. lia.
  - destruct Hready as [Hwf Hb].
    pose proof (allow_step t bk Hwf) as (Hwf2 & _ & _ & HJ & HB).
    specialize (HJ Hcap1). specialize (HB Hcap1 Hb).
    cbn [ratelimit.bucket_run].
    destruct (ratelimit.allow t bk) as [ok bk'] eqn:E. cbn [fst snd] in *.
    pose proof (Forall_inv HT') as HtT. cbn beta in HtT.
    pose proof (Forall_inv_tail HT') as HT''.
    destruct (decide (s <= t < s + Go.Second)) as [Hin|Hout].
    + assert (Hcount :
        ratelimit.count_in_window s (if ok then t :: ratelimit.bucket_run bk' ts
                                     else ratelimit.bucket_run bk' ts)
        = one ok + ratelimit.count_in_window s (ratelimit.bucket_run bk' ts)).
      { destruct ok; cbn [ratelimit.one]; [|lia]. rewrite count_cons.
        destruct (decide _); [reflexivity|contradiction]. }
      rewrite Hcount. apply (inside_window ts bk' t (one ok)); try assumption.
      * unfold ratelimit.one. destruct ok; lia.
      * nia.
    + assert (Hcount :
        ratelimit.count_in_window s (if ok then t :: ratelimit.bucket_run bk' ts
                                     else ratelimit.bucket_run bk' ts)
        = ratelimit.count_in_window s (ratelimit.bucket_run bk' ts)).
      { destruct ok; [|reflexivity]. rewrite count_cons.
        destruct (decide _); [contradiction|reflexivity]. }
      rewrite Hcount.
      apply StronglySorted_inv in Hsort as [Hsort Hle].
      apply IH; try assumption.
      destruct ts as [|t' ts']; [exact I|]. split.
      * eapply wf_later; [exact Hwf2|].
        apply Forall_inv in Hle. apply Forall_inv in HT''. lia.
      * left. exact HJ.
Qed.

(** Admissions of one bucket within the window, scaled by [D]. *)
Lemma bucket_bound (bk : ratelimit.TokenBucket) (ts : list Z) :
  ready bk ts ->
  StronglySorted Z.le ts -> Forall (fun t => t <= T) ts ->
  Zpos b * ratelimit.count_in_window s (ratelimit.bucket_run bk ts) <= Zpos b * cap + a.
Proof.
  intros Hready Hsort HT'.
  destruct (Z_le_gt_dec 1 cap) as [Hcap1|Hcap0].
  - pose proof (before_window ts bk Hcap1 Hready Hsort HT') as H.
    unfold ratelimit.budget, D, Go.Second in H.
    set (n := ratelimit.count_in_window s _) in *. nia.
  - rewrite zero_capacity; try assumption; try lia.
    + rewrite (count_outside []) by constructor. nia.
    + destruct ts; [exact I|apply Hready].
Qed.
End Bucket.

(** ** From the plug-in to one bucket *)

Lemma times_for_config (key : string) (p p' : ratelimit.RateLimitPlugin)
      (evs : list ratelimit.event) :
  ratelimit.config p = ratelimit.config p' -> ratelimit.times_for key p evs = ratelimit.times_for key p' evs.
Proof.
  intros H. induction evs as [|[t r|t] rest IH]; cbn; [reflexivity| |exact IH].
  unfold ratelimit.getLimitKey. rewrite H, IH. reflexivity.
Qed.

Lemma newBucket_config (t : Z) (p p' : ratelimit.RateLimitPlugin) :
  ratelimit.config p = ratelimit.config p' -> ratelimit.newBucket t p = ratelimit.newBucket t p'.
Proof. intros H. unfold ratelimit.newBucket. now rewrite H. Qed.

Lemma Execute_effect (t : Z) (p : ratelimit.RateLimitPlugin) (r : gin.Request) :
  let key := ratelimit.getLimitKey p (gin.New r) in
  let bk := ratelimit.bucket_for key p [t] in
  let result := ratelimit.Execute t p (gin.New r) in
  ratelimit.config result.1.1 = ratelimit.config p
  /\ ratelimit.buckets result.1.1
     = <[key := (ratelimit.allow t bk).2]> (ratelimit.buckets p)
  /\ ratelimit.admitted result.1.2 = (ratelimit.allow t bk).1.
Proof.
  cbv zeta. unfold ratelimit.Execute, ratelimit.getBucket, ratelimit.bucket_for.
  set (key := ratelimit.getLimitKey p (gin.New r)).
  destruct (ratelimit.buckets p !! key) as [bk|] eqn:E; cbn [head default].
  - destruct (ratelimit.allow t bk) as [[|] bk'] eqn:Ea; cbn; rewrite ?Ea; cbn;
      repeat split; reflexivity.
  - destruct (ratelimit.allow t (ratelimit.newBucket t p)) as [[|] bk'] eqn:Ea; cbn;
      rewrite ?Ea; cbn; rewrite insert_insert_eq; repeat split; reflexivity.
Qed.

Lemma run_is_bucket_run (key : string) (evs : list ratelimit.event) :
  forall p : ratelimit.RateLimitPlugin,
    Forall ratelimit.is_request evs ->
    ratelimit.run key p evs
    = ratelimit.bucket_run (ratelimit.bucket_for key p (ratelimit.times_for key p evs)) (ratelimit.times_for key p evs).
Proof.
  induction evs as [|[t r|t] rest IH]; intros p Hreq; [reflexivity| |].
  - apply Forall_cons in Hreq as [_ Hreq].
    pose proof (Execute_effect t p r) as (Hcfg & Hb & Hadm). cbv zeta in *.
    cbn [ratelimit.run ratelimit.times_for].
    destruct (ratelimit.Execute t p (gin.New r)) as [[p' c'] e] eqn:Ex. cbn [fst snd] in *.
    rewrite (IH p' Hreq), (times_for_config key p' p) by exact Hcfg.
    destruct (String.eqb (ratelimit.getLimitKey p (gin.New r)) key) eqn:Ek.
    + apply String.eqb_eq in Ek. rewrite Ek in *. cbn [andb].
      rewrite Hadm.
      assert (Hsame : ratelimit.bucket_for key p (t :: ratelimit.times_for key p rest) = ratelimit.bucket_for key p [t]).
      { unfold ratelimit.bucket_for. destruct (ratelimit.buckets p !! key); reflexivity. }
      cbn [ratelimit.bucket_run]. rewrite Hsame.
      destruct (ratelimit.allow t (ratelimit.bucket_for key p [t])) as [ok bk'] eqn:Ea.
      cbn [fst snd] in *.
      assert (Hnext : ratelimit.bucket_for key p' (ratelimit.times_for key p rest) = bk').
      { unfold ratelimit.bucket_for. rewrite Hb, lookup_insert_eq. reflexivity. }
      rewrite Hnext. reflexivity.
    + apply String.eqb_neq in Ek. cbn [andb].
      f_equal. unfold ratelimit.bucket_for. rewrite Hb, lookup_insert_ne by exact Ek.
      destruct (ratelimit.buckets p !! key); [reflexivity|].
      apply newBucket_config. exact Hcfg.
  - apply Forall_cons in Hreq as [[] _].
Qed.

Lemma times_for_sorted (key : string) (p : ratelimit.RateLimitPlugin)
      (evs : list ratelimit.event) :
  StronglySorted Z.le (map ratelimit.time_of evs) ->
  StronglySorted Z.le (ratelimit.times_for key p evs).
Proof.
  assert (Hsub : forall (P : Z -> Prop) l,
             Forall P (map ratelimit.time_of l) -> Forall P (ratelimit.times_for key p l)).
  { intros P l. induction l as [|[t r|t] rest IH]; cbn; intros H;
      [constructor| |apply IH; now apply Forall_inv_tail in H].
    destruct (String.eqb _ key);
      [constructor; [now apply Forall_inv in H|]|]; apply IH; now apply Forall_inv_tail in H. }
  induction evs as [|[t r|t] rest IH]; cbn; intros H; [constructor| |].
  - apply StronglySorted_inv in H as [Hs Hle].
    destruct (String.eqb _ key); [|now apply IH].
    constructor; [now apply IH|now apply Hsub].
  - apply StronglySorted_inv in H as [Hs _]. now apply IH.
Qed.

Lemma times_for_Forall (P : Z -> Prop) (key : string) (p : ratelimit.RateLimitPlugin)
      (evs : list ratelimit.event) :
  Forall (fun e => P (ratelimit.time_of e)) evs -> Forall P (ratelimit.times_for key p evs).
Proof.
  induction 1 as [|[t r|t] rest Ht _ IH]; cbn; [constructor| |exact IH].
  destruct (String.eqb _ key); [constructor; [exact Ht|exact IH]|exact IH].
Qed.



(* ================================================================== *)
(** * The dispatcher, further properties                                *)
(* ================================================================== *)

(** The route the dispatcher of [registerRoutes] picks for a path, after
    it has sorted the configured routes: a configured route whose path
    rule matches and whose priority no other path-matching route
    exceeds; it picks none exactly when no configured route matches the
    path. *)
Theorem dispatcher_selects_highest_priority (cfg : config.Config) (path : string) :
  match main.findRoute (main.sortedRoutes cfg) path with
  | Some r =>
      r ∈ config.Routes cfg
      /\ main.matchRoute path (config.Match r) = true
      /\ forall r', r' ∈ config.Routes cfg ->
                    main.matchRoute path (config.Match r') = true ->
                    config.Priority (config.Match r') <= config.Priority (config.Match r)
  | None =>
      forall r', r' ∈ config.Routes cfg ->
                 main.matchRoute path (config.Match r') = false
  end.
Proof.
  pose proof (sortedRoutes_sorted cfg) as Hsorted.
  exact (findRoute_highest_priority (config.Routes cfg) (main.sortedRoutes cfg) path Hsorted).
Qed.

Lemma HasPrefix_app (p rest : string) : Go.HasPrefix (p ++ rest) p = true.
Proof.
  induction p as [|a p IH]; [destruct rest; reflexivity|].
  change (String a p ++ rest)%string with (String a (p ++ rest)).
  cbn [Go.HasPrefix]. now rewrite Ascii.eqb_refl.
Qed.

Lemma drop_bytes_app (p rest : string) :
  Go.drop_bytes (String.length p) (p ++ rest) = rest.
Proof.
  induction p as [|a p IH]; [reflexivity|].
  change (String a p ++ rest)%string with (String a (p ++ rest)). exact IH.
Qed.

Lemma TrimPrefix_app (p rest : string) : Go.TrimPrefix (p ++ rest) p = rest.
Proof. unfold Go.TrimPrefix. now rewrite HasPrefix_app, drop_bytes_app. Qed.

(** For a prefix route other than "/", the path sent upstream is what
    follows the route's prefix in the request path, with a slash put in
    front unless it already starts with one; so it always starts with a
    slash.  Every other route forwards the request path as it is. *)
Theorem proxyPath_strips_prefix (route : config.RouteConfig) (rest : string) :
  let m := config.Match route in
  let forwarded := main.proxyPath route (config.RouteMatch_Path m ++ rest) in
  (config.Type_ m = "prefix" -> config.RouteMatch_Path m <> "/" ->
   forwarded = (if Go.HasPrefix rest "/" then rest else "/" ++ rest)%string
   /\ Go.HasPrefix forwarded "/" = true)
  /\ (config.Type_ m <> "prefix" \/ config.RouteMatch_Path m = "/" ->
      forwarded = (config.RouteMatch_Path m ++ rest)%string).
Proof.
  intros m forwarded. unfold forwarded, main.proxyPath. fold m. split.
  - intros Ht Hp. apply String.eqb_eq in Ht. apply String.eqb_neq in Hp.
    rewrite Ht, Hp, TrimPrefix_app. cbn [andb negb].
    destruct (Go.HasPrefix rest "/") eqn:E; [split; [reflexivity|exact E]|].
    split; [reflexivity|apply (HasPrefix_app "/" rest)].
  - intros [Ht|Hp].
    + apply String.eqb_neq in Ht. rewrite Ht. reflexivity.
    + apply String.eqb_eq in Hp. rewrite Hp, andb_false_r. reflexivity.
Qed.

Lemma forward_proxied (env : ext.Env) (route : config.RouteConfig) (c : gin.Context) :
  main.proxied (main.forward env route c)
  = main.proxied c || ext.url_Parse_ok env (config.URL (config.Target route)).
Proof.
  unfold main.forward.
  destruct (ext.url_Parse_ok env _); cbn [negb].
  - destruct (ext.upstream_ok env _ _);
      rewrite proxied_Abort, ?proxied_emit; cbn [gin.is_proxy];
      now rewrite ?orb_false_r.
  - rewrite proxied_Abort, proxied_emit. cbn [gin.is_proxy]. reflexivity.
Qed.

(** The upstream is called for a request only when a route matched its
    path, the route's chain returned no error and left the request
    unaborted, the target is not internal and its URL parses; the
    plug-ins themselves never call it. *)
Theorem upstream_only_after_clean_chain
        (env : ext.Env) (routes : list config.RouteConfig) (pm : plugin.Manager)
        (w : plugin.World) (req : gin.Request) :
  plugin.only_builtin pm ->
  main.proxied (main.handler env routes pm w req).2 = true ->
  exists route,
    main.findRoute routes (gin.Path req) = Some route
    /\ (let after :=
          plugin.Manager_Execute env pm w
            (gin.Set_ "target" (config.URL (config.Target route)) (gin.New req))
            (config.RouteConfig_Name route) in
        after.2 = None /\ gin.IsAborted after.1.2 = false)
    /\ Go.HasPrefix (config.URL (config.Target route)) "internal://" = false
    /\ ext.url_Parse_ok env (config.URL (config.Target route)) = true.
Proof.
  intros Hpm. unfold main.handler.
  destruct (main.findRoute routes (gin.Path req)) as [route|]; [|discriminate].
  pose proof (Manager_Execute_quiet env pm w
                (gin.Set_ "target" (config.URL (config.Target route)) (gin.New req))
                (config.RouteConfig_Name route) Hpm) as Hq.
  destruct (plugin.Manager_Execute _ _ _ _ _) as [[w1 c1] r] eqn:Ex. cbn [fst snd] in *.
  assert (H0 : main.proxied c1 = false) by (rewrite Hq; reflexivity).
  intros H. exists route. split; [reflexivity|]. cbv zeta. rewrite Ex. cbn [fst snd].
  destruct r as [e|].
  - rewrite (afterChain_no_proxy env route c1 (Some e)) in H by (right; discriminate).
    congruence.
  - unfold main.afterChain in H.
    destruct (gin.IsAborted c1) eqn:Hab; [congruence|].
    destruct (Go.HasPrefix _ "internal://") eqn:Hint.
    + rewrite proxied_Abort in H. unfold main.internalResponse in H.
      destruct (config.Response route); rewrite ?proxied_emit, H0 in H; discriminate.
    + rewrite forward_proxied, H0 in H. cbn [orb] in H.
      split; [split; reflexivity|]. split; [reflexivity|exact H].
Qed.

Lemma upstream_only_after_clean_chain_witness :
  exists route,
    main.findRoute [sample.api] (gin.Path sample.bearer) = Some route
    /\ (let after :=
          plugin.Manager_Execute sample.env plugin.NewManager plugin.initial
            (gin.Set_ "target" (config.URL (config.Target route)) (gin.New sample.bearer))
            (config.RouteConfig_Name route) in
        after.2 = None /\ gin.IsAborted after.1.2 = false)
    /\ Go.HasPrefix (config.URL (config.Target route)) "internal://" = false
    /\ ext.url_Parse_ok sample.env (config.URL (config.Target route)) = true.
Proof.
  apply (upstream_only_after_clean_chain sample.env [sample.api] plugin.NewManager
           plugin.initial sample.bearer).
  - intros routeName ch H. vm_compute in H. discriminate.
  - vm_compute. reflexivity.
Defined.

(* ================================================================== *)
(** * Router manager: trie, path cache and scan                         *)
(* ================================================================== *)

Lemma matchParts_emptyNode (parts : list string) :
  router.matchParts parts router.emptyNode = None.
Proof. destruct parts; reflexivity. Qed.

Lemma matchParts_insertParts_same (parts : list string) (route : router.RouteDefinition) :
  forall node, router.matchParts parts (router.insertParts parts route node) = Some route.
Proof.
  induction parts as [|part rest IH]; intros [children r e]; cbn; [reflexivity|].
  rewrite lookup_insert_eq. apply IH.
Qed.

Lemma matchParts_insertParts_other (parts : list string) (route : router.RouteDefinition) :
  forall parts' node,
    parts' <> parts ->
    router.matchParts parts' (router.insertParts parts route node)
    = router.matchParts parts' node.
Proof.
  induction parts as [|part rest IH]; intros parts' [children r e] Hne.
  - destruct parts' as [|q qs]; [congruence|reflexivity].
  - destruct parts' as [|q qs]; [reflexivity|]. cbn.
    destruct (decide (part = q)) as [->|Hq].
    + rewrite lookup_insert_eq, IH by congruence.
      destruct (children !! q) as [child|]; [reflexivity|].
      apply matchParts_emptyNode.
    + now rewrite lookup_insert_ne.
Qed.


(** Set and Get of the path cache, for every order in which the map
    may be iterated: the key just set is found, a key that is neither
    set nor evicted keeps its entry, and a cache of capacity at least
    one that held no more entries than its capacity still does.  The
    cache of the model is one of these. *)
Theorem RouteCache_Set_then_Get (key : string) (route : router.RouteDefinition)
        (rc : router.RouteCache) :
  (exists victim,
      routes.first_of rc victim
      /\ router.RouteCache_Set key route rc = routes.Set_evicting victim key route rc)
  /\ forall victim,
       routes.first_of rc victim ->
       let rc' := routes.Set_evicting victim key route rc in
       router.RouteCache_Get rc' key = Some route
       /\ router.cache_size rc' = router.cache_size rc
       /\ (forall other, other <> key -> victim <> Some other ->
                         router.RouteCache_Get rc' other = router.RouteCache_Get rc other)
       /\ (1 <= router.cache_size rc ->
           Z.of_nat (size (router.cache rc)) <= router.cache_size rc ->
           Z.of_nat (size (router.cache rc')) <= router.cache_size rc).
Proof.
  split.
  - unfold router.RouteCache_Set, routes.Set_evicting.
    destruct (map_to_list (router.cache rc)) as [|[k v] l] eqn:Hl.
    + exists None. split; [|reflexivity].
      now apply map_to_list_empty_iff in Hl.
    + exists (Some k). split; [|reflexivity].
      exists v. apply elem_of_map_to_list. rewrite Hl. left.
  - intros victim Hvictim. cbv zeta.
    unfold router.RouteCache_Get, routes.Set_evicting.
    cbn [router.cache router.cache_size].
    split; [apply lookup_insert_eq|]. split; [reflexivity|]. split.
    + intros other Hother Hkept. rewrite lookup_insert_ne by congruence.
      destruct (router.cache_size rc <=? _); [|reflexivity].
      destruct victim as [k|]; [|reflexivity].
      apply lookup_delete_ne. congruence.
    + intros Hcap Hsize. rewrite map_size_insert.
      destruct (router.cache_size rc <=? Z.of_nat (size (router.cache rc))) eqn:Hfull.
      * apply Z.leb_le in Hfull. destruct victim as [k|]; cbn [routes.first_of] in Hvictim.
        -- destruct Hvictim as [v Hk].
           assert (Hdel : size (delete k (router.cache rc))
                          = pred (size (router.cache rc))).
           { rewrite map_size_delete, Hk. reflexivity. }
           destruct (delete k (router.cache rc) !! key); cbn [id]; rewrite Hdel; lia.
        -- rewrite Hvictim, map_size_empty in Hfull. lia.
      * apply Z.leb_gt in Hfull.
        destruct (router.cache rc !! key); cbn [id]; lia.
Qed.

Lemma scan_result (env : ext.Env) (c : gin.Context)
      (routes : list router.RouteDefinition) :
  forall (best : option router.RouteDefinition) (highest : Z) (r : router.RouteDefinition),
    router.scan env c routes best highest = Some r ->
    best = Some r
    \/ (r ∈ routes /\ highest < router.Priority (router.Match r)).
Proof.
  induction routes as [|x l IH]; intros best highest r; cbn; [now left|].
  destruct (router.matchRule env c (router.Match x)); cbn [negb].
  - destruct (highest <? router.Priority (router.Match x)) eqn:E.
    + apply Z.ltb_lt in E. intros H. apply IH in H as [[= ->]|[Hin Hlt]]; right.
      * split; [left|exact E].
      * split; [now right|lia].
    + intros H. apply IH in H as [H|[Hin Hlt]]; [now left|right].
      split; [now right|exact Hlt].
  - intros H. apply IH in H as [H|[Hin Hlt]]; [now left|right].
    split; [now right|exact Hlt].
Qed.

Lemma scan_from_start (env : ext.Env) (c : gin.Context)
      (routes : list router.RouteDefinition) :
  match router.scan env c routes None (-1) with
  | Some r0 =>
      r0 ∈ routes
      /\ router.matchRule env c (router.Match r0) = true
      /\ 0 <= router.Priority (router.Match r0)
      /\ forall r', r' ∈ routes ->
                    router.matchRule env c (router.Match r') = true ->
                    router.Priority (router.Match r') <= router.Priority (router.Match r0)
  | None =>
      forall r', r' ∈ routes ->
                 router.matchRule env c (router.Match r') = true ->
                 router.Priority (router.Match r') < 0
  end.
Proof.
  pose proof (scan_highest_priority env c routes None (-1) eq_refl) as Hmax.
  destruct (router.scan env c routes None (-1)) as [r0|] eqn:Hscan.
  - destruct Hmax as (Hm & _ & Hmax).
    apply scan_result in Hscan as [[=]|[Hin Hlt]].
    repeat split; try assumption; lia.
  - destruct Hmax as [_ Hmax]. intros r' Hin Hm. specialize (Hmax r' Hin Hm). lia.
Qed.

Lemma linear_per_iteration (env : ext.Env) (c : gin.Context)
      (routes : list router.RouteDefinition) :
  router.linear true env c routes = router.scan env c routes None (-1).
Proof. unfold router.linear. now destruct (router.scan env c routes None (-1)). Qed.


Lemma all_equal_empty (get : string -> string) : router.all_equal get ∅ = true.
Proof. unfold router.all_equal. now rewrite map_to_list_empty. Qed.

Lemma matchRule_path_only (env : ext.Env) (req : gin.Request) (r : config.RouteConfig) :
  routes.path_only r ->
  router.matchRule env (gin.New req) (router.Match (router.convert r))
  = main.matchRoute (gin.Path req) (config.Match r).
Proof.
  intros (Ht & Hh & Hm & Hhd & Hq).
  unfold router.matchRule, router.matchPath, main.matchRoute. cbn.
  rewrite Hh, Hm, Hhd, Hq, !all_equal_empty. cbn.
  destruct Ht as [->| ->]; cbn;
    match goal with |- (if negb ?b then _ else _) = _ => destruct b end; reflexivity.
Qed.

(** On routes that constrain the path only and have priorities of zero
    or more, the dispatcher of [registerRoutes] and the scan of the
    router manager settle on routes of the same priority, or both on
    none. *)
Theorem engines_agree_on_path_routes (env : ext.Env) (cfg : config.Config)
        (req : gin.Request) :
  Forall routes.path_only (config.Routes cfg) ->
  Forall (fun r => 0 <= routes.priority_of r) (config.Routes cfg) ->
  routes.priority_of <$> main.findRoute (main.sortedRoutes cfg) (gin.Path req)
  = routes.priority_of_definition
      <$> router.linear true env (gin.New req) (map router.convert (config.Routes cfg)).
Proof.
  intros Hpath Hprio.
  pose proof (findRoute_highest_priority (config.Routes cfg) (main.sortedRoutes cfg)
                (gin.Path req) (sortedRoutes_sorted cfg)) as Hd.
  rewrite linear_per_iteration.
  pose proof (scan_from_start env (gin.New req)
                (map router.convert (config.Routes cfg))) as Hs.
  rewrite Forall_forall in Hpath. rewrite Forall_forall in Hprio.
  assert (Hrule : forall r, r ∈ config.Routes cfg ->
            router.matchRule env (gin.New req) (router.Match (router.convert r))
            = main.matchRoute (gin.Path req) (config.Match r)).
  { intros r Hr. apply matchRule_path_only. now apply Hpath. }
  destruct (main.findRoute _ _) as [r|]; destruct (router.scan _ _ _ _ _) as [d|]; cbn.
  - destruct Hd as (Hin & Hm & Hmax). destruct Hs as (Hd0 & Hdm & _ & Hdmax).
    apply list_elem_of_fmap in Hd0 as (r0 & -> & Hr0).
    f_equal. unfold routes.priority_of, routes.priority_of_definition.
    assert (H1 : config.Priority (config.Match r0) <= config.Priority (config.Match r)).
    { apply Hmax; [exact Hr0|]. now rewrite <- Hrule. }
    assert (H2 : router.Priority (router.Match (router.convert r))
                 <= router.Priority (router.Match (router.convert r0))).
    { apply Hdmax; [apply list_elem_of_fmap; now exists r|]. now rewrite Hrule. }
    cbn in *. lia.
  - destruct Hd as (Hin & Hm & _).
    specialize (Hs (router.convert r)).
    assert (router.Priority (router.Match (router.convert r)) < 0).
    { apply Hs; [apply list_elem_of_fmap; now exists r|]. now rewrite Hrule. }
    specialize (Hprio r Hin). unfold routes.priority_of in Hprio. cbn in *. lia.
  - destruct Hs as (Hd0 & Hdm & _).
    apply list_elem_of_fmap in Hd0 as (r0 & -> & Hr0).
    specialize (Hd r0 Hr0). rewrite Hrule in Hdm by exact Hr0. congruence.
  - reflexivity.
Qed.

Lemma engines_agree_on_path_routes_witness :
  let cfg := sample.cfg 8080 [sample.default_service; sample.api] in
  routes.priority_of <$> main.findRoute (main.sortedRoutes cfg) "/api/x"
  = routes.priority_of_definition
      <$> router.linear true sample.env
            (gin.New (sample.request "GET" "/api/x" "gw.example.com" []))
            (map router.convert (config.Routes cfg)).
Proof.
  apply (engines_agree_on_path_routes sample.env
           (sample.cfg 8080 [sample.default_service; sample.api])
           (sample.request "GET" "/api/x" "gw.example.com" [])).
  - repeat (constructor; [unfold routes.path_only; cbn;
                            repeat split; (left; reflexivity) || (right; reflexivity)|]).
    constructor.
  - repeat (constructor; [vm_compute; discriminate|]). constructor.
Defined.

(* ================================================================== *)
(** * Chains: order and result cache                                    *)
(* ================================================================== *)

Section SortByKey.
Context {A : Type} (key : A -> Z).
Let less (a b : A) : bool := key a <? key b.

Lemma insert_by_key_perm (x : A) (l : list A) : Go.insert less x l ≡ₚ x :: l.
Proof. apply insert_perm. Qed.

Lemma insert_by_key_ordered (x : A) (l : list A) :
  Go.ordered less l -> Go.ordered less (Go.insert less x l).
Proof.
  induction l as [|y l IH]; cbn; intros H; [split; [constructor|exact I]|].
  destruct H as [Hy Hl].
  destruct (less y x) eqn:E; cbn.
  - split; [|now apply IH].
    rewrite insert_by_key_perm. constructor; [|exact Hy].
    unfold less in *. lia.
  - split; [|split; assumption].
    constructor; [exact E|].
    eapply Forall_impl; [exact Hy|]. cbn. unfold less in *. intros z Hz. lia.
Qed.

Lemma Slice_by_key_sorted (l : list A) : Go.sorted_by less l (Go.Slice less l).
Proof.
  split; [apply Slice_perm|].
  induction l as [|x l IH]; cbn; [exact I|]. now apply insert_by_key_ordered.
Qed.
End SortByKey.

Lemma build_chain (m : plugin.Manager) (names : list string) :
  forall ch : plugin.Chain,
    Go.ordered (fun a b => plugin.Order a <? plugin.Order b) (plugin.plugins ch) ->
    match plugin.build m names ch with
    | Some ch' =>
        exists ps,
          mapM (fun name => plugin.availablePlugins m !! name) names = Some ps
          /\ plugin.plugins ch' ≡ₚ plugin.plugins ch ++ ps
          /\ Go.ordered (fun a b => plugin.Order a <? plugin.Order b) (plugin.plugins ch')
          /\ plugin.cached ch' = plugin.cached ch
    | None => exists name, name ∈ names /\ plugin.availablePlugins m !! name = None
    end.
Proof.
  induction names as [|name rest IH]; intros ch Hord; cbn.
  - exists []. rewrite app_nil_r. repeat split; [reflexivity|exact Hord].
  - destruct (plugin.availablePlugins m !! name) as [p|] eqn:E.
    + pose proof (Slice_by_key_sorted plugin.Order (plugin.plugins ch ++ [p])) as [Hp Ho].
      specialize (IH (plugin.AddPlugin p ch) Ho).
      destruct (plugin.build m rest (plugin.AddPlugin p ch)) as [ch'|].
      * destruct IH as (ps & Hps & Hperm & Hord' & Hc).
        exists (p :: ps). cbn. rewrite Hps. cbn. repeat split; try assumption.
        rewrite Hperm. cbn [plugin.AddPlugin plugin.plugins].
        rewrite <- Hp, <- app_assoc. reflexivity.
      * destruct IH as (n & Hn & Hnone). exists n. split; [now right|exact Hnone].
    + exists name. split; [left|exact E].
Qed.

(** [LoadRoutePlugins] either fails, because one of the named plug-ins
    is not available, and then changes nothing, or stores under the route
    a caching chain that holds exactly the named plug-ins, in ascending
    [Order] whatever the order of the names, and leaves the chains of the
    other routes alone. *)
Theorem LoadRoutePlugins_chain (routeName : string) (names : list string)
        (m : plugin.Manager) :
  match plugin.LoadRoutePlugins routeName names m with
  | Some m' =>
      exists ps ch,
        mapM (fun name => plugin.availablePlugins m !! name) names = Some ps
        /\ plugin.routeChains m' !! routeName = Some ch
        /\ plugin.plugins ch ≡ₚ ps
        /\ Go.ordered (fun a b => plugin.Order a <? plugin.Order b) (plugin.plugins ch)
        /\ plugin.cached ch = true
        /\ (forall other, other <> routeName ->
                          plugin.routeChains m' !! other = plugin.routeChains m !! other)
        /\ plugin.availablePlugins m' = plugin.availablePlugins m
  | None => exists name, name ∈ names /\ plugin.availablePlugins m !! name = None
  end.
Proof.
  unfold plugin.LoadRoutePlugins.
  pose proof (build_chain m names plugin.NewChainWithCache I) as H.
  destruct (plugin.build m names plugin.NewChainWithCache) as [ch|]; [|exact H].
  destruct H as (ps & Hps & Hperm & Hord & Hc).
  exists ps, ch. cbn. rewrite lookup_insert_eq.
  repeat split; try assumption.
  intros other Hne. now rewrite lookup_insert_ne.
Qed.

Lemma PluginCache_Set_then_Get (now now' : Z) (key : plugin.CacheKey)
      (data : gmap string string) (pc : plugin.PluginCache) :
  plugin.PluginCache_Get now' (plugin.PluginCache_Set now key data pc) key
  = if now + plugin.ttl pc <? now' then None else Some data.
Proof.
  unfold plugin.PluginCache_Get, plugin.PluginCache_Set. cbn.
  now rewrite lookup_insert_eq.
Qed.

(** The result cache of a chain.  When a plug-in has let a request pass
    and left its result under [plugin_result_<name>], a later request
    with the same method, host, path, query and Authorization,
    Content-Type and User-Agent headers, arriving before the entry
    expires, does not run the plug-in: the plug-in's state is as the
    first request left it, nothing is written to the client or sent out,
    and the stored result is put into the context. *)
Theorem cached_result_skips_plugin
        (env env' : ext.Env) (p : plugin.Plugin) (w w1 : plugin.World)
        (c c1 c' : gin.Context) (v : string) :
  let key := plugin.GenerateCacheKey c (plugin.Name p) in
  let resultKey := ("plugin_result_" ++ plugin.Name p)%string in
  plugin.PluginCache_Get (ext.now env) (plugin.pluginCache w) key = None ->
  plugin.Execute p env w c = (w1, c1, None) ->
  gin.Get c1 resultKey = Some v ->
  plugin.GenerateCacheKey c' (plugin.Name p) = key ->
  ext.now env' <= ext.now env + plugin.ttl (plugin.pluginCache w1) ->
  let first := plugin.run true env [p] w c in
  first.1.2 = c1 /\ first.2 = None
  /\ plugin.run true env' [p] first.1.1 c'
     = (first.1.1, plugin.restore {[resultKey := v]} c', None).
Proof.
  intros key resultKey Hmiss Hexec Hres Hkey Hnow first.
  unfold first. cbn [plugin.run]. fold key. rewrite Hmiss, Hexec. fold resultKey.
  rewrite Hres. cbn [fst snd]. split; [reflexivity|]. split; [reflexivity|].
  rewrite Hkey. cbn [plugin.pluginCache plugin.with_cache].
  rewrite PluginCache_Set_then_Get.
  destruct (_ <? ext.now env') eqn:E; [apply Z.ltb_lt in E; lia|reflexivity].
Qed.

Lemma cached_result_skips_plugin_witness :
  let env' := ext.with_auth (ext.Reply 200 ["true"])
                (ext.at_time (sample.t0 + 5 * Go.Second) sample.env) in
  let w := sample.world ∅ in
  let c := gin.New sample.bearer in
  let first := plugin.run true sample.env [plugin.InterfaceAuth] w c in
  gin.calls first.1.2 = [gin.AuthRequest "http://auth:8080/check/T"]
  /\ first.2 = None
  /\ plugin.run true env' [plugin.InterfaceAuth] first.1.1 c
     = (first.1.1,
        plugin.restore {["plugin_result_interface_auth" := "success"]} c, None).
Proof.
  cbv zeta.
  pose proof (cached_result_skips_plugin sample.env
                (ext.with_auth (ext.Reply 200 ["true"])
                   (ext.at_time (sample.t0 + 5 * Go.Second) sample.env))
                plugin.InterfaceAuth (sample.world ∅)
                (plugin.Execute plugin.InterfaceAuth sample.env (sample.world ∅)
                   (gin.New sample.bearer)).1.1
                (gin.New sample.bearer)
                (plugin.Execute plugin.InterfaceAuth sample.env (sample.world ∅)
                   (gin.New sample.bearer)).1.2
                (gin.New sample.bearer) "success") as H.
  cbv zeta in H.
  destruct H as (H1 & H2 & H3).
  - vm_compute. reflexivity.
  - vm_compute. reflexivity.
  - vm_compute. reflexivity.
  - reflexivity.
  - vm_compute. discriminate.
  - split; [rewrite H1; vm_compute; reflexivity|]. split; [exact H2|exact H3].
Defined.

(** ** Bursts and eviction *)

Lemma allow_same_instant (b : ratelimit.TokenBucket) :
  Go.in_int64 (ratelimit.tokens b) ->
  ratelimit.allow (ratelimit.lastRefill b) b
  = if 0 <? ratelimit.tokens b
    then (true, {| ratelimit.rate := ratelimit.rate b;
                   ratelimit.capacity := ratelimit.capacity b;
                   ratelimit.tokens := ratelimit.tokens b - 1;
                   ratelimit.lastRefill := ratelimit.lastRefill b |})
    else (false, b).
Proof.
  intros Hr. unfold ratelimit.allow, ratelimit.refill, ratelimit.tokensToAdd.
  rewrite Z.sub_diag. change (Go.int64 0) with 0.
  assert (H0 : Go.int64_of_float (inject_Z 0 / inject_Z Go.Second * ratelimit.rate b) = 0).
  { unfold Go.int64_of_float. destruct (ratelimit.rate b) as [n d]. reflexivity. }
  rewrite H0. cbn [Z.ltb Z.compare].
  destruct (0 <? ratelimit.tokens b) eqn:E; [|reflexivity].
  apply Z.ltb_lt in E.
  rewrite int64_id by (unfold Go.in_int64, Go.MinInt64, Go.MaxInt64 in *; lia).
  reflexivity.
Qed.

Lemma bucket_run_same_instant (n : nat) :
  forall b : ratelimit.TokenBucket,
    Go.in_int64 (ratelimit.tokens b) ->
    ratelimit.bucket_run b (replicate n (ratelimit.lastRefill b))
    = replicate (Nat.min n (Z.to_nat (ratelimit.tokens b))) (ratelimit.lastRefill b).
Proof.
  induction n as [|n IH]; intros b Hr; [reflexivity|].
  cbn [replicate ratelimit.bucket_run]. rewrite allow_same_instant by exact Hr.
  destruct (0 <? ratelimit.tokens b) eqn:E.
  - apply Z.ltb_lt in E.
    set (b' := {| ratelimit.rate := _; ratelimit.capacity := _;
                  ratelimit.tokens := _; ratelimit.lastRefill := _ |}).
    change (ratelimit.lastRefill b) with (ratelimit.lastRefill b').
    rewrite IH by (unfold Go.in_int64, Go.MinInt64, Go.MaxInt64 in *; cbn; lia).
    cbn [ratelimit.tokens ratelimit.lastRefill b'].
    replace (Z.to_nat (ratelimit.tokens b)) with (S (Z.to_nat (ratelimit.tokens b - 1)))
      by lia.
    reflexivity.
  - apply Z.ltb_ge in E.
    set (bn := {| ratelimit.rate := ratelimit.rate b;
                  ratelimit.capacity := ratelimit.capacity b;
                  ratelimit.tokens := ratelimit.tokens b;
                  ratelimit.lastRefill := ratelimit.lastRefill b |}).
    assert (Hb : b = bn) by (destruct b; reflexivity).
    rewrite Hb at 1. change (ratelimit.lastRefill b) with (ratelimit.lastRefill bn).
    rewrite IH by (cbn; exact Hr). cbn [ratelimit.tokens bn].
    replace (Z.to_nat (ratelimit.tokens b)) with 0%nat by lia.
    now rewrite !Nat.min_0_r.
Qed.

(** A key that sends [n] requests at one instant to a limiter that has
    not seen it is admitted [burst] times and then denied, whatever the
    rate: of the [n] requests, the first [min n burst] pass. *)
Theorem burst_at_one_instant (cfg : gmap string config.value) (t : Z)
        (r : gin.Request) (n : nat) :
  let p := ratelimit.Init cfg ratelimit.New in
  let burst := ratelimit.capacity (ratelimit.newBucket t p) in
  Go.in_int64 burst ->
  ratelimit.run (ratelimit.getLimitKey p (gin.New r)) p
                (replicate n (ratelimit.Request t r))
  = replicate (Nat.min n (Z.to_nat burst)) t.
Proof.
  intros p burst Hr.
  set (key := ratelimit.getLimitKey p (gin.New r)).
  assert (Htimes : ratelimit.times_for key p (replicate n (ratelimit.Request t r))
                   = replicate n t).
  { induction n as [|n IH]; [reflexivity|]. cbn [replicate ratelimit.times_for].
    fold key. rewrite String.eqb_refl, IH. reflexivity. }
  rewrite run_is_bucket_run by (apply Forall_replicate; exact I).
  rewrite Htimes. destruct n as [|n]; [reflexivity|].
  unfold ratelimit.bucket_for. cbn [p ratelimit.Init ratelimit.New ratelimit.buckets].
  rewrite lookup_empty. cbn [replicate head default].
  apply (bucket_run_same_instant (S n)
           (ratelimit.newBucket t (ratelimit.Init cfg ratelimit.New))).
  exact Hr.
Qed.

Lemma burst_at_one_instant_witness :
  let cfg : gmap string config.value :=
    {["requests_per_second" := config.VFloat64 (1 # 1000); "burst" := config.VInt 2]} in
  let r := sample.request "GET" "/api/x" "gw.example.com" [] in
  let p := ratelimit.Init cfg ratelimit.New in
  ratelimit.run (ratelimit.getLimitKey p (gin.New r)) p
                (replicate 3 (ratelimit.Request sample.t0 r))
  = replicate (Nat.min 3 (Z.to_nat (ratelimit.capacity (ratelimit.newBucket sample.t0 p))))
              sample.t0.
Proof.
  intros cfg r p.
  apply (burst_at_one_instant cfg sample.t0 r 3).
  vm_compute. split; discriminate.
Defined.

(** The janitor removes a bucket exactly when its last refill is more
    than five minutes old; a bucket it keeps is not changed, and the
    configuration never is. *)
Theorem cleanupBuckets_removes_old (now : Z) (p : ratelimit.RateLimitPlugin)
        (key : string) :
  let p' := ratelimit.cleanupBuckets now p in
  ratelimit.config p' = ratelimit.config p
  /\ ratelimit.buckets p' !! key
     = match ratelimit.buckets p !! key with
       | Some b =>
           if 5 * Go.Minute <? Go.int64 (now - ratelimit.lastRefill b) then None
           else Some b
       | None => None
       end.
Proof.
  cbv zeta. split; [reflexivity|].
  unfold ratelimit.cleanupBuckets. cbn [ratelimit.buckets].
  destruct (ratelimit.buckets p !! key) as [b|] eqn:E.
  - destruct (5 * Go.Minute <? Go.int64 (now - ratelimit.lastRefill b)) eqn:Hold.
    + apply Z.ltb_lt in Hold. apply map_lookup_filter_None. right.
      intros b' Hb'. rewrite E in Hb'. injection Hb' as <-. cbn. tauto.
    + apply Z.ltb_ge in Hold. apply map_lookup_filter_Some. split; [exact E|].
      cbn. lia.
  - apply map_lookup_filter_None. left. exact E.
Qed.

(** ** The bound with the janitor, for rates of one token per 299
       seconds or more *)

Lemma ticks_for_config (key : string) (p p' : ratelimit.RateLimitPlugin)
      (evs : list ratelimit.event) :
  ratelimit.config p = ratelimit.config p' ->
  limiter.ticks_for key p evs = limiter.ticks_for key p' evs.
Proof.
  intros H. induction evs as [|[t r|t] rest IH]; cbn; [reflexivity| |now rewrite IH].
  unfold ratelimit.getLimitKey. rewrite H, IH. reflexivity.
Qed.

Lemma run_is_key_run (key : string) (evs : list ratelimit.event) :
  forall p : ratelimit.RateLimitPlugin,
    ratelimit.run key p evs
    = limiter.key_run (fun t => ratelimit.newBucket t p) (ratelimit.buckets p !! key)
                      (limiter.ticks_for key p evs).
Proof.
  induction evs as [|[t r|t] rest IH]; intros p; [reflexivity| |].
  - pose proof (Execute_effect t p r) as (Hcfg & Hb & Hadm). cbv zeta in *.
    cbn [ratelimit.run limiter.ticks_for].
    destruct (ratelimit.Execute t p (gin.New r)) as [[p' c'] e] eqn:Ex. cbn [fst snd] in *.
    rewrite (IH p'), (ticks_for_config key p' p) by exact Hcfg.
    assert (Hfresh : (fun t => ratelimit.newBucket t p') = (fun t => ratelimit.newBucket t p)).
    { unfold ratelimit.newBucket. now rewrite Hcfg. }
    rewrite Hfresh.
    destruct (String.eqb (ratelimit.getLimitKey p (gin.New r)) key) eqn:Ek.
    + apply String.eqb_eq in Ek. rewrite Ek in *. cbn [andb limiter.key_run].
      rewrite Hadm.
      assert (Hsame : ratelimit.bucket_for key p [t]
                      = default (ratelimit.newBucket t p) (ratelimit.buckets p !! key)).
      { unfold ratelimit.bucket_for. destruct (ratelimit.buckets p !! key); reflexivity. }
      rewrite Hsame in *.
      destruct (ratelimit.allow t _) as [ok bk'] eqn:Ea. cbn [fst snd] in *.
      rewrite Hb, lookup_insert_eq. reflexivity.
    + apply String.eqb_neq in Ek. cbn [andb].
      rewrite Hb, lookup_insert_ne by exact Ek. reflexivity.
  - cbn [ratelimit.run limiter.ticks_for limiter.key_run].
    rewrite (IH (ratelimit.cleanupBuckets t p)).
    rewrite (ticks_for_config key (ratelimit.cleanupBuckets t p) p) by reflexivity.
    pose proof (cleanupBuckets_removes_old t p key) as [_ Hl]. cbv zeta in Hl.
    rewrite Hl. reflexivity.
Qed.

Lemma key_run_Forall (P : Z -> Prop) (fresh : Z -> ratelimit.TokenBucket)
      (ticks : list limiter.tick) :
  forall ob, Forall (fun k => P (limiter.tick_time k)) ticks ->
             Forall P (limiter.key_run fresh ob ticks).
Proof.
  induction ticks as [|[t|t] rest IH]; intros ob H; cbn; [constructor| |].
  - apply Forall_cons in H as [Ht H].
    destruct (ratelimit.allow t _) as [[|] b']; [constructor; [exact Ht|]|]; now apply IH.
  - apply Forall_cons in H as [_ H]. now apply IH.
Qed.

Section Janitor.
Variables (a : Z) (b : positive) (cap : Z).
Hypothesis Ha : 0 <= a.
Hypothesis Hcap : 0 <= cap.
Hypothesis Hrate : Zpos b <= 299 * a.
Variable T : Z.
Hypothesis HT : T <= Go.MaxInt64.
Hypothesis Hovf : cap + T * a / (Go.Second * Zpos b) <= Go.MaxInt64.
Variable fresh : Z -> ratelimit.TokenBucket.
Hypothesis Hfresh :
  forall t, fresh t = {| ratelimit.rate := (a # b)%Q; ratelimit.capacity := cap;
                         ratelimit.tokens := cap; ratelimit.lastRefill := t |}.
Variable s : Z.

Let D : Z := Go.Second * Zpos b.

Abbreviation wf := (ratelimit.wf a b cap T).
Abbreviation potential := (ratelimit.potential D a).
Abbreviation budget := (ratelimit.budget D a cap).
Abbreviation times := (map limiter.tick_time).
Abbreviation settled := (limiter.settled a b cap T).

Lemma fresh_wf (t : Z) : 0 <= t <= T -> wf t (fresh t).
Proof. intros H. rewrite Hfresh. unfold ratelimit.wf. cbn. repeat split; lia. Qed.

(** After [allow] at instant [t] less than one token has accrued since
    the last refill. *)
Lemma allow_recent (t : Z) (bk : ratelimit.TokenBucket) :
  wf t bk -> a * (t - ratelimit.lastRefill (ratelimit.allow t bk).2) < D.
Proof.
  intros Hwf. pose proof (tokensToAdd_eq a b cap Ha T HT t bk Hwf) as Hn.
  destruct Hwf as (Hr & Hc & Htok & HL & Ht).
  pose proof (D_pos b) as HD. fold D in HD, Hn.
  unfold ratelimit.allow, ratelimit.refill. rewrite Hn.
  set (d := t - ratelimit.lastRefill bk) in *.
  assert (Hd : 0 <= d) by (unfold d; lia).
  destruct (0 <? d * a / D) eqn:En.
  - match goal with |- context [if ?c then _ else _] => destruct c end;
      cbn [snd ratelimit.lastRefill]; lia.
  - apply Z.ltb_ge in En.
    assert (Hlt : d * a < D).
    { destruct (Z_lt_le_dec (d * a) D) as [H|H]; [exact H|].
      assert (1 <= d * a / D) by (apply Z.div_le_lower_bound; lia). lia. }
    match goal with |- context [if ?c then _ else _] => destruct c end;
      cbn [snd ratelimit.lastRefill]; fold d; lia.
Qed.

(** With such a rate a bucket used within the window is not old enough
    for the janitor before the window ends. *)
Lemma sweep_keeps (t t' : Z) (bk : ratelimit.TokenBucket) :
  wf t bk -> a * (t - ratelimit.lastRefill bk) < D ->
  t <= t' <= T -> t' < t + Go.Second ->
  limiter.sweep t' (Some bk) = Some bk.
Proof.
  intros (Hr & Hc & Htok & HL & Ht) Hrec Htt' Hnear. unfold limiter.sweep.
  rewrite int64_id by (unfold Go.in_int64, Go.MinInt64, Go.MaxInt64 in *; lia).
  destruct (5 * Go.Minute <? t' - ratelimit.lastRefill bk) eqn:E; [|reflexivity].
  apply Z.ltb_lt in E. unfold D, Go.Minute, Go.Second in *. nia.
Qed.

Lemma settled_later (t t' : Z) (ob : option ratelimit.TokenBucket) :
  settled t ob -> t <= t' <= T -> settled t' ob.
Proof.
  destruct ob as [bk|]; [|trivial]. intros [Hwf Htok] Ht.
  split; [now apply (wf_later a b cap T t t')|exact Htok].
Qed.

Lemma settled_sweep (t t' : Z) (ob : option ratelimit.TokenBucket) :
  settled t ob -> settled t (limiter.sweep t' ob).
Proof.
  destruct ob as [bk|]; [|trivial]. intros H. unfold limiter.sweep.
  destruct (_ <? _); [exact I|exact H].
Qed.

Lemma settled_ready (t : Z) (ob : option ratelimit.TokenBucket) :
  1 <= cap -> settled t ob -> 0 <= t <= T ->
  ratelimit.ready a b cap T (default (fresh t) ob) [t].
Proof.
  intros Hcap1 Hs Ht. destruct ob as [bk|]; cbn.
  - destruct Hs as [Hwf Htok]. split; [exact Hwf|left; now apply Htok].
  - split; [now apply fresh_wf|right]. rewrite Hfresh. reflexivity.
Qed.

Lemma outside_window (ob : option ratelimit.TokenBucket) (ticks : list limiter.tick) :
  Forall (fun k => s + Go.Second <= limiter.tick_time k) ticks ->
  ratelimit.count_in_window s (limiter.key_run fresh ob ticks) = 0.
Proof.
  intros H. apply (count_outside b). apply key_run_Forall.
  eapply Forall_impl; [exact H|]. cbn. intros k Hk. lia.
Qed.

Lemma sorted_tail_from (t : Z) (k : limiter.tick) (rest : list limiter.tick) :
  StronglySorted Z.le (t :: times (k :: rest)) ->
  t <= limiter.tick_time k
  /\ StronglySorted Z.le (limiter.tick_time k :: times rest)
  /\ StronglySorted Z.le (t :: times rest).
Proof.
  intros H. apply StronglySorted_inv in H as [Hs Hle]. cbn in *.
  apply Forall_cons in Hle as [Hk Hle].
  split; [exact Hk|]. split; [exact Hs|].
  constructor; [|exact Hle]. now apply StronglySorted_inv in Hs as [Hs' _].
Qed.

Lemma later_ticks (t : Z) (ticks : list limiter.tick) (bound : Z) :
  StronglySorted Z.le (t :: times ticks) -> bound <= t ->
  Forall (fun k => bound <= limiter.tick_time k) ticks.
Proof.
  intros H Hb. apply StronglySorted_inv in H as [_ Hle].
  rewrite Forall_fmap in Hle. eapply Forall_impl; [exact Hle|]. cbn. intros k Hk. lia.
Qed.

(** Past the first admitted or denied request of the window. *)
Lemma inside_window_janitor (ticks : list limiter.tick) :
  forall (bk : ratelimit.TokenBucket) (t W : Z),
    wf t bk ->
    a * (t - ratelimit.lastRefill bk) < D ->
    StronglySorted Z.le (t :: times ticks) ->
    Forall (fun k => limiter.tick_time k <= T) ticks ->
    s <= t < s + Go.Second ->
    0 <= W ->
    D * W + potential t bk <= D * cap + a * (t - s) ->
    D * (W + ratelimit.count_in_window s (limiter.key_run fresh (Some bk) ticks)) <= budget.
Proof.
  induction ticks as [|k rest IH]; intros bk t W Hwf Hrec Hsort HT' Hin HW Hinv.
  - pose proof (potential_nonneg a b cap Ha Hcap T t bk Hwf) as Hp. fold D in Hp.
    cbn [limiter.key_run]. rewrite (count_outside b s []) by constructor.
    unfold ratelimit.budget, Go.Second in *. nia.
  - apply sorted_tail_from in Hsort as (Htk & Hsort_k & Hsort_t).
    apply Forall_cons in HT' as [HkT HT'].
    destruct (decide (limiter.tick_time k < s + Go.Second)) as [Hw|Hw].
    + destruct k as [t'|t']; cbn [limiter.tick_time] in *.
      * assert (Hwf' : wf t' bk) by (apply (wf_later a b cap T t t'); [exact Hwf|lia]).
        pose proof (allow_step a b cap Ha Hcap T HT Hovf t' bk Hwf') as (Hwf2 & Hpot & _).
        pose proof (allow_recent t' bk Hwf') as Hrec2.
        cbn [limiter.key_run].
        change (default (fresh t') (Some bk)) with bk.
        destruct (ratelimit.allow t' bk) as [ok bk'] eqn:E. cbn [fst snd] in *.
        rewrite (potential_later a b t t' bk) in Hpot. fold D in Hpot.
        assert (Hcount :
          W + ratelimit.count_in_window s
                (if ok then t' :: limiter.key_run fresh (Some bk') rest
                 else limiter.key_run fresh (Some bk') rest)
          = (W + ratelimit.one ok)
            + ratelimit.count_in_window s (limiter.key_run fresh (Some bk') rest)).
        { destruct ok; cbn [ratelimit.one]; [|lia]. rewrite (count_cons b).
          destruct (decide _); lia. }
        rewrite Hcount. apply (IH bk' t' (W + ratelimit.one ok)); try assumption.
        -- lia.
        -- unfold ratelimit.one. destruct ok; lia.
        -- nia.
      * cbn [limiter.key_run].
        rewrite (sweep_keeps t t' bk Hwf Hrec) by lia.
        apply (IH bk t W); assumption.
    + pose proof (potential_nonneg a b cap Ha Hcap T t bk Hwf) as Hp. fold D in Hp.
      rewrite outside_window.
      * unfold ratelimit.budget, Go.Second in *. nia.
      * constructor; [lia|]. apply (later_ticks (limiter.tick_time k)); [exact Hsort_k|lia].
Qed.

Lemma no_tokens_no_admission (ticks : list limiter.tick) :
  forall (t0 : Z) (ob : option ratelimit.TokenBucket),
    cap = 0 ->
    match ob with Some bk => wf t0 bk | None => True end ->
    StronglySorted Z.le (t0 :: times ticks) ->
    Forall (fun k => 0 <= limiter.tick_time k <= T) ticks ->
    limiter.key_run fresh ob ticks = [].
Proof.
  induction ticks as [|k rest IH]; intros t0 ob Hzero Hob Hsort HT'; [reflexivity|].
  apply sorted_tail_from in Hsort as (Htk & Hsort_k & Hsort_t).
  apply Forall_cons in HT' as [HkT HT'].
  destruct k as [t|t]; cbn [limiter.tick_time limiter.key_run] in *.
  - assert (Hwf : wf t (default (fresh t) ob)).
    { destruct ob as [bk|]; cbn; [apply (wf_later a b cap T t0 t); [exact Hob|lia]|].
      now apply fresh_wf. }
    pose proof (allow_step a b cap Ha Hcap T HT Hovf t _ Hwf) as (Hwf2 & _ & Hone & _).
    destruct (ratelimit.allow t _) as [ok bk'] eqn:E. cbn [fst snd] in *.
    destruct ok; [unfold ratelimit.one in Hone; lia|].
    apply (IH t (Some bk')); assumption.
  - apply (IH t0 (limiter.sweep t ob)); try assumption.
    destruct ob as [bk|]; cbn; [|trivial]. destruct (_ <? _); [trivial|exact Hob].
Qed.

Lemma before_window_janitor (ticks : list limiter.tick) :
  forall (t0 : Z) (ob : option ratelimit.TokenBucket),
    1 <= cap ->
    settled t0 ob ->
    StronglySorted Z.le (t0 :: times ticks) ->
    Forall (fun k => 0 <= limiter.tick_time k <= T) ticks ->
    D * ratelimit.count_in_window s (limiter.key_run fresh ob ticks) <= budget.
Proof.
  induction ticks as [|k rest IH]; intros t0 ob Hcap1 Hset Hsort HT'.
  - cbn [limiter.key_run]. rewrite (count_outside b s []) by constructor.
    pose proof (budget_nonneg a b cap Ha Hcap) as Hb. fold D in Hb. lia.
  - apply sorted_tail_from in Hsort as (Htk & Hsort_k & Hsort_t).
    apply Forall_cons in HT' as [HkT HT'].
    destruct k as [t|t]; cbn [limiter.tick_time limiter.key_run] in *.
    + pose proof (settled_ready t ob Hcap1 (settled_later t0 t ob Hset ltac:(lia)) HkT)
        as [Hwf Hb].
      pose proof (allow_step a b cap Ha Hcap T HT Hovf t _ Hwf) as (Hwf2 & _ & _ & HJ & HB).
      pose proof (allow_recent t _ Hwf) as Hrec.
      specialize (HJ Hcap1). specialize (HB Hcap1 Hb). fold D in HB.
      destruct (ratelimit.allow t _) as [ok bk'] eqn:E. cbn [fst snd] in *.
      destruct (decide (s <= t < s + Go.Second)) as [Hin|Hout].
      * assert (Hcount :
          ratelimit.count_in_window s
            (if ok then t :: limiter.key_run fresh (Some bk') rest
             else limiter.key_run fresh (Some bk') rest)
          = ratelimit.one ok
            + ratelimit.count_in_window s (limiter.key_run fresh (Some bk') rest)).
        { destruct ok; cbn [ratelimit.one]; [|lia]. rewrite (count_cons b).
          destruct (decide _); [reflexivity|contradiction]. }
        rewrite Hcount.
        apply (inside_window_janitor rest bk' t (ratelimit.one ok)); try assumption.
        -- eapply Forall_impl; [exact HT'|]. cbn. intros; lia.
        -- unfold ratelimit.one. destruct ok; lia.
        -- nia.
      * assert (Hcount :
          ratelimit.count_in_window s
            (if ok then t :: limiter.key_run fresh (Some bk') rest
             else limiter.key_run fresh (Some bk') rest)
          = ratelimit.count_in_window s (limiter.key_run fresh (Some bk') rest)).
        { destruct ok; [|reflexivity]. rewrite (count_cons b).
          destruct (decide _); [contradiction|reflexivity]. }
        rewrite Hcount. apply (IH t (Some bk')); try assumption.
        split; [exact Hwf2|intros _; exact HJ].
    + apply (IH t0 (limiter.sweep t ob)); try assumption.
      now apply settled_sweep.
Qed.

Lemma key_bound (ticks : list limiter.tick) :
  StronglySorted Z.le (times ticks) ->
  Forall (fun k => 0 <= limiter.tick_time k <= T) ticks ->
  Zpos b * ratelimit.count_in_window s (limiter.key_run fresh None ticks)
  <= Zpos b * cap + a.
Proof.
  intros Hsort HT'.
  assert (Hsort0 : StronglySorted Z.le (0 :: times ticks)).
  { constructor; [exact Hsort|]. rewrite Forall_fmap.
    eapply Forall_impl; [exact HT'|]. cbn. intros; lia. }
  destruct (Z_le_gt_dec 1 cap) as [Hcap1|Hcap0].
  - pose proof (before_window_janitor ticks 0 None Hcap1 I Hsort0 HT') as H.
    unfold ratelimit.budget, D, Go.Second in H.
    set (n := ratelimit.count_in_window s _) in *. nia.
  - rewrite (no_tokens_no_admission ticks 0 None) by (try assumption; try lia; exact I).
    rewrite (count_outside b s []) by constructor. nia.
Qed.
End Janitor.

Lemma ticks_for_times (P : Z -> Prop) (key : string) (p : ratelimit.RateLimitPlugin)
      (evs : list ratelimit.event) :
  Forall (fun e => P (ratelimit.time_of e)) evs ->
  Forall (fun k => P (limiter.tick_time k)) (limiter.ticks_for key p evs).
Proof.
  induction 1 as [|[t r|t] rest Ht _ IH]; cbn; [constructor| |].
  - destruct (String.eqb _ key); [constructor; [exact Ht|exact IH]|exact IH].
  - constructor; [exact Ht|exact IH].
Qed.

Lemma ticks_for_sorted (key : string) (p : ratelimit.RateLimitPlugin)
      (evs : list ratelimit.event) :
  StronglySorted Z.le (map ratelimit.time_of evs) ->
  StronglySorted Z.le (map limiter.tick_time (limiter.ticks_for key p evs)).
Proof.
  induction evs as [|e rest IH]; cbn; intros H; [constructor|].
  apply StronglySorted_inv in H as [Hs Hle].
  assert (Hall : Forall (Z.le (ratelimit.time_of e))
                        (map limiter.tick_time (limiter.ticks_for key p rest))).
  { rewrite Forall_fmap. apply (ticks_for_times (Z.le (ratelimit.time_of e))).
    now rewrite Forall_fmap in Hle. }
  destruct e as [t r|t]; cbn.
  - destruct (String.eqb _ key); [|now apply IH].
    cbn. constructor; [now apply IH|exact Hall].
  - constructor; [now apply IH|exact Hall].
Qed.



(* ================================================================== *)
(** * Circuit breaker, further properties                               *)
(* ================================================================== *)

Lemma int32_id (z : Z) : - 2 ^ 31 <= z < 2 ^ 31 -> Go.int32 z = z.
Proof.
  intros H. unfold Go.int32, Go.wrap.
  rewrite Z.mod_small by (change (2 ^ (32 - 1)) with (2 ^ 31);
                          change (2 ^ 32) with (2 * 2 ^ 31); lia).
  lia.
Qed.

Lemma time_Sub_small (t u : Z) : 0 <= u <= t -> t <= Go.MaxInt64 -> Go.time_Sub t u = t - u.
Proof. intros H1 H2. unfold Go.time_Sub, Go.MinInt64, Go.MaxInt64 in *. lia. Qed.

Lemma NewWindow_ring (now n ws : Z) :
  0 < n < 2 ^ 31 -> breaker.ring (circuitbreaker.NewWindow now n ws).
Proof.
  intros H. unfold breaker.ring, circuitbreaker.NewWindow. cbn.
  rewrite length_replicate. lia.
Qed.

(** [getCurrentBucket] on a ring: the slot it returns is inside the
    ring, the ring keeps its shape, and the bucket in that slot is either
    the former current bucket, still younger than a bucket span, or a new
    empty one stamped [now]. *)
Lemma getCurrentBucket_ring (now : Z) (w : circuitbreaker.Window) :
  breaker.ring w ->
  let w1 := (circuitbreaker.getCurrentBucket now w).1 in
  let i := (circuitbreaker.getCurrentBucket now w).2 in
  breaker.ring w1
  /\ i = circuitbreaker.current w1
  /\ circuitbreaker.size w1 = circuitbreaker.size w
  /\ circuitbreaker.windowSize w1 = circuitbreaker.windowSize w
  /\ ((w1 = w
       /\ Go.int64 (now - circuitbreaker.timestamp (breaker.currentBucket w))
          < breaker.bucketSpan w)
      \/ breaker.currentBucket w1 = circuitbreaker.emptyBucket now).
Proof.
  intros (Hsize & Hlen & Hcur). cbv zeta. unfold circuitbreaker.getCurrentBucket.
  fold (breaker.currentBucket w). fold (breaker.bucketSpan w).
  destruct (breaker.bucketSpan w <=? _) eqn:E; cbn [fst snd].
  - set (next := Go.int32 (Z.rem (Go.int32 (circuitbreaker.current w + 1))
                                 (Go.int32 (circuitbreaker.size w)))).
    assert (Hnext : 0 <= next < circuitbreaker.size w).
    { unfold next. rewrite !(int32_id (circuitbreaker.current w + 1)) by lia.
      rewrite (int32_id (circuitbreaker.size w)) by lia.
      rewrite Z.rem_mod_nonneg by lia.
      pose proof (Z.mod_pos_bound (circuitbreaker.current w + 1) (circuitbreaker.size w)
                    ltac:(lia)) as Hm.
      rewrite int32_id by lia. exact Hm. }
    unfold breaker.ring, breaker.currentBucket, circuitbreaker.bucketAt. cbn.
    rewrite length_insert. repeat split; try lia.
    right. rewrite list_lookup_insert_eq by lia. reflexivity.
  - apply Z.leb_gt in E. repeat split; try assumption; try lia.
    left. split; [reflexivity|exact E].
Qed.

Lemma record_ring (now : Z) (w : circuitbreaker.Window) (failed : bool) :
  breaker.ring w ->
  let w' := if failed then circuitbreaker.RecordFailure now w
            else circuitbreaker.RecordSuccess now w in
  breaker.ring w'
  /\ circuitbreaker.size w' = circuitbreaker.size w
  /\ circuitbreaker.windowSize w' = circuitbreaker.windowSize w
  /\ (circuitbreaker.timestamp (breaker.currentBucket w')
      = circuitbreaker.timestamp (breaker.currentBucket w)
      \/ circuitbreaker.timestamp (breaker.currentBucket w') = now).
Proof.
  intros Hring. cbv zeta.
  pose proof (getCurrentBucket_ring now w Hring) as (Hr1 & Hi & Hs & Hws & Hb).
  cbv zeta in *.
  unfold circuitbreaker.RecordFailure, circuitbreaker.RecordSuccess.
  destruct (circuitbreaker.getCurrentBucket now w) as [w1 i]. cbn [fst snd] in *. subst i.
  destruct Hr1 as (Hsize & Hlen & Hcur).
  assert (Hts : circuitbreaker.timestamp (breaker.currentBucket w1)
                = circuitbreaker.timestamp (breaker.currentBucket w)
                \/ circuitbreaker.timestamp (breaker.currentBucket w1) = now).
  { destruct Hb as [[-> _] | ->]; [now left|now right]. }
  destruct failed; unfold breaker.ring, breaker.currentBucket, circuitbreaker.bucketAt in *;
    cbn; rewrite length_insert, list_lookup_insert_eq by lia; cbn;
    repeat split; try assumption; lia.
Qed.

(** The ring survives every operation of window.go, so that no
    operation indexes outside the slice: [NewWindow] builds a ring, and
    [getCurrentBucket], [RecordFailure] and [RecordSuccess] turn a ring
    into a ring of the same size. *)
Theorem window_stays_a_ring (now : Z) (w : circuitbreaker.Window) :
  (forall n ws, 0 < n < 2 ^ 31 -> breaker.ring (circuitbreaker.NewWindow now n ws))
  /\ (breaker.ring w ->
      let slot := (circuitbreaker.getCurrentBucket now w).2 in
      breaker.ring (circuitbreaker.getCurrentBucket now w).1
      /\ 0 <= slot < circuitbreaker.size w
      /\ breaker.ring (circuitbreaker.RecordFailure now w)
      /\ breaker.ring (circuitbreaker.RecordSuccess now w)
      /\ circuitbreaker.size (circuitbreaker.RecordFailure now w) = circuitbreaker.size w
      /\ circuitbreaker.size (circuitbreaker.RecordSuccess now w) = circuitbreaker.size w).
Proof.
  split; [intros n ws; apply NewWindow_ring|].
  intros Hring. cbv zeta.
  pose proof (getCurrentBucket_ring now w Hring) as (Hr1 & Hi & Hs & _).
  pose proof (record_ring now w true Hring) as (Hf & Hfs & _).
  pose proof (record_ring now w false Hring) as (Hsu & Hss & _).
  cbv zeta in *.
  assert (Hslot : 0 <= (circuitbreaker.getCurrentBucket now w).2 < circuitbreaker.size w).
  { rewrite Hi, <- Hs. now destruct Hr1 as (_ & _ & Hc). }
  split; [exact Hr1|]. split; [exact Hslot|]. split; [exact Hf|].
  split; [exact Hsu|]. split; [exact Hfs|exact Hss].
Qed.

Lemma stuck_Ask (t0 t : Z) (cb : circuitbreaker.CircuitBreaker) :
  breaker.stuck t0 cb -> t0 <= t <= Go.MaxInt64 ->
  (circuitbreaker.allowRequest t cb).1 = false
  /\ breaker.stuck t (circuitbreaker.allowRequest t cb).2.
Proof.
  intros (Hst & Hring & Hspan & Hpos & Hts) Ht.
  pose proof (getCurrentBucket_ring t (circuitbreaker.window cb) Hring) as H.
  cbv zeta in H.
  unfold circuitbreaker.allowRequest, circuitbreaker.recovered. rewrite Hst.
  cbn [Z.eqb circuitbreaker.StateClosed circuitbreaker.StateOpen Pos.eqb].
  fold (breaker.recoveryTimeout cb).
  destruct (circuitbreaker.getCurrentBucket t (circuitbreaker.window cb)) as [w1 i] eqn:Eg.
  cbn [fst snd] in *. destruct H as (Hr1 & Hi & Hs & Hws & Hb). subst i.
  fold (breaker.currentBucket w1).
  assert (Hage : 0 <= circuitbreaker.timestamp (breaker.currentBucket w1) <= t
                 /\ t - circuitbreaker.timestamp (breaker.currentBucket w1)
                    < breaker.recoveryTimeout cb).
  { destruct Hb as [[-> Hyoung] | ->].
    - rewrite int64_id in Hyoung
        by (unfold Go.in_int64, Go.MinInt64, Go.MaxInt64 in *; lia).
      lia.
    - cbn. lia. }
  destruct Hage as [Hts1 Hage].
  rewrite time_Sub_small by lia.
  destruct (breaker.recoveryTimeout cb <=? _) eqn:E;
    [apply Z.leb_le in E; exfalso; clear - E Hage; lia|].
  cbn [fst snd]. split; [reflexivity|].
  split; [exact Hst|]. split; [exact Hr1|].
  split; [unfold breaker.bucketSpan in *; cbn; rewrite Hs, Hws; exact Hspan|].
  split; [exact Hpos|exact Hts1].
Qed.

Lemma stuck_Answer (t0 t code : Z) (cb : circuitbreaker.CircuitBreaker) :
  breaker.stuck t0 cb -> t0 <= t ->
  breaker.stuck t (circuitbreaker.WriteHeader t false code cb).2.
Proof.
  intros (Hst & Hring & Hspan & Hpos & Hts) Ht.
  assert (Hrec : forall failed : bool,
            breaker.stuck t (circuitbreaker.with_window
                       (if failed then circuitbreaker.RecordFailure t (circuitbreaker.window cb)
                        else circuitbreaker.RecordSuccess t (circuitbreaker.window cb)) cb)).
  { intros failed.
    pose proof (record_ring t (circuitbreaker.window cb) failed Hring)
      as (Hr & Hs & Hws & Hb). cbv zeta in *.
    split; [exact Hst|]. split; [exact Hr|].
    split; [unfold breaker.bucketSpan in *; cbn; rewrite Hs, Hws; exact Hspan|].
    split; [exact Hpos|]. cbn [circuitbreaker.window circuitbreaker.with_window].
    destruct Hb as [-> | ->]; lia. }
  unfold circuitbreaker.WriteHeader. cbn [snd].
  destruct (500 <=? code).
  - exact (Hrec true).
  - unfold circuitbreaker.recordSuccess.
    cbn [circuitbreaker.state circuitbreaker.with_window].
    rewrite Hst.
    cbn [Z.eqb circuitbreaker.StateOpen circuitbreaker.StateHalfOpen Pos.eqb].
    exact (Hrec false).
Qed.



Lemma totals_of_empty_buckets (now : Z) (n : nat) (start : Z) :
  foldl (fun acc b =>
           if circuitbreaker.timestamp b <? start then acc
           else (Go.int32 (acc.1 + circuitbreaker.failures b),
                 Go.int32 (acc.2 + Go.int32 (circuitbreaker.failures b
                                             + circuitbreaker.successes b))))
        (0, 0) (replicate n (circuitbreaker.emptyBucket now))
  = (0, 0).
Proof.
  induction n as [|n IH]; [reflexivity|]. cbn [replicate foldl].
  destruct (circuitbreaker.timestamp (circuitbreaker.emptyBucket now) <? start);
    exact IH.
Qed.

(** The first request to a target the plug-in has no breaker for: the
    new breaker's window is empty, its failure rate is 0, and the request
    is admitted exactly when the configured [failure_threshold] is at
    least 1.  With a threshold of 0 or less the breaker opens on that
    very request, which is answered 503. *)
Theorem first_request_to_a_target (now : Z) (p : circuitbreaker.CircuitBreakerPlugin)
        (c : gin.Context) :
  circuitbreaker.circuitBreakers p !! circuitbreaker.targetOf c = None ->
  let threshold := circuitbreaker.int_or p "failure_threshold" 5 in
  let result := circuitbreaker.Execute now p c in
  result.1.2
  = (if 1 <=? threshold then gin.emit (gin.WrapWriter "circuit_breaker") c
     else gin.Abort (gin.emit (gin.JSON 503 gin.H_error_unavailable) c))
  /\ circuitbreaker.state
       <$> circuitbreaker.circuitBreakers result.1.1 !! circuitbreaker.targetOf c
     = Some (if 1 <=? threshold then circuitbreaker.StateClosed
             else circuitbreaker.StateOpen).
Proof.
  intros Hnew threshold result. unfold result, circuitbreaker.Execute.
  unfold circuitbreaker.getCircuitBreaker. rewrite Hnew.
  set (cb := circuitbreaker.newCircuitBreaker now p).
  assert (Htrip : circuitbreaker.tripped now cb = negb (1 <=? threshold)).
  { unfold circuitbreaker.tripped, circuitbreaker.GetFailureRate, circuitbreaker.totals.
    cbn [cb circuitbreaker.newCircuitBreaker circuitbreaker.window circuitbreaker.settings
         circuitbreaker.NewWindow circuitbreaker.Window_buckets circuitbreaker.windowSize
         circuitbreaker.failure_threshold].
    rewrite totals_of_empty_buckets. cbn [Z.eqb].
    fold threshold. unfold circuitbreaker.percent, Qle_bool, Qdiv, Qmult, Qinv, inject_Z.
    cbn [Qnum Qden]. destruct (1 <=? threshold) eqn:E.
    - apply Z.leb_le in E. cbn [negb]. apply Z.leb_gt. lia.
    - apply Z.leb_gt in E. cbn [negb]. apply Z.leb_le. lia. }
  unfold circuitbreaker.allowRequest.
  change (circuitbreaker.state cb) with circuitbreaker.StateClosed.
  cbn [Z.eqb circuitbreaker.StateClosed]. rewrite Htrip.
  destruct (1 <=? threshold); cbn [negb fst snd circuitbreaker.circuitBreakers];
    rewrite lookup_insert_eq; split; reflexivity.
Qed.

Lemma first_request_to_a_target_witness :
  (circuitbreaker.Execute sample.t0 circuitbreaker.New sample.breaker_context).1.2
  = gin.emit (gin.WrapWriter "circuit_breaker") sample.breaker_context.
Proof.
  apply (first_request_to_a_target sample.t0 circuitbreaker.New sample.breaker_context).
  reflexivity.
Defined.

(** A breaker is kept by the clean-up for thirty minutes after the last
    request to its target, in whatever state the request left it: every
    request stamps [lastUsed], and the clean-up reads that stamp. *)
Theorem breaker_in_use_is_kept (t now : Z) (p : circuitbreaker.CircuitBreakerPlugin)
        (c : gin.Context) :
  let p' := (circuitbreaker.Execute t p c).1.1 in
  let target := circuitbreaker.targetOf c in
  (exists cb, circuitbreaker.circuitBreakers p' !! target = Some cb
              /\ circuitbreaker.lastUsed cb = t)
  /\ (now - t <= 30 * Go.Minute ->
      circuitbreaker.circuitBreakers
        (circuitbreaker.cleanupInactiveCircuitBreakers now p') !! target
      = circuitbreaker.circuitBreakers p' !! target).
Proof.
  cbv zeta.
  assert (Hlast : exists cb,
             circuitbreaker.circuitBreakers (circuitbreaker.Execute t p c).1.1
               !! circuitbreaker.targetOf c = Some cb
             /\ circuitbreaker.lastUsed cb = t).
  { unfold circuitbreaker.Execute.
    set (cb := circuitbreaker.getCircuitBreaker t (circuitbreaker.targetOf c) p).
    assert (Hcb : circuitbreaker.lastUsed cb = t).
    { unfold cb, circuitbreaker.getCircuitBreaker.
      destruct (circuitbreaker.circuitBreakers p !! _); reflexivity. }
    assert (Hallow : circuitbreaker.lastUsed (circuitbreaker.allowRequest t cb).2 = t).
    { unfold circuitbreaker.allowRequest.
      repeat match goal with |- context [if ?b then _ else _] => destruct b end;
        exact Hcb. }
    destruct (circuitbreaker.allowRequest t cb) as [[|] cb']; cbn [fst snd] in *;
      (eexists; split; [apply lookup_insert_eq|exact Hallow]). }
  split; [exact Hlast|]. intros Hrecent.
  destruct Hlast as (cb & Hcb & Hused).
  unfold circuitbreaker.cleanupInactiveCircuitBreakers.
  cbn [circuitbreaker.circuitBreakers]. rewrite Hcb.
  apply map_lookup_filter_Some. split; [exact Hcb|].
  cbn. rewrite Hused. unfold Go.time_Sub, Go.MinInt64, Go.MaxInt64, Go.Minute, Go.Second in *.
  lia.
Qed.

(* ================================================================== *)
(** * External validator, further properties                            *)
(* ================================================================== *)

Lemma HasPrefix_split (s p : string) :
  Go.HasPrefix s p = true -> s = (p ++ Go.drop_bytes (String.length p) s)%string.
Proof.
  revert s. induction p as [|a p IH]; intros s H; [reflexivity|].
  destruct s as [|b s]; [discriminate|]. cbn in H.
  destruct (Ascii.eqb a b) eqn:E; [|discriminate].
  apply Ascii.eqb_eq in E. subst b.
  change (String a p ++ Go.drop_bytes (String.length (String a p)) (String a s))%string
    with (String a (p ++ Go.drop_bytes (String.length p) s)).
  f_equal. now apply IH.
Qed.

(** The token is what follows "Bearer " in the Authorization header: a
    header of that form yields it, and every non-empty token comes from
    such a header.  Any other header, and "Bearer " alone, yield the
    empty token. *)
Theorem bearer_token_extraction (c : gin.Context) :
  let header := gin.GetHeader c "Authorization" in
  let token := interface_auth.getTokenFromAuthorizationHeader c in
  (forall t, header = ("Bearer " ++ t)%string -> token = t)
  /\ (token <> "" -> header = ("Bearer " ++ token)%string).
Proof.
  cbv zeta. unfold interface_auth.getTokenFromAuthorizationHeader. split.
  - intros t ->. change (("Bearer " ++ t =? "")%string) with false. cbn iota.
    rewrite (HasPrefix_app "Bearer " t). apply TrimPrefix_app.
  - destruct (String.eqb (gin.GetHeader c "Authorization") ""); [congruence|].
    destruct (Go.HasPrefix (gin.GetHeader c "Authorization") "Bearer ") eqn:E;
      [|congruence].
    intros _. unfold Go.TrimPrefix. rewrite E.
    apply (HasPrefix_split _ "Bearer "). exact E.
Qed.

Lemma sent_emit (k : gin.call) (c : gin.Context) :
  authcalls.sent (gin.emit k c)
  = authcalls.sent c ++ (if gin.is_auth_request k then [k] else []).
Proof.
  unfold authcalls.sent, gin.emit. cbn [gin.calls].
  rewrite List.filter_app. cbn. now destruct (gin.is_auth_request k).
Qed.

Lemma sent_fail (p : gin.payload) (e : gin.error) (c : gin.Context) :
  authcalls.sent (interface_auth.fail p e c).1 = authcalls.sent c.
Proof.
  unfold interface_auth.fail. cbn [fst].
  change (authcalls.sent (gin.Abort ?x)) with (authcalls.sent x).
  rewrite sent_emit. cbn. apply app_nil_r.
Qed.

(** The auth service is asked at most once per request, and only for a
    path outside the white list with a non-empty bearer token and a
    well-formed URL; the request goes to
    http://<host><auth_api>/<token>. *)
Theorem auth_service_asked_once (env : ext.Env) (p : interface_auth.Plugin)
        (c : gin.Context) :
  let token := interface_auth.getTokenFromAuthorizationHeader c in
  let url := interface_auth.authURL p token in
  authcalls.sent (interface_auth.Execute env p c).1
  = authcalls.sent c
    ++ (if negb (interface_auth.isWhiteListed env p (gin.Path (gin.Req c)))
           && negb (String.eqb token "") && ext.url_Parse_ok env url
        then [gin.AuthRequest url] else []).
Proof.
  cbv zeta. unfold interface_auth.Execute.
  destruct (interface_auth.isWhiteListed env p _); cbn [negb andb].
  - cbn [fst]. now rewrite app_nil_r.
  - destruct (String.eqb (interface_auth.getTokenFromAuthorizationHeader c) "");
      cbn [negb andb].
    + rewrite sent_fail. now rewrite app_nil_r.
    + assert (H : authcalls.sent
                    (interface_auth.callAuthService env p c
                       (interface_auth.getTokenFromAuthorizationHeader c)).1
                  = authcalls.sent c
                    ++ (if ext.url_Parse_ok env
                             (interface_auth.authURL p
                                (interface_auth.getTokenFromAuthorizationHeader c))
                        then [gin.AuthRequest
                                (interface_auth.authURL p
                                   (interface_auth.getTokenFromAuthorizationHeader c))]
                        else [])).
      { unfold interface_auth.callAuthService.
        destruct (ext.url_Parse_ok env _); cbn [negb].
        - assert (Hs : forall x : gin.call, gin.is_auth_request x = true ->
                    authcalls.sent (gin.emit x c) = authcalls.sent c ++ [x]).
          { intros x Hx. now rewrite sent_emit, Hx. }
          destruct (ext.authService env _) as [|status reads].
          + now rewrite sent_fail, Hs.
          + repeat match goal with |- context [if ?b then _ else _] => destruct b end;
              rewrite ?sent_fail; cbn [fst]; now rewrite Hs.
        - rewrite sent_fail. now rewrite app_nil_r. }
      destruct (interface_auth.callAuthService env p c _) as [c' [e|]]; cbn [fst] in *;
        exact H.
Qed.

Lemma compile_result (env : ext.Env) (patterns : list string) :
  forall (regex : list string) (exact : gset string) (r : list string) (x : gset string),
    interface_auth.compile env patterns regex exact = Some (r, x) ->
    r = regex ++ map interface_auth.regexPattern (List.filter authcalls.wild patterns)
    /\ (forall path, path ∈ x <->
          path ∈ exact \/ (path ∈ patterns /\ authcalls.wild path = false)).
Proof.
  induction patterns as [|pattern rest IH]; intros regex exact r x; cbn.
  - intros [= <- <-]. rewrite app_nil_r. split; [reflexivity|].
    intros path. split; [now left|]. intros [H|[H _]]; [exact H|inversion H].
  - fold (authcalls.wild pattern). destruct (authcalls.wild pattern) eqn:Ew.
    + destruct (ext.regexp_Compile_ok env _); [|discriminate].
      intros H. apply IH in H as [-> Hx]. rewrite <- app_assoc. split; [reflexivity|].
      intros path. rewrite Hx, elem_of_cons. split.
      * intros [H|[H Hw]]; [now left|right; split; [now right|exact Hw]].
      * intros [H|[[->|H] Hw]]; [now left|congruence|right; now split].
    + intros H. apply IH in H as [-> Hx]. split; [reflexivity|].
      intros path. rewrite Hx, elem_of_union, elem_of_singleton, elem_of_cons. split.
      * intros [[->|H]|[H Hw]]; [right; split; [now left|exact Ew]|now left|].
        right. split; [now right|exact Hw].
      * intros [H|[[->|H] Hw]]; [left; now right|left; now left|right; now split].
Qed.

(** After [Init] a path is white-listed exactly when some configured
    entry lets it through: an entry without a star by equality, an entry
    with stars by its anchored regular expression. *)
Theorem whitelist_after_Init (env : ext.Env) (cfg : interface_auth.Config)
        (p : interface_auth.Plugin) (path : string) :
  interface_auth.Init env cfg = Some p ->
  interface_auth.isWhiteListed env p path = true
  <-> exists pattern, pattern ∈ interface_auth.WhiteInterfaces cfg
                      /\ authcalls.admits env pattern path.
Proof.
  unfold interface_auth.Init, interface_auth.compileWhiteList.
  destruct (interface_auth.compile env _ [] ∅) as [[r x]|] eqn:E; [|discriminate].
  intros [= <-]. apply compile_result in E as [-> Hx]. cbn [app] in *.
  unfold interface_auth.isWhiteListed. cbn [interface_auth.whiteListExact
    interface_auth.whiteListRegex].
  rewrite orb_true_iff, bool_decide_eq_true, Hx, existsb_exists.
  unfold authcalls.admits. split.
  - intros [[H|[H Hw]]|(re & Hin & Hm)].
    + now apply elem_of_empty in H.
    + exists path. rewrite Hw. split; [exact H|reflexivity].
    + apply in_map_iff in Hin as (pattern & <- & Hin).
      apply List.filter_In in Hin as [Hin Hw].
      exists pattern. rewrite Hw. split; [now apply list_elem_of_In|exact Hm].
  - intros (pattern & Hin & Hadm). destruct (authcalls.wild pattern) eqn:Hw.
    + right. exists (interface_auth.regexPattern pattern). split; [|exact Hadm].
      apply in_map_iff. exists pattern. split; [reflexivity|].
      apply List.filter_In. split; [now apply list_elem_of_In|exact Hw].
    + left. right. subst path. split; [exact Hin|exact Hw].
Qed.

Lemma whitelist_after_Init_witness :
  interface_auth.isWhiteListed sample.env sample.auth_plugin "/info" = true
  <-> exists pattern, pattern ∈ interface_auth.WhiteInterfaces sample.auth_config
                      /\ authcalls.admits sample.env pattern "/info".
Proof.
  apply (whitelist_after_Init sample.env sample.auth_config sample.auth_plugin "/info").
  reflexivity.
Defined.

(* ================================================================== *)
(** * Consistency check, further properties                             *)
(* ================================================================== *)

Lemma collect_values (c : gin.Context) (fields : list string) :
  forall values,
    consistency.collect c fields = inl values ->
    values = map (gin.GetHeader c) fields
    /\ Forall (fun field => gin.GetHeader c field <> "") fields.
Proof.
  induction fields as [|field rest IH]; intros values; cbn.
  - intros [= <-]. split; [reflexivity|constructor].
  - destruct (String.eqb (gin.GetHeader c field) "") eqn:E; [discriminate|].
    apply String.eqb_neq in E.
    destruct (consistency.collect c rest) as [vs|e]; [|discriminate].
    intros [= <-]. destruct (IH vs eq_refl) as [-> Hall].
    split; [reflexivity|constructor; assumption].
Qed.

Lemma calculateSignature_config (env : ext.Env) (p p' : consistency.ConsistencyPlugin)
      (values : list string) :
  consistency.config p = consistency.config p' ->
  consistency.calculateSignature env p values = consistency.calculateSignature env p' values.
Proof. intros H. unfold consistency.calculateSignature. now rewrite H. Qed.

Lemma checkRequest_accepted
      (env : ext.Env) (p p' : consistency.ConsistencyPlugin) (c : gin.Context) :
  consistency.checkRequest env p c = (p', None) ->
  let signature := gin.GetHeader c (consistency.SignatureField (consistency.config p)) in
  let nonce := gin.GetHeader c "nonce" in
  let fields := consistency.Fields (consistency.config p) in
  signature <> ""
  /\ consistency.validateTimestamp (ext.now env) p (gin.GetHeader c "timestamp") = None
  /\ nonce <> ""
  /\ consistency.usedNonces p !! nonce = None
  /\ Forall (fun field => gin.GetHeader c field <> "") fields
  /\ consistency.calculateSignature env p (map (gin.GetHeader c) fields) = inl signature
  /\ consistency.usedNonces p' !! nonce = Some (ext.now env)
  /\ consistency.config p' = consistency.config p.
Proof.
  unfold consistency.checkRequest. intros H. cbv zeta.
  destruct (String.eqb (gin.GetHeader c (consistency.SignatureField _)) "") eqn:Es;
    [discriminate|].
  destruct (String.eqb (gin.GetHeader c "timestamp") ""); [discriminate|].
  destruct (consistency.validateTimestamp _ _ _) eqn:Et; [discriminate|].
  destruct (String.eqb (gin.GetHeader c "nonce") "") eqn:En; [discriminate|].
  unfold consistency.validateNonce in H.
  destruct (consistency.usedNonces p !! gin.GetHeader c "nonce") eqn:Eu; [discriminate|].
  cbn [negb] in H.
  change (consistency.config (consistency.cleanupExpiredNonces (ext.now env) p))
    with (consistency.config p) in H.
  destruct (consistency.collect c _) as [values|e] eqn:Ec; [|discriminate].
  apply collect_values in Ec as [-> Hall].
  rewrite (calculateSignature_config env _ p) in H by reflexivity.
  destruct (consistency.calculateSignature env p _) as [sig|e] eqn:Eg; [|discriminate].
  destruct (String.eqb sig _) eqn:Eq; [|discriminate].
  apply String.eqb_eq in Eq. apply String.eqb_neq in Es, En. subst sig.
  injection H as <-. cbn [consistency.usedNonces consistency.config].
  rewrite lookup_insert_eq. repeat split; assumption.
Qed.

Lemma Execute_accepted (env : ext.Env) (p : consistency.ConsistencyPlugin)
      (c : gin.Context) :
  consistency.Enabled (consistency.config p) = true ->
  (consistency.Execute env p c).2 = None ->
  consistency.checkRequest env p c = ((consistency.Execute env p c).1.1, None).
Proof.
  intros Hen Hok. unfold consistency.Execute in *. rewrite Hen in *. cbn [negb] in *.
  destruct (consistency.checkRequest env p c) as [p' [e|]]; [discriminate|].
  destruct (consistency.CheckResponse _); reflexivity.
Qed.

(** The enabled plug-in lets a request pass only if it carries a
    signature, a timestamp within the validity and a nonce not seen
    before, every configured field is present, and the signature equals
    the digest of the field values joined by "&"; the nonce is then
    recorded with the instant of the check. *)
Theorem accepted_request_is_signed_and_fresh
        (env : ext.Env) (p : consistency.ConsistencyPlugin) (c : gin.Context) :
  consistency.Enabled (consistency.config p) = true ->
  (consistency.Execute env p c).2 = None ->
  let p' := (consistency.Execute env p c).1.1 in
  let signature := gin.GetHeader c (consistency.SignatureField (consistency.config p)) in
  let nonce := gin.GetHeader c "nonce" in
  let fields := consistency.Fields (consistency.config p) in
  signature <> ""
  /\ consistency.validateTimestamp (ext.now env) p (gin.GetHeader c "timestamp") = None
  /\ nonce <> ""
  /\ consistency.usedNonces p !! nonce = None
  /\ Forall (fun field => gin.GetHeader c field <> "") fields
  /\ consistency.calculateSignature env p (map (gin.GetHeader c) fields) = inl signature
  /\ consistency.usedNonces p' !! nonce = Some (ext.now env)
  /\ consistency.config p' = consistency.config p.
Proof.
  intros Hen Hok.
  pose proof (Execute_accepted env p c Hen Hok) as Hcheck.
  exact (checkRequest_accepted env p _ c Hcheck).
Qed.

Lemma accepted_request_is_signed_and_fresh_witness :
  let c := gin.New (sample.request "POST" "/pay" "gw.example.com"
                      [("X-Signature", "1699999900&n-1"); ("timestamp", "1699999900");
                       ("nonce", "n-1")]) in
  gin.GetHeader c "nonce" <> ""
  /\ consistency.usedNonces (consistency.Execute sample.env consistency.New c).1.1
       !! "n-1" = Some sample.t0.
Proof.
  intros c.
  pose proof (accepted_request_is_signed_and_fresh sample.env consistency.New c) as H.
  cbv zeta in H. destruct H as (_ & _ & Hn & _ & _ & _ & Hu & _).
  - vm_compute. reflexivity.
  - vm_compute. reflexivity.
  - split; [exact Hn|exact Hu].
Defined.

(** Replay protection.  Once the enabled plug-in has accepted a
    request, the request that follows it, if it carries the same nonce,
    is answered 400 and aborted, whatever else it carries and however
    late it comes, and leaves the plug-in as it was. *)
Theorem replayed_nonce_is_refused
        (env env' : ext.Env) (p : consistency.ConsistencyPlugin) (c c' : gin.Context) :
  consistency.Enabled (consistency.config p) = true ->
  (consistency.Execute env p c).2 = None ->
  gin.GetHeader c' "nonce" = gin.GetHeader c "nonce" ->
  let p' := (consistency.Execute env p c).1.1 in
  exists e,
    consistency.Execute env' p' c'
    = (p', gin.Abort (gin.emit (gin.JSON 400 (gin.H_error e)) c'), Some e).
Proof.
  intros Hen Hok Hnonce. cbv zeta.
  pose proof (Execute_accepted env p c Hen Hok) as Ec.
  set (p' := (consistency.Execute env p c).1.1) in *. clearbody p'. clear Hok.
  pose proof (checkRequest_accepted env p p' c Ec)
    as (_ & _ & Hn & _ & _ & _ & Hu & Hcfg). cbv zeta in *.
  unfold consistency.Execute. rewrite Hcfg, Hen. cbn [negb].
  assert (Hcheck : exists e, consistency.checkRequest env' p' c' = (p', Some e)).
  { unfold consistency.checkRequest.
    destruct (String.eqb (gin.GetHeader c' _) ""); [eexists; reflexivity|].
    destruct (String.eqb (gin.GetHeader c' "timestamp") ""); [eexists; reflexivity|].
    destruct (consistency.validateTimestamp _ _ _); [eexists; reflexivity|].
    rewrite Hnonce. apply String.eqb_neq in Hn. rewrite Hn.
    unfold consistency.validateNonce. rewrite Hu. cbn [negb]. eexists; reflexivity. }
  destruct Hcheck as [e ->]. exists e. reflexivity.
Qed.

Lemma replayed_nonce_is_refused_witness :
  let c := gin.New (sample.request "POST" "/pay" "gw.example.com"
                      [("X-Signature", "1699999900&n-1"); ("timestamp", "1699999900");
                       ("nonce", "n-1")]) in
  let p' := (consistency.Execute sample.env consistency.New c).1.1 in
  exists e,
    consistency.Execute (ext.at_time (sample.t0 + Go.Second) sample.env) p' c
    = (p', gin.Abort (gin.emit (gin.JSON 400 (gin.H_error e)) c), Some e).
Proof.
  apply (replayed_nonce_is_refused sample.env
           (ext.at_time (sample.t0 + Go.Second) sample.env) consistency.New
           (gin.New (sample.request "POST" "/pay" "gw.example.com"
                       [("X-Signature", "1699999900&n-1"); ("timestamp", "1699999900");
                        ("nonce", "n-1")]))).
  - reflexivity.
  - vm_compute. reflexivity.
  - reflexivity.
Defined.

(** A request that [checkRequest] rejects does not use up its nonce:
    the plug-in records nothing, and its store of nonces can only have
    lost entries to the clean-up. *)
Theorem rejected_request_records_nothing
        (env : ext.Env) (p p' : consistency.ConsistencyPlugin) (c : gin.Context)
        (e : gin.error) :
  consistency.checkRequest env p c = (p', Some e) ->
  consistency.config p' = consistency.config p
  /\ consistency.usedNonces p' ⊆ consistency.usedNonces p.
Proof.
  unfold consistency.checkRequest. intros H.
  assert (Hclean : consistency.usedNonces (consistency.cleanupExpiredNonces (ext.now env) p)
                   ⊆ consistency.usedNonces p) by apply map_filter_subseteq.
  destruct (String.eqb (gin.GetHeader c (consistency.SignatureField _)) "");
    [injection H as <- _; split; reflexivity|].
  destruct (String.eqb (gin.GetHeader c "timestamp") "");
    [injection H as <- _; split; reflexivity|].
  destruct (consistency.validateTimestamp _ _ _);
    [injection H as <- _; split; reflexivity|].
  destruct (String.eqb (gin.GetHeader c "nonce") "");
    [injection H as <- _; split; reflexivity|].
  unfold consistency.validateNonce in H.
  destruct (consistency.usedNonces p !! gin.GetHeader c "nonce"); cbn [negb] in H;
    [injection H as <- _; split; reflexivity|].
  destruct (consistency.collect c _);
    [|injection H as <- _; split; [reflexivity|exact Hclean]].
  destruct (consistency.calculateSignature env _ _);
    [|injection H as <- _; split; [reflexivity|exact Hclean]].
  destruct (String.eqb _ _); cbn [negb] in H; [discriminate|].
  injection H as <- _. split; [reflexivity|exact Hclean].
Qed.

Lemma rejected_request_records_nothing_witness :
  let c := gin.New (sample.request "POST" "/pay" "gw.example.com"
                      [("X-Signature", "forged"); ("timestamp", "1699999900");
                       ("nonce", "n-1")]) in
  consistency.usedNonces (consistency.checkRequest sample.env consistency.New c).1
  ⊆ consistency.usedNonces consistency.New.
Proof.
  cbv zeta.
  eapply (rejected_request_records_nothing sample.env consistency.New _
            (gin.New (sample.request "POST" "/pay" "gw.example.com"
                        [("X-Signature", "forged"); ("timestamp", "1699999900");
                         ("nonce", "n-1")])) gin.ErrInvalidSignature).
  vm_compute. reflexivity.
Defined.

(* ================================================================== *)
(** * CORS, with a configured list of origins                           *)
(* ================================================================== *)

Lemma existsb_eqb_elem_of (origin : string) (origins : list string) :
  existsb (fun allowed => String.eqb allowed origin) origins = true <-> origin ∈ origins.
Proof.
  rewrite existsb_exists. split.
  - intros (x & Hin & Heq). apply String.eqb_eq in Heq. subst x.
    now apply list_elem_of_In.
  - intros H. exists origin. split; [now apply list_elem_of_In|apply String.eqb_refl].
Qed.

(** With a configured [allowed_origins] list of strings, an origin is
    allowed exactly when it is not empty and either the list is the
    single entry "*" or the origin is one of its entries.  A star among
    several entries is an ordinary entry, and an empty list allows
    nothing. *)
Theorem origin_allowed_by_list (p : cors.CorsPlugin) (l : list config.value)
        (origins : list string) (origin : string) :
  cors.config p !! "allowed_origins" = Some (config.VList l) ->
  config.strings_of l = Some origins ->
  cors.isOriginAllowed p origin
  = Some (bool_decide (origin <> "" /\ (origins = ["*"] \/ origin ∈ origins))).
Proof.
  intros Hcfg Hl. unfold cors.isOriginAllowed, cors.getAllowedOrigins.
  rewrite Hcfg, Hl.
  destruct (String.eqb origin "") eqn:Eo.
  - apply String.eqb_eq in Eo. f_equal. symmetry. apply bool_decide_eq_false. tauto.
  - apply String.eqb_neq in Eo.
    destruct origins as [|first rest]; cbn [length Nat.eqb].
    + f_equal. symmetry. apply bool_decide_eq_false.
      intros [_ [H|H]]; [discriminate|inversion H].
    + destruct rest as [|second rest]; cbn [length Nat.eqb andb head default]; unfold id.
      * destruct (String.eqb first "*") eqn:Es.
        -- apply String.eqb_eq in Es. subst first. f_equal. symmetry.
           apply bool_decide_eq_true. split; [exact Eo|now left].
        -- apply String.eqb_neq in Es. f_equal.
           destruct (existsb _ [first]) eqn:Ex.
           ++ apply existsb_eqb_elem_of in Ex. symmetry.
              apply bool_decide_eq_true. split; [exact Eo|now right].
           ++ symmetry. apply bool_decide_eq_false. intros [_ [H|H]]; [congruence|].
              apply existsb_eqb_elem_of in H. congruence.
      * f_equal. destruct (existsb _ (first :: second :: rest)) eqn:Ex.
        -- apply existsb_eqb_elem_of in Ex. symmetry.
           apply bool_decide_eq_true. split; [exact Eo|now right].
        -- symmetry. apply bool_decide_eq_false. intros [_ [H|H]]; [discriminate|].
           apply existsb_eqb_elem_of in H. congruence.
Qed.

Lemma origin_allowed_by_list_witness :
  let p := cors.Init {["allowed_origins" :=
                         config.VList [config.VString "*";
                                       config.VString "https://app.example.com"]]}
                     cors.New in
  cors.isOriginAllowed p "https://other.example.com"
  = Some (bool_decide ("https://other.example.com" <> ""
                       /\ (["*"; "https://app.example.com"] = ["*"]
                           \/ "https://other.example.com"
                              ∈ ["*"; "https://app.example.com"]))).
Proof.
  intros p.
  apply (origin_allowed_by_list p
           [config.VString "*"; config.VString "https://app.example.com"]
           ["*"; "https://app.example.com"] "https://other.example.com").
  - reflexivity.
  - reflexivity.
Defined.

Lemma header_from_calls (key : string) (v : option string) (c0 : gin.Context) (ok : bool) :
  exists new,
    gin.calls (cors.header_from key v (c0, ok)).1 = gin.calls c0 ++ new
    /\ forall k, k ∈ new -> exists value, k = gin.SetHeader key value.
Proof.
  unfold cors.header_from. destruct ok; [destruct v as [value|]|].
  - exists [gin.SetHeader key value]. split; [reflexivity|].
    intros k Hk. apply list_elem_of_singleton in Hk. now exists value.
  - exists []. split; [now rewrite app_nil_r|]. intros k Hk. inversion Hk.
  - exists []. split; [now rewrite app_nil_r|]. intros k Hk. inversion Hk.
Qed.

(** The plug-in only adds to what has been written, and it names an
    origin in Access-Control-Allow-Origin only when [isOriginAllowed]
    accepts the request's Origin, and then that very origin. *)
Theorem allow_origin_names_only_allowed_origins (p : cors.CorsPlugin) (c : gin.Context) :
  let origin := gin.GetHeader c "Origin" in
  exists new,
    gin.calls (cors.Execute p c).1 = gin.calls c ++ new
    /\ forall value,
         gin.SetHeader "Access-Control-Allow-Origin" value ∈ new ->
         value = origin /\ cors.isOriginAllowed p origin = Some true.
Proof.
  cbv zeta.
  assert (Hstep : forall key v (s : cors.step) pre,
            key <> "Access-Control-Allow-Origin" ->
            (exists new, gin.calls s.1 = gin.calls c ++ new
                         /\ forall value,
                              gin.SetHeader "Access-Control-Allow-Origin" value ∈ new ->
                              pre value) ->
            exists new, gin.calls (cors.header_from key v s).1 = gin.calls c ++ new
                        /\ forall value,
                             gin.SetHeader "Access-Control-Allow-Origin" value ∈ new ->
                             pre value).
  { intros key v [c0 ok] pre Hkey (new & Hc & Hnew).
    destruct (header_from_calls key v c0 ok) as (more & Hm & Hmore).
    exists (new ++ more). cbn [fst] in *. rewrite Hm, Hc, app_assoc. split; [reflexivity|].
    intros value Hin. apply elem_of_app in Hin as [Hin|Hin]; [now apply Hnew|].
    apply Hmore in Hin as (v' & [= Hk _]). congruence. }
  assert (Hfinish : forall (s : cors.step) (k : gin.call) pre,
            (forall value, k <> gin.SetHeader "Access-Control-Allow-Origin" value) ->
            (exists new, gin.calls s.1 = gin.calls c ++ new
                         /\ forall value,
                              gin.SetHeader "Access-Control-Allow-Origin" value ∈ new ->
                              pre value) ->
            exists new, gin.calls (gin.emit k s.1) = gin.calls c ++ new
                        /\ forall value,
                             gin.SetHeader "Access-Control-Allow-Origin" value ∈ new ->
                             pre value).
  { intros s k pre Hk (new & Hc & Hnew). exists (new ++ [k]).
    unfold gin.emit. cbn [gin.calls]. rewrite Hc, app_assoc. split; [reflexivity|].
    intros value Hin. apply elem_of_app in Hin as [Hin|Hin]; [now apply Hnew|].
    apply list_elem_of_singleton in Hin. now destruct (Hk value). }
  set (pre := fun value : string =>
                value = gin.GetHeader c "Origin"
                /\ cors.isOriginAllowed p (gin.GetHeader c "Origin") = Some true).
  assert (Hnone : exists new, gin.calls c = gin.calls c ++ new
                    /\ forall value,
                         gin.SetHeader "Access-Control-Allow-Origin" value ∈ new ->
                         pre value).
  { exists []. split; [now rewrite app_nil_r|]. intros value H. inversion H. }
  assert (Hfirst : cors.isOriginAllowed p (gin.GetHeader c "Origin") = Some true ->
            exists new,
              gin.calls (gin.emit (gin.SetHeader "Access-Control-Allow-Origin"
                                     (gin.GetHeader c "Origin")) c)
              = gin.calls c ++ new
              /\ forall value,
                   gin.SetHeader "Access-Control-Allow-Origin" value ∈ new -> pre value).
  { intros Hall. exists [gin.SetHeader "Access-Control-Allow-Origin" (gin.GetHeader c "Origin")].
    split; [reflexivity|]. intros value Hin. apply list_elem_of_singleton in Hin.
    injection Hin as ->. split; [reflexivity|exact Hall]. }
  unfold cors.Execute.
  destruct (String.eqb (gin.Method (gin.Req c)) "OPTIONS").
  - unfold cors.handlePreflight.
    destruct (cors.isOriginAllowed p (gin.GetHeader c "Origin")) as [[|]|] eqn:Ea.
    + specialize (Hfirst eq_refl).
      set (s1 := (gin.emit _ c, true)) in *.
      pose proof (Hstep "Access-Control-Allow-Methods" (cors.getAllowedMethods p) s1 pre
                    ltac:(discriminate) Hfirst) as H2.
      set (s2 := cors.header_from _ _ s1) in *.
      pose proof (Hstep "Access-Control-Allow-Headers" (cors.getAllowedHeaders p) s2 pre
                    ltac:(discriminate) H2) as H3.
      set (s3 := cors.header_from _ _ s2) in *.
      pose proof (Hstep "Access-Control-Expose-Headers" (cors.getExposedHeaders p) s3 pre
                    ltac:(discriminate) H3) as H4.
      set (s4 := cors.header_from _ _ s3) in *.
      pose proof (Hstep "Access-Control-Max-Age" (Some (cors.getMaxAge p)) s4 pre
                    ltac:(discriminate) H4) as H5.
      set (s5 := cors.header_from _ _ s4) in *.
      pose proof (Hfinish s5 (gin.Status 200) pre ltac:(discriminate) H5) as H6.
      destruct s5 as [c5 [|]]; cbn [fst] in *; [exact H6|exact H5].
    + apply (Hfinish (c, true) (gin.Status 403) pre ltac:(discriminate) Hnone).
    + exact Hnone.
  - unfold cors.handleActualRequest.
    destruct (String.eqb (gin.GetHeader c "Origin") ""); [exact Hnone|].
    destruct (cors.isOriginAllowed p (gin.GetHeader c "Origin")) as [[|]|] eqn:Ea;
      [|exact Hnone|exact Hnone].
    specialize (Hfirst eq_refl).
    pose proof (Hstep "Access-Control-Expose-Headers" (cors.getExposedHeaders p)
                  (gin.emit (gin.SetHeader "Access-Control-Allow-Origin"
                               (gin.GetHeader c "Origin")) c, true)
                  pre ltac:(discriminate) Hfirst) as H2.
    destruct (cors.header_from _ _ _) as [c2 [|]]; exact H2.
Qed.

(* ================================================================== *)
(** * Validation, reload hooks and the configuration centre             *)
(* ================================================================== *)

Lemma first_error_None {A E : Type} (f : A -> option E) (l : list A) :
  config.first_error f l = None <-> Forall (fun x => f x = None) l.
Proof.
  induction l as [|x l IH]; cbn; [split; [constructor|reflexivity]|].
  destruct (f x) eqn:E0.
  - split; [discriminate|]. intros H. apply Forall_inv in H. congruence.
  - rewrite IH. split; [now constructor|]. intros H. now apply Forall_inv_tail in H.
Qed.

Lemma validateServerConfig_None (c : config.ServerConfig) :
  config.validateServerConfig c = None <-> valid.server c.
Proof.
  unfold config.validateServerConfig, valid.server.
  destruct (config.Port c <=? 0) eqn:E1; cbn [orb];
    [apply Z.leb_le in E1; split; [discriminate|lia]|]. apply Z.leb_gt in E1.
  destruct (65535 <? config.Port c) eqn:E2;
    [apply Z.ltb_lt in E2; split; [discriminate|lia]|]. apply Z.ltb_ge in E2.
  destruct (negb (String.eqb (config.Mode c) "debug")
            && negb (String.eqb (config.Mode c) "release")) eqn:Em.
  { split; [discriminate|]. intros (_ & [H|H] & _); rewrite H in Em; discriminate. }
  assert (Hmode : config.Mode c = "debug" \/ config.Mode c = "release").
  { destruct (String.eqb_spec (config.Mode c) "debug"); [now left|].
    destruct (String.eqb_spec (config.Mode c) "release"); [now right|discriminate]. }
  destruct (config.ReadTimeout c <=? 0) eqn:E3;
    [apply Z.leb_le in E3; split; [discriminate|lia]|]. apply Z.leb_gt in E3.
  destruct (config.WriteTimeout c <=? 0) eqn:E4;
    [apply Z.leb_le in E4; split; [discriminate|lia]|]. apply Z.leb_gt in E4.
  destruct (config.MaxHeaderBytes c <=? 0) eqn:E5;
    [apply Z.leb_le in E5; split; [discriminate|lia]|]. apply Z.leb_gt in E5.
  destruct (config.GracefulShutdownTimeout c <=? 0) eqn:E6;
    [apply Z.leb_le in E6; split; [discriminate|lia]|]. apply Z.leb_gt in E6.
  split; [intros _; repeat split; try lia; exact Hmode|reflexivity].
Qed.

Lemma validateLogConfig_None (c : config.LogConfig) :
  config.validateLogConfig c = None <-> valid.log c.
Proof.
  unfold config.validateLogConfig, valid.log.
  destruct (String.eqb (config.Level c) "") eqn:E1.
  { apply String.eqb_eq in E1. split; [discriminate|]. intros (H & _). rewrite E1 in H.
    unfold config.validLevels in H. rewrite !elem_of_cons, elem_of_nil in H.
    intuition discriminate. }
  destruct (bool_decide (config.Level c ∈ config.validLevels)) eqn:E2; cbn [negb];
    [apply bool_decide_eq_true in E2
    |apply bool_decide_eq_false in E2; split; [discriminate|tauto]].
  destruct (String.eqb (config.Format c) "") eqn:E3.
  { apply String.eqb_eq in E3. split; [discriminate|]. intros (_ & H & _). rewrite E3 in H.
    unfold config.validFormats in H. rewrite !elem_of_cons, elem_of_nil in H.
    intuition discriminate. }
  destruct (bool_decide (config.Format c ∈ config.validFormats)) eqn:E4; cbn [negb];
    [apply bool_decide_eq_true in E4
    |apply bool_decide_eq_false in E4; split; [discriminate|tauto]].
  destruct (String.eqb (config.Output c) "") eqn:E5;
    [apply String.eqb_eq in E5; split; [discriminate|tauto]|].
  apply String.eqb_neq in E5.
  destruct (config.MaxSize c <=? 0) eqn:E6;
    [apply Z.leb_le in E6; split; [discriminate|lia]|]. apply Z.leb_gt in E6.
  destruct (config.MaxAge c <=? 0) eqn:E7;
    [apply Z.leb_le in E7; split; [discriminate|lia]|]. apply Z.leb_gt in E7.
  destruct (config.MaxBackups c <=? 0) eqn:E8;
    [apply Z.leb_le in E8; split; [discriminate|lia]|]. apply Z.leb_gt in E8.
  split; [intros _; repeat split; assumption || lia|reflexivity].
Qed.

Lemma validatePluginConfig_None (c : config.PluginConfig) :
  config.validatePluginConfig c = None <-> valid.plugin c.
Proof.
  unfold config.validatePluginConfig, valid.plugin.
  destruct (String.eqb (config.PluginConfig_Name c) "") eqn:E1;
    [apply String.eqb_eq in E1; split; [discriminate|tauto]|].
  apply String.eqb_neq in E1.
  destruct (config.Order c <? 0) eqn:E2;
    [apply Z.ltb_lt in E2; split; [discriminate|lia]|]. apply Z.ltb_ge in E2.
  split; [intros _; split; assumption|reflexivity].
Qed.

Lemma validatePluginsConfig_None (c : config.PluginsConfig) :
  config.validatePluginsConfig c = None <-> valid.plugins c.
Proof.
  unfold config.validatePluginsConfig, valid.plugins.
  assert (Hl : forall l, config.first_error config.validatePluginConfig l = None
                         <-> Forall valid.plugin l).
  { intros l. rewrite first_error_None. apply Forall_iff. intros x.
    apply validatePluginConfig_None. }
  destruct (config.first_error config.validatePluginConfig (config.Available c)) eqn:E.
  - split; [discriminate|]. intros [H _]. apply Hl in H. congruence.
  - apply Hl in E. rewrite first_error_None, Forall_forall. split.
    + intros H. split; [exact E|]. intros route l Hr.
      apply Hl. apply (H (route, l)). now apply elem_of_map_to_list.
    + intros [_ H] [route l] Hin. apply Hl. apply (H route).
      now apply elem_of_map_to_list.
Qed.

Lemma validateRouteConfig_None (url_Parse_ok : string -> bool) (c : config.RouteConfig) :
  config.validateRouteConfig url_Parse_ok c = None <-> valid.route url_Parse_ok c.
Proof.
  unfold config.validateRouteConfig, valid.route.
  destruct (String.eqb (config.RouteConfig_Name c) "") eqn:E1;
    [apply String.eqb_eq in E1; split; [discriminate|tauto]|].
  apply String.eqb_neq in E1.
  destruct (config.Priority (config.Match c) <? 0) eqn:E2;
    [apply Z.ltb_lt in E2; split; [discriminate|lia]|]. apply Z.ltb_ge in E2.
  destruct (String.eqb (config.RouteMatch_Path (config.Match c)) "") eqn:E3;
    [apply String.eqb_eq in E3; split; [discriminate|tauto]|].
  apply String.eqb_neq in E3.
  destruct (String.eqb (config.URL (config.Target c)) "") eqn:E4;
    [apply String.eqb_eq in E4; split; [discriminate|tauto]|].
  apply String.eqb_neq in E4.
  destruct (url_Parse_ok (config.URL (config.Target c))) eqn:E5; cbn [negb].
  - split; [intros _; repeat split; assumption|reflexivity].
  - split; [discriminate|]. intros (_ & _ & _ & _ & H). discriminate.
Qed.

Lemma validateRoutesFrom_None (url_Parse_ok : string -> bool)
      (routes : list config.RouteConfig) :
  forall i, config.validateRoutesFrom url_Parse_ok i routes = None
            <-> Forall (valid.route url_Parse_ok) routes.
Proof.
  induction routes as [|r rest IH]; intros i; cbn; [split; [constructor|reflexivity]|].
  destruct (config.validateRouteConfig url_Parse_ok r) eqn:E.
  - split; [discriminate|]. intros H. apply Forall_inv in H.
    apply validateRouteConfig_None in H. congruence.
  - apply validateRouteConfig_None in E. rewrite IH. split; [now constructor|].
    intros H. now apply Forall_inv_tail in H.
Qed.

(** [ValidateConfig] returns nil exactly for the configurations with a
    port between 1 and 65535, mode debug or release, positive time-outs
    and sizes, a known log level and format, a log output, named plug-ins
    of non-negative order, and at least one route, every route with a
    name, a non-negative priority, a path and a target URL that parses. *)
Theorem ValidateConfig_accepts_exactly (url_Parse_ok : string -> bool)
        (c : config.Config) :
  config.ValidateConfig url_Parse_ok c = None <-> valid.configuration url_Parse_ok c.
Proof.
  unfold config.ValidateConfig, valid.configuration.
  destruct (config.validateServerConfig (config.Server c)) eqn:Es.
  { split; [discriminate|]. intros (H & _). apply validateServerConfig_None in H.
    congruence. }
  apply validateServerConfig_None in Es.
  destruct (config.validateLogConfig (config.Log c)) eqn:El.
  { split; [discriminate|]. intros (_ & H & _). apply validateLogConfig_None in H.
    congruence. }
  apply validateLogConfig_None in El.
  destruct (config.validatePluginsConfig (config.Config_Plugins c)) eqn:Ep.
  { split; [discriminate|]. intros (_ & _ & H & _). apply validatePluginsConfig_None in H.
    congruence. }
  apply validatePluginsConfig_None in Ep.
  unfold config.validateRoutesConfig.
  destruct (config.Routes c) as [|r rest] eqn:Er.
  - split; [discriminate|]. intros (_ & _ & _ & H & _). congruence.
  - rewrite validateRoutesFrom_None. split.
    + intros H. split; [exact Es|]. split; [exact El|]. split; [exact Ep|].
      split; [discriminate|exact H].
    + intros (_ & _ & _ & _ & H). exact H.
Qed.

Section Hooks.
Variable url_Parse_ok : string -> bool.
Variable decode : string -> option config.Config.
Context {S : Type}.

Lemma runHooks_app (before after : list (config.Config -> S -> S * bool))
      (c : config.Config) :
  forall (i : nat) (s s1 : S),
    config.runHooks i before c s = (s1, None) ->
    config.runHooks i (before ++ after) c s
    = config.runHooks (i + length before) after c s1.
Proof.
  induction before as [|h rest IH]; intros i s s1; cbn.
  - intros [= <-]. now rewrite Nat.add_0_r.
  - destruct (h c s) as [s' [|]]; [|discriminate].
    intros H. rewrite (IH (Datatypes.S i) s' s1 H). f_equal. lia.
Qed.

(** A reload whose file is valid installs the new configuration before
    it runs the hooks.  When a hook fails the reload reports that hook,
    the hooks after it do not run, and the new configuration stays in
    force. *)
Theorem failed_hook_leaves_new_configuration
        (cm : config.ConfigManager (S := S)) (s s1 s2 : S) (text : string)
        (c : config.Config)
        (before after : list (config.Config -> S -> S * bool))
        (hook : config.Config -> S -> S * bool) :
  decode text = Some c ->
  config.ValidateConfig url_Parse_ok c = None ->
  config.reloadHooks cm = before ++ hook :: after ->
  config.runHooks 0 before c s = (s1, None) ->
  hook c s1 = (s2, false) ->
  let result := config.ReloadConfig url_Parse_ok decode cm s (Some text) (Some text) in
  result.2 = Some (config.HookFailed (length before))
  /\ result.1.2 = s2
  /\ config.GetConfig result.1.1 = Some c.
Proof.
  intros Hdec Hval Hhooks Hbefore Hfail result. unfold result.
  unfold config.ReloadConfig, config.TestConfig, config.parse, config.LoadConfig.
  rewrite Hdec, Hval. cbn [config.currentConfig config.reloadHooks].
  rewrite Hhooks, (runHooks_app before (hook :: after) c 0%nat s s1 Hbefore).
  cbn [config.runHooks]. rewrite Hfail. cbn. repeat split; reflexivity.
Qed.
End Hooks.

Lemma failed_hook_leaves_new_configuration_witness :
  let failing : config.Config -> nat -> nat * bool := fun _ n => (n, false) in
  let cm : config.ConfigManager (S := nat) :=
    {| config.currentConfig := None; config.viper := None;
       config.reloadHooks := [sample.counting_hook; failing; sample.counting_hook] |} in
  let result := config.ReloadConfig (ext.url_Parse_ok sample.env) sample.decode cm 0%nat
                                    (Some "good") (Some "good") in
  result.2 = Some (config.HookFailed 1)
  /\ result.1.2 = 1%nat
  /\ config.GetConfig result.1.1 = Some (sample.cfg 8080 [sample.default_service]).
Proof.
  intros failing cm.
  apply (failed_hook_leaves_new_configuration (ext.url_Parse_ok sample.env) sample.decode
           cm 0%nat 1%nat 1%nat "good" (sample.cfg 8080 [sample.default_service])
           [sample.counting_hook] [sample.counting_hook] failing).
  - reflexivity.
  - vm_compute. reflexivity.
  - reflexivity.
  - reflexivity.
  - reflexivity.
Defined.

Lemma addVersion_history (now : Z) (source comment : string) (c : config.Config)
      (cc : configcenter.ConfigCenter) :
  configcenter.currentConfig cc = Some c ->
  exists v cc',
    configcenter.addVersion now source comment cc = Some (v, cc')
    /\ configcenter.Config v = c
    /\ configcenter.currentConfig cc' = Some c
    /\ configcenter.maxVersions cc' = configcenter.maxVersions cc
    /\ configcenter.versions cc'
       = (if configcenter.maxVersions cc
             <? Z.of_nat (length (configcenter.versions cc ++ [v]))
          then drop 1 (configcenter.versions cc ++ [v])
          else configcenter.versions cc ++ [v])
    /\ (1 <= configcenter.maxVersions cc -> last (configcenter.versions cc') = Some v)
    /\ (0 <= configcenter.maxVersions cc ->
        Z.of_nat (length (configcenter.versions cc)) <= configcenter.maxVersions cc ->
        Z.of_nat (length (configcenter.versions cc')) <= configcenter.maxVersions cc).
Proof.
  intros Hc. unfold configcenter.addVersion. rewrite Hc.
  eexists _, _. split; [reflexivity|].
  cbn [configcenter.Config configcenter.currentConfig configcenter.maxVersions
       configcenter.versions].
  set (v := {| configcenter.Version := _; configcenter.Timestamp := _;
               configcenter.Config := _; configcenter.Comment := _ |}).
  repeat (split; [reflexivity|]).
  destruct (configcenter.maxVersions cc <? _) eqn:E.
  - apply Z.ltb_lt in E. rewrite length_app in E. cbn [length] in E. split.
    + intros Hmax. destruct (configcenter.versions cc) as [|x l]; [cbn in E; lia|].
      cbn [app drop]. apply last_snoc.
    + intros _ Hlen. rewrite length_drop, length_app. cbn [length]. lia.
  - apply Z.ltb_ge in E. split.
    + intros _. apply last_snoc.
    + intros _ _. exact E.
Qed.

(** [UpdateConfig] and [RollbackConfig] keep the history within
    [maxVersions], and after either of them has succeeded the newest
    version of the history holds the configuration in force. *)
Theorem history_stays_consistent (url_Parse_ok : string -> bool) (now : Z)
        (newConfig : config.Config) (comment version : string)
        (cc : configcenter.ConfigCenter) :
  1 <= configcenter.maxVersions cc ->
  Z.of_nat (length (configcenter.versions cc)) <= configcenter.maxVersions cc ->
  let updated := configcenter.UpdateConfig url_Parse_ok now newConfig comment cc in
  let rolled := configcenter.RollbackConfig now version cc in
  (updated.2 = None -> configcenter.consistent updated.1)
  /\ (rolled.2 = None -> configcenter.consistent rolled.1).
Proof.
  intros Hmax Hlen. cbv zeta. split.
  - unfold configcenter.UpdateConfig.
    destruct (configcenter.currentConfig cc) as [current|]; [|discriminate].
    destruct (config.ValidateConfig _ _); [discriminate|]. intros _.
    destruct (addVersion_history now "manual" comment
                (configcenter.merge current newConfig)
                {| configcenter.currentConfig := Some (configcenter.merge current newConfig);
                   configcenter.versions := configcenter.versions cc;
                   configcenter.maxVersions := configcenter.maxVersions cc;
                   configcenter.notified := configcenter.notified cc |} eq_refl)
      as (v & cc2 & -> & Hc & Hcur & Hm & _ & Hlast & Hbound).
    cbn [configcenter.versions configcenter.maxVersions] in Hm, Hlast, Hbound.
    unfold configcenter.consistent, configcenter.notify.
    cbn [fst configcenter.versions configcenter.maxVersions configcenter.currentConfig].
    rewrite Hm, Hcur, (Hlast Hmax). cbn. rewrite Hc.
    split; [apply Hbound; [lia|exact Hlen]|reflexivity].
  - unfold configcenter.RollbackConfig.
    destruct (configcenter.findVersion version cc) as [target|]; [|discriminate].
    intros _.
    destruct (addVersion_history now "rollback" ("回滚到版本 " ++ version)
                (configcenter.Config target)
                {| configcenter.currentConfig := Some (configcenter.Config target);
                   configcenter.versions := configcenter.versions cc;
                   configcenter.maxVersions := configcenter.maxVersions cc;
                   configcenter.notified := configcenter.notified cc |} eq_refl)
      as (v & cc2 & -> & Hc & Hcur & Hm & _ & Hlast & Hbound).
    cbn [configcenter.versions configcenter.maxVersions] in Hm, Hlast, Hbound.
    unfold configcenter.consistent. cbn [fst].
    rewrite Hm, Hcur, (Hlast Hmax). cbn. rewrite Hc.
    split; [apply Hbound; [lia|exact Hlen]|reflexivity].
Qed.

Lemma history_stays_consistent_witness :
  configcenter.consistent
    (configcenter.UpdateConfig (ext.url_Parse_ok sample.env) 200
       sample_center.update "routes" sample_center.centre).1
  /\ configcenter.consistent
       (configcenter.RollbackConfig 200 "100" sample_center.centre).1.
Proof.
  destruct (history_stays_consistent (ext.url_Parse_ok sample.env) 200
              sample_center.update "routes" "100" sample_center.centre)
    as [Hupdated Hrolled].
  - vm_compute. discriminate.
  - vm_compute. discriminate.
  - split; [apply Hupdated|apply Hrolled]; vm_compute; reflexivity.
Defined.

(** [UpdateConfig] is all or nothing, and never touches the port or the
    mode: when it fails the centre is as it was; when it succeeds the
    configuration in force is the merge of the previous one with the
    update, it passes [ValidateConfig], and its port and mode are the
    previous ones. *)
Theorem UpdateConfig_keeps_port_and_mode (url_Parse_ok : string -> bool) (now : Z)
        (newConfig : config.Config) (comment : string)
        (cc : configcenter.ConfigCenter) :
  let result := configcenter.UpdateConfig url_Parse_ok now newConfig comment cc in
  match result.2 with
  | Some _ => result.1 = cc
  | None =>
      exists previous merged,
        configcenter.currentConfig cc = Some previous
        /\ configcenter.currentConfig result.1 = Some merged
        /\ merged = configcenter.merge previous newConfig
        /\ config.ValidateConfig url_Parse_ok merged = None
        /\ config.Port (config.Server merged) = config.Port (config.Server previous)
        /\ config.Mode (config.Server merged) = config.Mode (config.Server previous)
  end.
Proof.
  cbv zeta. unfold configcenter.UpdateConfig.
  destruct (configcenter.currentConfig cc) as [current|] eqn:Ec; [|reflexivity].
  destruct (config.ValidateConfig _ _) eqn:Ev; [reflexivity|].
  destruct (addVersion_history now "manual" comment
              (configcenter.merge current newConfig)
              {| configcenter.currentConfig := Some (configcenter.merge current newConfig);
                 configcenter.versions := configcenter.versions cc;
                 configcenter.maxVersions := configcenter.maxVersions cc;
                 configcenter.notified := configcenter.notified cc |} eq_refl)
    as (v & cc2 & -> & _ & Hcur & _).
  cbn [fst snd]. exists current, (configcenter.merge current newConfig).
  cbn [configcenter.notify configcenter.currentConfig]. rewrite Hcur.
  repeat split; try reflexivity. exact Ev.
Qed.

Lemma find_app_fresh (version : string) (l : list configcenter.ConfigVersion)
      (v target : configcenter.ConfigVersion) :
  List.find (fun x => String.eqb (configcenter.Version x) version) l = Some target ->
  List.find (fun x => String.eqb (configcenter.Version x) version) (l ++ [v]) = Some target.
Proof.
  induction l as [|x l IH]; cbn; [discriminate|].
  destruct (String.eqb (configcenter.Version x) version); [trivial|exact IH].
Qed.

Lemma find_last_unique (l : list configcenter.ConfigVersion)
      (vk : configcenter.ConfigVersion) :
  NoDup (map configcenter.Version (l ++ [vk])) ->
  List.find (fun x => String.eqb (configcenter.Version x) (configcenter.Version vk))
            (l ++ [vk]) = Some vk.
Proof.
  induction l as [|x l IH]; cbn; intros H.
  - now rewrite String.eqb_refl.
  - apply NoDup_cons in H as [Hx H].
    destruct (String.eqb_spec (configcenter.Version x) (configcenter.Version vk)) as [E|E].
    + exfalso. apply Hx. rewrite E, map_app. apply elem_of_app. right. cbn. left.
    + now apply IH.
Qed.

(** Undo.  In a centre whose versions have distinct identifiers and
    whose history has room for two, rolling back to the version that was
    newest before an update restores the configuration that was in force
    before the update. *)
Theorem rollback_undoes_update (url_Parse_ok : string -> bool) (t1 t2 : Z)
        (newConfig : config.Config) (comment : string)
        (cc : configcenter.ConfigCenter) (older : list configcenter.ConfigVersion)
        (vk : configcenter.ConfigVersion) :
  configcenter.versions cc = older ++ [vk] ->
  configcenter.consistent cc ->
  2 <= configcenter.maxVersions cc ->
  NoDup (map configcenter.Version (configcenter.versions cc)) ->
  let updated := configcenter.UpdateConfig url_Parse_ok t1 newConfig comment cc in
  updated.2 = None ->
  let rolled := configcenter.RollbackConfig t2 (configcenter.Version vk) updated.1 in
  rolled.2 = None
  /\ configcenter.currentConfig rolled.1 = configcenter.currentConfig cc.
Proof.
  intros Hvs [Hlen Hlast] Hmax Hnodup updated Hok rolled.
  assert (Hcur : configcenter.currentConfig cc = Some (configcenter.Config vk)).
  { rewrite <- Hlast, Hvs, last_snoc. reflexivity. }
  assert (Hfind : configcenter.findVersion (configcenter.Version vk) updated.1 = Some vk).
  { unfold updated, configcenter.UpdateConfig in *. rewrite Hcur in *.
    destruct (config.ValidateConfig _ _); [discriminate|].
    unfold configcenter.addVersion, configcenter.notify, configcenter.findVersion.
    cbn [fst snd configcenter.versions configcenter.maxVersions
         configcenter.currentConfig].
    set (v := {| configcenter.Version := _; configcenter.Timestamp := _;
                 configcenter.Config := _; configcenter.Comment := _ |}).
    rewrite Hvs in *.
    destruct (configcenter.maxVersions cc <? _) eqn:E.
    - destruct older as [|x rest].
      + apply Z.ltb_lt in E. cbn in E. lia.
      + cbn [app drop]. apply find_app_fresh, find_last_unique.
        cbn in Hnodup. apply NoDup_cons in Hnodup as [_ Hnodup]. exact Hnodup.
    - apply find_app_fresh, find_last_unique. exact Hnodup. }
  unfold rolled, configcenter.RollbackConfig. rewrite Hfind.
  destruct (addVersion_history t2 "rollback"
              ("回滚到版本 " ++ configcenter.Version vk) (configcenter.Config vk)
              {| configcenter.currentConfig := Some (configcenter.Config vk);
                 configcenter.versions := configcenter.versions updated.1;
                 configcenter.maxVersions := configcenter.maxVersions updated.1;
                 configcenter.notified := configcenter.notified updated.1 |} eq_refl)
    as (v & cc2 & -> & _ & Hc & _).
  cbn [fst snd]. rewrite Hc, Hcur. split; reflexivity.
Qed.

Lemma rollback_undoes_update_witness :
  let updated := configcenter.UpdateConfig (ext.url_Parse_ok sample.env) 200
                   sample_center.update "routes" sample_center.centre in
  updated.2 = None
  /\ configcenter.currentConfig updated.1
     = Some (sample.cfg 8080 [sample.v1_api])
  /\ let rolled := configcenter.RollbackConfig 300 "100" updated.1 in
     rolled.2 = None
     /\ configcenter.currentConfig rolled.1
        = configcenter.currentConfig sample_center.centre.
Proof.
  intros updated.
  assert (Hok : updated.2 = None) by (vm_compute; reflexivity).
  split; [exact Hok|]. split; [vm_compute; reflexivity|].
  apply (rollback_undoes_update (ext.url_Parse_ok sample.env) 200 300
           sample_center.update "routes" sample_center.centre [] sample_center.initial).
  - reflexivity.
  - split; [vm_compute; discriminate|reflexivity].
  - vm_compute. discriminate.
  - apply NoDup_singleton.
  - exact Hok.
Defined.
